(** * A shallow embedding of the qjs binding layer (quickjs.hpp / quickjs.cpp)

    The binding wraps the C API of the scripting engine.  The engine itself
    (quickjs.h / quickjs.c) is not part of the binding's sources; the part of
    its state the binding can observe is modelled here as a [World]: the
    reference-counted cells, the property tables, the pending exception, the
    class registry and the class-id allocator, together with the host side
    the binding adds to it (the thread-local [closure_class], the heap that
    holds the closures created by [new Function(fn)]).

    Every C++ member function of the binding is a Rocq function that takes
    the world and returns the new world with its result. *)

From stdpp Require Import base gmap strings list pretty.
From Stdlib Require Import ZArith Lia.

Local Open Scope Z_scope.

(** ** Engine values *)

(** Modelled from the spec: the engine's [JSValue] (quickjs.h), a script value
    as the binding sees it: an immediate, or the address of a
    reference-counted cell of the engine. *)
Inductive JSValue : Type :=
  | JS_UNDEFINED
  | JS_NULL
  | JS_EXCEPTION
  | JS_BOOL (b : bool)
  | JS_INT (n : Z)
  | JS_STRING (p : Z)
  | JS_OBJECT (p : Z).

#[global] Instance JSValue_eq_dec : EqDecision JSValue.
Proof. solve_decision. Defined.

(** Modelled from the spec: [JS_VALUE_HAS_REF_COUNT] with [JS_VALUE_GET_PTR]
    (quickjs.h): the cell behind a value that is reference-counted. *)
Definition ref_addr (v : JSValue) : option Z :=
  match v with
  | JS_STRING p | JS_OBJECT p => Some p
  | _ => None
  end.

(** Modelled from the spec: what the engine's conversion to a number makes
    of an object (ToPrimitive with hint number followed by the
    string-to-number conversion).  The conversion runs script code; the model
    records its outcome with the object.  An ordinary object and an array of
    two or more elements convert to NaN; an object without [valueOf] and
    [toString] has no numeric conversion. *)
Inductive ToNumberOutcome : Type :=
  | NumNaN
  | NumInt (n : Z)
  | NumThrows.

(** Modelled from the spec: the record the engine keeps with a native
    function value (spec 4.5, step 3): its declared length, its integer
    discriminant and its bound data. *)
Record JSCFunctionDataRecord : Type := {
  cf_length : Z;
  cf_magic : Z;
  cf_data : list JSValue
}.

(** Modelled from the spec: a data property of an object: its value, and
    whether it can be written. *)
Record JSProperty : Type := {
  prop_value : JSValue;
  prop_writable : bool
}.

(** Modelled from the spec: an object of the engine: its class, whether it
    is extensible, the data properties it has of its own (the prototype chain
    and accessor properties are not modelled), the opaque slot of a native
    instance (0 is NULL), the record of a native function value, and its
    numeric conversion. *)
Record JSObject : Type := {
  class_id : Z;
  extensible : bool;
  props : gmap string JSProperty;
  opaque : Z;
  cfunc : option JSCFunctionDataRecord;
  to_number : ToNumberOutcome
}.

(** Modelled from the spec: a cell of the engine holds a string, as its
    UTF-16 code units, or an object, under a reference count. *)
Inductive Payload : Type :=
  | PString (units : list Z)
  | PObject (o : JSObject).

Record Cell : Type := {
  ref_count : Z;
  payload : Payload
}.

(** Modelled from the spec: class ids of the engine's built-in classes that
    the model uses (the enumeration in quickjs.c). *)
Definition JS_CLASS_OBJECT : Z := 1.
Definition JS_CLASS_ERROR : Z := 3.
Definition JS_CLASS_C_FUNCTION_DATA : Z := 15.

(** A [JSClassFinalizer].  The only finalizer the binding ever registers is
    the lambda written in the constructor of [Context]. *)
Inductive JSClassFinalizer : Type :=
  | closure_finalizer.

(** Modelled from the spec: [JSClassDef] (spec 4.4: name, finalizer, GC-mark
    callback). *)
Record JSClassDef : Type := {
  class_name : string;
  finalizer : option JSClassFinalizer;
  gc_mark_is_noop : bool
}.

(** Modelled from the spec: an execution context of the engine: its runtime
    and its reference count. *)
Record JSContextRec : Type := {
  ctx_rt : Z;
  ctx_ref_count : Z
}.

(** ** Host side *)

(** [qjs::Function], a [std::function].  A closure is identified by [fn_tag];
    [fn_body this args magic] is the engine value whose handle it returns. *)
Record Function : Type := {
  fn_tag : Z;
  fn_body : JSValue → list JSValue → Z → JSValue
}.

(** What a run leaves in the trace: the class-id allocations and class
    registrations with the thread that made them, the calls and the deletions
    of closures (the instrumented counter of spec 8), the calls of
    [JS_FreeRuntime]. *)
Inductive Event : Type :=
  | EvNewClassID (tid id : Z)
  | EvNewClass (tid rt id : Z) (name : string)
  | EvClosureCall (tag : Z) (this : JSValue) (args : list JSValue) (magic : Z)
  | EvClosureDelete (ptr : Z)
  | EvFreeRuntime (rt : Z).

(** Memory errors: undefined behaviour of the C and C++ code. *)
Inductive Fault : Type :=
  | UseAfterFree (p : Z)
  | DoubleFreeRuntime (rt : Z)
  | DoubleDelete (ptr : Z)
  | NullCall
  | UnregisteredClass (id : Z)
  | FuelExhausted.

#[global] Instance Event_eq_dec : EqDecision Event.
Proof. solve_decision. Defined.

#[global] Instance Fault_eq_dec : EqDecision Fault.
Proof. solve_decision. Defined.

(** The state of the process: the engine's class-id allocator, its live
    runtimes with their classes and pending exceptions, its contexts and its
    cells; the running thread, the [closure_class] of every thread and the
    closures on the host heap; the trace and the faults so far.  One
    allocator, [next_addr], hands out every address. *)
Record World : Type := {
  js_class_id_alloc : Z;
  runtimes : gset Z;
  classes : gmap (Z * Z) JSClassDef;
  exceptions : gmap Z JSValue;
  contexts : gmap Z JSContextRec;
  heap : gmap Z Cell;
  next_addr : Z;
  cur_thread : Z;
  tls_closure_class : gmap Z Z;
  fn_heap : gmap Z Function;
  trace : list Event;
  faults : list Fault
}.

Definition set_class_id_alloc (n : Z) (w : World) : World :=
  {| js_class_id_alloc := n; runtimes := runtimes w; classes := classes w;
     exceptions := exceptions w; contexts := contexts w; heap := heap w;
     next_addr := next_addr w; cur_thread := cur_thread w;
     tls_closure_class := tls_closure_class w; fn_heap := fn_heap w;
     trace := trace w; faults := faults w |}.

Definition set_runtimes (r : gset Z) (w : World) : World :=
  {| js_class_id_alloc := js_class_id_alloc w; runtimes := r; classes := classes w;
     exceptions := exceptions w; contexts := contexts w; heap := heap w;
     next_addr := next_addr w; cur_thread := cur_thread w;
     tls_closure_class := tls_closure_class w; fn_heap := fn_heap w;
     trace := trace w; faults := faults w |}.

Definition set_classes (c : gmap (Z * Z) JSClassDef) (w : World) : World :=
  {| js_class_id_alloc := js_class_id_alloc w; runtimes := runtimes w; classes := c;
     exceptions := exceptions w; contexts := contexts w; heap := heap w;
     next_addr := next_addr w; cur_thread := cur_thread w;
     tls_closure_class := tls_closure_class w; fn_heap := fn_heap w;
     trace := trace w; faults := faults w |}.

Definition set_exceptions (e : gmap Z JSValue) (w : World) : World :=
  {| js_class_id_alloc := js_class_id_alloc w; runtimes := runtimes w; classes := classes w;
     exceptions := e; contexts := contexts w; heap := heap w;
     next_addr := next_addr w; cur_thread := cur_thread w;
     tls_closure_class := tls_closure_class w; fn_heap := fn_heap w;
     trace := trace w; faults := faults w |}.

Definition set_contexts (c : gmap Z JSContextRec) (w : World) : World :=
  {| js_class_id_alloc := js_class_id_alloc w; runtimes := runtimes w; classes := classes w;
     exceptions := exceptions w; contexts := c; heap := heap w;
     next_addr := next_addr w; cur_thread := cur_thread w;
     tls_closure_class := tls_closure_class w; fn_heap := fn_heap w;
     trace := trace w; faults := faults w |}.

Definition set_heap (h : gmap Z Cell) (w : World) : World :=
  {| js_class_id_alloc := js_class_id_alloc w; runtimes := runtimes w; classes := classes w;
     exceptions := exceptions w; contexts := contexts w; heap := h;
     next_addr := next_addr w; cur_thread := cur_thread w;
     tls_closure_class := tls_closure_class w; fn_heap := fn_heap w;
     trace := trace w; faults := faults w |}.

Definition set_next_addr (n : Z) (w : World) : World :=
  {| js_class_id_alloc := js_class_id_alloc w; runtimes := runtimes w; classes := classes w;
     exceptions := exceptions w; contexts := contexts w; heap := heap w;
     next_addr := n; cur_thread := cur_thread w;
     tls_closure_class := tls_closure_class w; fn_heap := fn_heap w;
     trace := trace w; faults := faults w |}.

Definition set_cur_thread (t : Z) (w : World) : World :=
  {| js_class_id_alloc := js_class_id_alloc w; runtimes := runtimes w; classes := classes w;
     exceptions := exceptions w; contexts := contexts w; heap := heap w;
     next_addr := next_addr w; cur_thread := t;
     tls_closure_class := tls_closure_class w; fn_heap := fn_heap w;
     trace := trace w; faults := faults w |}.

Definition set_tls_closure_class (t : gmap Z Z) (w : World) : World :=
  {| js_class_id_alloc := js_class_id_alloc w; runtimes := runtimes w; classes := classes w;
     exceptions := exceptions w; contexts := contexts w; heap := heap w;
     next_addr := next_addr w; cur_thread := cur_thread w;
     tls_closure_class := t; fn_heap := fn_heap w;
     trace := trace w; faults := faults w |}.

Definition set_fn_heap (f : gmap Z Function) (w : World) : World :=
  {| js_class_id_alloc := js_class_id_alloc w; runtimes := runtimes w; classes := classes w;
     exceptions := exceptions w; contexts := contexts w; heap := heap w;
     next_addr := next_addr w; cur_thread := cur_thread w;
     tls_closure_class := tls_closure_class w; fn_heap := f;
     trace := trace w; faults := faults w |}.

Definition log_event (e : Event) (w : World) : World :=
  {| js_class_id_alloc := js_class_id_alloc w; runtimes := runtimes w; classes := classes w;
     exceptions := exceptions w; contexts := contexts w; heap := heap w;
     next_addr := next_addr w; cur_thread := cur_thread w;
     tls_closure_class := tls_closure_class w; fn_heap := fn_heap w;
     trace := trace w ++ [e]; faults := faults w |}.

Definition add_fault (f : Fault) (w : World) : World :=
  {| js_class_id_alloc := js_class_id_alloc w; runtimes := runtimes w; classes := classes w;
     exceptions := exceptions w; contexts := contexts w; heap := heap w;
     next_addr := next_addr w; cur_thread := cur_thread w;
     tls_closure_class := tls_closure_class w; fn_heap := fn_heap w;
     trace := trace w; faults := faults w ++ [f] |}.

(** A program start: nothing allocated, no thread has built a [Context].
    [first_id] is the engine's [JS_CLASS_INIT_COUNT]. *)
Definition initial_world (first_id : Z) : World :=
  {| js_class_id_alloc := first_id; runtimes := ∅; classes := ∅;
     exceptions := ∅; contexts := ∅; heap := ∅;
     next_addr := 1; cur_thread := 0;
     tls_closure_class := ∅; fn_heap := ∅;
     trace := []; faults := [] |}.

(** ** Engine primitives

    The engine primitives the binding consumes (spec 6).  quickjs.h and
    quickjs.c are not among the binding's sources, so each primitive is a
    model.  Ownership follows the convention of quickjs.h, which the binding
    includes: a parameter of type [JSValueConst] is borrowed, a parameter or
    result of type [JSValue] is an owned reference that passes to the
    receiver. *)

(** Modelled from the spec: [JS_GetRuntime(ctx)]. *)
Definition JS_GetRuntime (w : World) (ctx : Z) : Z :=
  default 0 (ctx_rt <$> contexts w !! ctx).

Definition lookup_object (w : World) (v : JSValue) : option JSObject :=
  match v with
  | JS_OBJECT p =>
      match heap w !! p with
      | Some {| payload := PObject o |} => Some o
      | _ => None
      end
  | _ => None
  end.

Definition with_ref_count (n : Z) (c : Cell) : Cell :=
  {| ref_count := n; payload := payload c |}.

Definition with_object (o : JSObject) (c : Cell) : Cell :=
  {| ref_count := ref_count c; payload := PObject o |}.

Definition alloc_cell (c : Cell) (w : World) : Z * World :=
  let p := next_addr w in
  (p, set_next_addr (p + 1) (set_heap (<[p := c]> (heap w)) w)).

(** Modelled from the spec: [JS_DupValue], the duplication primitive (spec 3:
    copy increments the engine refcount): one more reference to the cell
    behind [v].  A cell that is gone is a use after free. *)
Definition JS_DupValue (w : World) (ctx : Z) (v : JSValue) : JSValue * World :=
  match ref_addr v with
  | Some p =>
      match heap w !! p with
      | Some c => (v, set_heap (<[p := with_ref_count (ref_count c + 1) c]> (heap w)) w)
      | None => (v, add_fault (UseAfterFree p) w)
      end
  | None => (v, w)
  end.

(** Modelled from the spec: [JS_GetOpaque(obj, class_id)], the retrieval of
    the opaque slot of a native instance (spec 6): NULL unless [obj] is an
    object of that class. *)
Definition JS_GetOpaque (w : World) (obj : JSValue) (cid : Z) : Z :=
  match lookup_object w obj with
  | Some o => if class_id o =? cid then opaque o else 0
  | None => 0
  end.

(** The thread-local [Context::closure_class] of the running thread;
    zero-initialised. *)
Definition closure_class (w : World) : Z :=
  default 0 (tls_closure_class w !! cur_thread w).

(** [delete ptr] on a pointer to a [Function]: nothing for NULL, a double
    delete when the closure is gone. *)
Definition delete_Function (ptr : Z) (w : World) : World :=
  if ptr =? 0 then w
  else match fn_heap w !! ptr with
       | Some _ => log_event (EvClosureDelete ptr) (set_fn_heap (delete ptr (fn_heap w)) w)
       | None => add_fault (DoubleDelete ptr) w
       end.

(** quickjs.cpp, 181-185: the finalizer of the carrier class. *)
Definition Std_Closure_finalizer (w : World) (val : JSValue) : World :=
  let opaque := JS_GetOpaque w val (closure_class w) in
  delete_Function opaque w.

(** Modelled from the spec: the engine calls the finalizer that the class of
    the object has in the runtime (spec 4.5, step 5). *)
Definition run_class_finalizer (rt : Z) (o : JSObject) (val : JSValue) (w : World) : World :=
  match classes w !! (rt, class_id o) with
  | Some {| finalizer := Some closure_finalizer |} => Std_Closure_finalizer w val
  | _ => w
  end.

(** Modelled from the spec: the references an object of the engine holds:
    its property values and, for a native function object, its bound data. *)
Definition obj_children (o : JSObject) : list JSValue :=
  (prop_value <$> (map_to_list (props o)).*2) ++
  match cfunc o with Some r => cf_data r | None => [] end.

Definition cell_refs (c : Cell) : nat :=
  match payload c with
  | PString _ => 1%nat
  | PObject o => S (length (obj_children o))
  end.

Definition heap_refs (h : gmap Z Cell) : nat :=
  map_fold (λ _ c n, (n + cell_refs c)%nat) 0%nat h.

(** Modelled from the spec: the release of references (spec 9: destroy is
    decrement-and-maybe-release).  A cell whose count drops to zero is
    finalized by the finalizer of its class (spec 4.5, step 5) and removed,
    and the references it held are released in turn.  [fuel] bounds the
    number of releases; [free_values_has_fuel] shows that what
    [JS_FreeValue] gives is enough. *)
Fixpoint free_values (fuel : nat) (rt : Z) (pending : list JSValue) (w : World) : World :=
  match pending with
  | [] => w
  | v :: rest =>
      match fuel with
      | O => add_fault FuelExhausted w
      | S fuel' =>
          match ref_addr v with
          | None => free_values fuel' rt rest w
          | Some p =>
              match heap w !! p with
              | None => free_values fuel' rt rest (add_fault (UseAfterFree p) w)
              | Some c =>
                  if decide (ref_count c - 1 ≤ 0) then
                    match payload c with
                    | PString _ =>
                        free_values fuel' rt rest (set_heap (delete p (heap w)) w)
                    | PObject o =>
                        let w1 := run_class_finalizer rt o v w in
                        free_values fuel' rt (obj_children o ++ rest)
                          (set_heap (delete p (heap w1)) w1)
                    end
                  else
                    free_values fuel' rt rest
                      (set_heap (<[p := with_ref_count (ref_count c - 1) c]> (heap w)) w)
              end
          end
      end
  end.

(** Modelled from the spec: [JS_FreeValue], the release primitive. *)
Definition JS_FreeValue (w : World) (ctx : Z) (v : JSValue) : World :=
  free_values (S (heap_refs (heap w))) (JS_GetRuntime w ctx) [v] w.

(** Modelled from the spec: the pending exception of a runtime; [JS_NULL]
    when there is none. *)
Definition current_exception (w : World) (rt : Z) : JSValue :=
  default JS_NULL (exceptions w !! rt).

(** Modelled from the spec: [JS_GetException] (spec 4.2: fetching the
    exception clears the pending-exception state): hands the pending
    exception of the runtime to the caller and leaves [JS_NULL], the state of
    no exception, in its place. *)
Definition JS_GetException (w : World) (ctx : Z) : JSValue * World :=
  let rt := JS_GetRuntime w ctx in
  (current_exception w rt, set_exceptions (<[rt := JS_NULL]> (exceptions w)) w).

(** Modelled from the spec: [JS_Throw], how an engine operation signals
    failure (glossary, pending exception): [obj] becomes the pending
    exception; the one it replaces is released. *)
Definition JS_Throw (w : World) (ctx : Z) (obj : JSValue) : JSValue * World :=
  let rt := JS_GetRuntime w ctx in
  let w1 := JS_FreeValue w ctx (current_exception w rt) in
  (JS_EXCEPTION, set_exceptions (<[rt := obj]> (exceptions w1)) w1).

Definition new_plain_object (cid : Z) : JSObject :=
  {| class_id := cid; extensible := true; props := ∅; opaque := 0;
     cfunc := None; to_number := NumNaN |}.

(** Modelled from the spec: [JS_ThrowTypeError]: a fresh error object is
    thrown. *)
Definition JS_ThrowTypeError (w : World) (ctx : Z) : JSValue * World :=
  let (p, w1) := alloc_cell {| ref_count := 1;
                               payload := PObject (new_plain_object JS_CLASS_ERROR) |} w in
  JS_Throw w1 ctx (JS_OBJECT p).

(** ** Host strings and the C strings handed to the engine *)

Definition NUL : Ascii.ascii := Ascii.zero.

(** [std::string::c_str()]: the bytes of the string followed by a
    terminating zero byte. *)
Definition c_str (s : string) : string := s +:+ String NUL EmptyString.

(** What the engine reads from a [const char*] that comes without a length:
    the bytes before the first zero byte. *)
Fixpoint read_c_string (buf : string) : string :=
  match buf with
  | EmptyString => EmptyString
  | String c rest =>
      if decide (c = NUL) then EmptyString else String c (read_c_string rest)
  end.

(** What the engine reads from a buffer that comes with a length. *)
Fixpoint read_bytes (buf : string) (len : nat) : string :=
  match len, buf with
  | S n, String c rest => String c (read_bytes rest n)
  | _, _ => EmptyString
  end.

(** ** Properties *)

(** Modelled from the spec: the property key of an array index is its
    decimal spelling, as in the script language. *)
Definition index_key (idx : Z) : string := pretty (Z.to_N idx).

(** Modelled from the spec: [JS_NewAtomLen(ctx, str, len)] (spec 4.1: interns
    the name as an atom): the atom of the [len] bytes at [str].  Atoms are
    modelled by the name they intern, so [JS_FreeAtom] has no effect on the
    world. *)
Definition JS_NewAtomLen (buf : string) (len : nat) : string := read_bytes buf len.

(** Modelled from the spec: [JS_HasProperty], over the properties an object
    has of its own: TRUE or FALSE; FALSE for a value that is no object. *)
Definition JS_HasProperty (w : World) (ctx : Z) (obj : JSValue) (atom : string) : Z :=
  match lookup_object w obj with
  | Some o => if decide (is_Some (props o !! atom)) then 1 else 0
  | None => 0
  end.

(** Modelled from the spec: [JS_IsExtensible], the extensibility query
    (spec 4.1): FALSE for a value that is no object. *)
Definition JS_IsExtensible (w : World) (ctx : Z) (obj : JSValue) : Z :=
  match lookup_object w obj with
  | Some o => if extensible o then 1 else 0
  | None => 0
  end.

Definition with_extensible (b : bool) (o : JSObject) : JSObject :=
  {| class_id := class_id o; extensible := b; props := props o;
     opaque := opaque o; cfunc := cfunc o; to_number := to_number o |}.

Definition with_props (m : gmap string JSProperty) (o : JSObject) : JSObject :=
  {| class_id := class_id o; extensible := extensible o; props := m;
     opaque := opaque o; cfunc := cfunc o; to_number := to_number o |}.

Definition with_opaque (ptr : Z) (o : JSObject) : JSObject :=
  {| class_id := class_id o; extensible := extensible o; props := props o;
     opaque := ptr; cfunc := cfunc o; to_number := to_number o |}.

Definition update_object (p : Z) (f : JSObject → JSObject) (w : World) : World :=
  match heap w !! p with
  | Some c =>
      match payload c with
      | PObject o => set_heap (<[p := with_object (f o) c]> (heap w)) w
      | PString _ => w
      end
  | None => add_fault (UseAfterFree p) w
  end.

(** Modelled from the spec: [JS_PreventExtensions] (spec 4.1). *)
Definition JS_PreventExtensions (w : World) (ctx : Z) (obj : JSValue) : World :=
  match obj with
  | JS_OBJECT p => update_object p (with_extensible false) w
  | _ => w
  end.

(** Modelled from the spec: reading a property (spec 4.1: the property value,
    newly owned): the result is a new reference to the value stored;
    [JS_UNDEFINED] when the object has no such property; a type error for
    [null] and [undefined]. *)
Definition JS_GetPropertyKey (w : World) (ctx : Z) (this_obj : JSValue) (key : string)
  : JSValue * World :=
  match this_obj with
  | JS_OBJECT _ =>
      match lookup_object w this_obj with
      | Some o =>
          match props o !! key with
          | Some pr => JS_DupValue w ctx (prop_value pr)
          | None => (JS_UNDEFINED, w)
          end
      | None => (JS_UNDEFINED, w)
      end
  | JS_UNDEFINED | JS_NULL => JS_ThrowTypeError w ctx
  | JS_EXCEPTION => (JS_EXCEPTION, w)
  | _ => (JS_UNDEFINED, w)
  end.

(** Modelled from the spec: [JS_GetPropertyStr(ctx, this_obj, prop)]; [prop]
    is a C string. *)
Definition JS_GetPropertyStr (w : World) (ctx : Z) (this_obj : JSValue) (prop : string)
  : JSValue * World :=
  JS_GetPropertyKey w ctx this_obj (read_c_string prop).

(** Modelled from the spec: [JS_GetPropertyUint32(ctx, this_obj, idx)]. *)
Definition JS_GetPropertyUint32 (w : World) (ctx : Z) (this_obj : JSValue) (idx : Z)
  : JSValue * World :=
  JS_GetPropertyKey w ctx this_obj (index_key idx).

(** Modelled from the spec: writing a property of an object with data
    properties.  quickjs.h declares [val] as a [JSValue], not a
    [JSValueConst]: the engine takes the caller's reference.  It is kept by
    the property on success and released on failure; the value the property
    held before is released.  A property that is there must be writable, a
    new property needs an extensible object; the write fails otherwise, with
    a type error.  The result is TRUE, or -1 with a pending exception. *)
Definition JS_SetPropertyKey (w : World) (ctx : Z) (this_obj : JSValue) (key : string)
  (val : JSValue) : Z * World :=
  let refused := (-1, (JS_ThrowTypeError (JS_FreeValue w ctx val) ctx).2) in
  match this_obj with
  | JS_OBJECT p =>
      match heap w !! p with
      | Some c =>
          match payload c with
          | PObject o =>
              let written := {| prop_value := val; prop_writable := true |} in
              let stored :=
                set_heap (<[p := with_object (with_props (<[key := written]> (props o)) o) c]>
                            (heap w)) w in
              match props o !! key with
              | Some old =>
                  if prop_writable old then (1, JS_FreeValue stored ctx (prop_value old))
                  else refused
              | None => if extensible o then (1, stored) else refused
              end
          | PString _ => refused
          end
      | None => (-1, add_fault (UseAfterFree p) w)
      end
  | _ => refused
  end.

(** Modelled from the spec: [JS_SetPropertyStr(ctx, this_obj, prop, val)];
    [prop] is a C string. *)
Definition JS_SetPropertyStr (w : World) (ctx : Z) (this_obj : JSValue) (prop : string)
  (val : JSValue) : Z * World :=
  JS_SetPropertyKey w ctx this_obj (read_c_string prop) val.

(** Modelled from the spec: [JS_SetPropertyUint32(ctx, this_obj, idx, val)]. *)
Definition JS_SetPropertyUint32 (w : World) (ctx : Z) (this_obj : JSValue) (idx : Z)
  (val : JSValue) : Z * World :=
  JS_SetPropertyKey w ctx this_obj (index_key idx) val.

(** ** Strings *)

(** The bytes of a host string, as numbers below 256, and back. *)
Definition byte_of_ascii (c : Ascii.ascii) : Z := Z.of_N (Ascii.N_of_ascii c).
Definition ascii_of_byte (b : Z) : Ascii.ascii := Ascii.ascii_of_N (Z.to_N b).
Definition bytes_of_string (s : string) : list Z :=
  byte_of_ascii <$> String.list_ascii_of_string s.
Definition string_of_bytes (bs : list Z) : string :=
  String.string_of_list_ascii (ascii_of_byte <$> bs).

(** Modelled from the spec: the tables of [unicode_from_utf8] in the
    engine: the least code point of a sequence with [l] continuation bytes,
    and the mask of the payload bits of its first byte. *)
Definition utf8_min_code (l : nat) : Z :=
  nth (l - 1) [0x80; 0x800; 0x10000; 0x00200000; 0x04000000] 0.
Definition utf8_first_code_mask (l : nat) : Z :=
  nth (l - 1) [0x1f; 0xf; 0x7; 0x3; 0x1] 0.

(** Modelled from the spec: the loop of [unicode_from_utf8] over the [l]
    continuation bytes, each of the form 10xxxxxx. *)
Fixpoint utf8_continuation (l : nat) (c : Z) (p : list Z) : option (Z * list Z) :=
  match l with
  | O => Some (c, p)
  | S l' =>
      match p with
      | b :: p' =>
          if (b <? 0x80) || (0xc0 <=? b) then None
          else utf8_continuation l' (Z.lor (Z.shiftl c 6) (Z.land b 0x3f)) p'
      | [] => None
      end
  end.

(** Modelled from the spec: the number of continuation bytes that the first
    byte of a sequence announces. *)
Definition utf8_sequence_length (c : Z) : option nat :=
  if (0xc0 <=? c) && (c <=? 0xdf) then Some 1%nat
  else if (0xe0 <=? c) && (c <=? 0xef) then Some 2%nat
  else if (0xf0 <=? c) && (c <=? 0xf7) then Some 3%nat
  else if (0xf8 <=? c) && (c <=? 0xfb) then Some 4%nat
  else if (0xfc <=? c) && (c <=? 0xfd) then Some 5%nat
  else None.

(** Modelled from the spec: [unicode_from_utf8(p, max_len, pp)] of the
    engine: the code point that the bytes at [p] spell, with the bytes after
    it; [None], the -1 of the C function, for a first byte that starts no
    sequence, a sequence cut short, a byte that is no continuation byte, and
    a code point spelled with more bytes than it needs. *)
Definition unicode_from_utf8 (p : list Z) : option (Z * list Z) :=
  match p with
  | [] => None
  | c :: p1 =>
      if c <? 0x80 then Some (c, p1)
      else
        match utf8_sequence_length c with
        | None => None
        | Some l =>
            if (length p1 <? l)%nat then None
            else
              match utf8_continuation l (Z.land c (utf8_first_code_mask l)) p1 with
              | Some (c', p') => if c' <? utf8_min_code l then None else Some (c', p')
              | None => None
              end
        end
  end.

(** Modelled from the spec: what [JS_NewStringLen] skips after bytes it
    cannot decode: the continuation bytes at [p], one more byte, and the
    continuation bytes after it. *)
Fixpoint skip_continuation (p : list Z) : list Z :=
  match p with
  | b :: p' => if (0x80 <=? b) && (b <? 0xc0) then skip_continuation p' else p
  | [] => []
  end.

Definition skip_invalid (p : list Z) : list Z :=
  match skip_continuation p with
  | [] => []
  | _ :: p' => skip_continuation p'
  end.

(** Modelled from the spec: the decoding loop of [JS_NewStringLen]: the
    UTF-16 code units of the bytes at [p].  A code point above 0xFFFF makes
    a surrogate pair; bytes that spell no code point up to 0x10FFFF make one
    U+FFFD.  Every step consumes a byte, so the length of [p] is enough
    fuel. *)
Fixpoint utf8_to_units (fuel : nat) (p : list Z) : list Z :=
  match fuel with
  | O => []
  | S fuel' =>
      match p with
      | [] => []
      | b :: p1 =>
          if b <? 128 then b :: utf8_to_units fuel' p1
          else
            match unicode_from_utf8 p with
            | Some (c, p_next) =>
                if c <? 0x10000 then c :: utf8_to_units fuel' p_next
                else if c <=? 0x10FFFF then
                  (Z.shiftr (c - 0x10000) 10 + 0xd800)
                    :: (Z.land (c - 0x10000) 0x3ff + 0xdc00)
                    :: utf8_to_units fuel' p_next
                else 0xfffd :: utf8_to_units fuel' (skip_invalid p)
            | None => 0xfffd :: utf8_to_units fuel' (skip_invalid p)
            end
      end
  end.

(** Modelled from the spec: [unicode_to_utf8(buf, c)] of the engine, for the
    code points a string can hold (below 0x110000). *)
Definition unicode_to_utf8 (c : Z) : list Z :=
  if c <? 0x80 then [c]
  else if c <? 0x800 then
    [Z.lor (Z.shiftr c 6) 0xc0; Z.lor (Z.land c 0x3f) 0x80]
  else if c <? 0x10000 then
    [Z.lor (Z.shiftr c 12) 0xe0; Z.lor (Z.land (Z.shiftr c 6) 0x3f) 0x80;
     Z.lor (Z.land c 0x3f) 0x80]
  else if c <? 0x00200000 then
    [Z.lor (Z.shiftr c 18) 0xf0; Z.lor (Z.land (Z.shiftr c 12) 0x3f) 0x80;
     Z.lor (Z.land (Z.shiftr c 6) 0x3f) 0x80; Z.lor (Z.land c 0x3f) 0x80]
  else [].

(** Modelled from the spec: the encoding loop of [JS_ToCStringLen]: the
    UTF-8 bytes of the code units of a string; a surrogate pair is encoded as
    the code point it stands for. *)
Fixpoint units_to_utf8 (src : list Z) : list Z :=
  match src with
  | [] => []
  | c :: rest =>
      if c <? 0x80 then c :: units_to_utf8 rest
      else if (0xd800 <=? c) && (c <? 0xdc00) then
        match rest with
        | c1 :: rest' =>
            if (0xdc00 <=? c1) && (c1 <? 0xe000) then
              unicode_to_utf8
                (Z.lor (Z.shiftl (Z.land c 0x3ff) 10) (Z.land c1 0x3ff) + 0x10000)
                ++ units_to_utf8 rest'
            else unicode_to_utf8 c ++ units_to_utf8 rest
        | [] => unicode_to_utf8 c
        end
      else unicode_to_utf8 c ++ units_to_utf8 rest
  end.

(** Well-formed UTF-8 (the Unicode standard, table 3-7): the second byte of
    a sequence of three or of four bytes depends on the first, so that no
    code point is spelled with more bytes than it needs, none is a
    surrogate, and none is above 0x10FFFF. *)
Definition in_range (b lo hi : Z) : bool := (lo <=? b) && (b <=? hi).

Definition utf8_second_of_three (b0 b1 : Z) : bool :=
  (in_range b0 0xe0 0xe0 && in_range b1 0xa0 0xbf)
  || (in_range b0 0xe1 0xec && in_range b1 0x80 0xbf)
  || (in_range b0 0xed 0xed && in_range b1 0x80 0x9f)
  || (in_range b0 0xee 0xef && in_range b1 0x80 0xbf).

Definition utf8_second_of_four (b0 b1 : Z) : bool :=
  (in_range b0 0xf0 0xf0 && in_range b1 0x90 0xbf)
  || (in_range b0 0xf1 0xf3 && in_range b1 0x80 0xbf)
  || (in_range b0 0xf4 0xf4 && in_range b1 0x80 0x8f).

Fixpoint utf8_well_formed (p : list Z) : bool :=
  match p with
  | [] => true
  | b0 :: p1 =>
      if in_range b0 0 0x7f then utf8_well_formed p1
      else
        match p1 with
        | [] => false
        | b1 :: p2 =>
            if in_range b0 0xc2 0xdf then in_range b1 0x80 0xbf && utf8_well_formed p2
            else
              match p2 with
              | [] => false
              | b2 :: p3 =>
                  if utf8_second_of_three b0 b1 then
                    in_range b2 0x80 0xbf && utf8_well_formed p3
                  else
                    match p3 with
                    | [] => false
                    | b3 :: p4 =>
                        utf8_second_of_four b0 b1 && in_range b2 0x80 0xbf
                        && in_range b3 0x80 0xbf && utf8_well_formed p4
                    end
              end
        end
  end.

(** Modelled from the spec: [JS_NewStringLen(ctx, buf, buf_len)] (spec 4.4:
    length-prefixed string, explicit byte length, not null-terminated): a new
    string cell for the [buf_len] bytes at [buf], which the engine reads as
    UTF-8; one reference, owned by the caller. *)
Definition JS_NewStringLen (w : World) (ctx : Z) (buf : string) (buf_len : nat)
  : JSValue * World :=
  let bytes := bytes_of_string (read_bytes buf buf_len) in
  let units := utf8_to_units (length bytes) bytes in
  let (p, w1) := alloc_cell {| ref_count := 1; payload := PString units |} w in
  (JS_STRING p, w1).

(** Modelled from the spec: [JS_NewAtomString(ctx, str)] (spec 4.4:
    atom-interned string); [str] is a C string. *)
Definition JS_NewAtomString (w : World) (ctx : Z) (str : string) : JSValue * World :=
  let bytes := bytes_of_string (read_c_string str) in
  let units := utf8_to_units (length bytes) bytes in
  let (p, w1) := alloc_cell {| ref_count := 1; payload := PString units |} w in
  (JS_STRING p, w1).

(** Modelled from the spec: the view [JS_ToCStringLen] returns (spec 4.4: a
    length-qualified C-string view): zero-terminated bytes inside a cell of
    the engine, which [JS_FreeCString] releases. *)
Record CString : Type := {
  cs_owner : JSValue;
  cs_chars : string
}.

(** ** Contexts, runtimes and classes *)

(** Modelled from the spec: [JS_NewRuntime]: a new engine runtime. *)
Definition JS_NewRuntime (w : World) : Z * World :=
  let rt := next_addr w in
  (rt, set_next_addr (rt + 1) (set_runtimes ({[rt]} ∪ runtimes w) w)).

(** Modelled from the spec: [JS_FreeRuntime] (spec 5: runtime free): the
    runtime is gone afterwards; freeing it again is a double free. *)
Definition JS_FreeRuntime (w : World) (rt : Z) : World :=
  let w1 := log_event (EvFreeRuntime rt) w in
  if decide (rt ∈ runtimes w1) then set_runtimes (runtimes w1 ∖ {[rt]}) w1
  else add_fault (DoubleFreeRuntime rt) w1.

(** Modelled from the spec: [JS_NewContext(rt)]: a new execution context of
    the runtime, with one reference. *)
Definition JS_NewContext (w : World) (rt : Z) : Z * World :=
  let ctx := next_addr w in
  (ctx, set_next_addr (ctx + 1)
          (set_contexts (<[ctx := {| ctx_rt := rt; ctx_ref_count := 1 |}]> (contexts w)) w)).

(** Modelled from the spec: [JS_DupContext] (spec 3: copy duplicates the
    underlying context reference). *)
Definition JS_DupContext (w : World) (ctx : Z) : Z * World :=
  match contexts w !! ctx with
  | Some c =>
      (ctx, set_contexts (<[ctx := {| ctx_rt := ctx_rt c;
                                      ctx_ref_count := ctx_ref_count c + 1 |}]> (contexts w)) w)
  | None => (ctx, add_fault (UseAfterFree ctx) w)
  end.

(** Modelled from the spec: [JS_FreeContext] (spec 5: context free). *)
Definition JS_FreeContext (w : World) (ctx : Z) : World :=
  match contexts w !! ctx with
  | Some c =>
      if decide (ctx_ref_count c - 1 ≤ 0) then set_contexts (delete ctx (contexts w)) w
      else set_contexts (<[ctx := {| ctx_rt := ctx_rt c;
                                     ctx_ref_count := ctx_ref_count c - 1 |}]> (contexts w)) w
  | None => add_fault (UseAfterFree ctx) w
  end.

(** Modelled from the spec: [JS_NewClassID(pclass_id)] (spec 4.4: class id):
    when [*pclass_id] is zero, the next id of the process-wide allocator is
    stored there.  [JSClassID] is a [uint32_t].  The result is the new
    content of [*pclass_id]. *)
Definition JS_NewClassID (w : World) (pclass_id : Z) : Z * World :=
  if pclass_id =? 0 then
    let id := js_class_id_alloc w in
    (id, log_event (EvNewClassID (cur_thread w) id)
           (set_class_id_alloc ((id + 1) mod 2 ^ 32) w))
  else (pclass_id, w).

(** Modelled from the spec: [JS_NewClass(rt, class_id, class_def)] (spec 4.4:
    registers the class with its name, finalizer and GC-mark callback): -1
    when the runtime has the class already. *)
Definition JS_NewClass (w : World) (rt : Z) (cid : Z) (def : JSClassDef) : Z * World :=
  let w1 := log_event (EvNewClass (cur_thread w) rt cid (class_name def)) w in
  match classes w1 !! (rt, cid) with
  | Some _ => (-1, w1)
  | None => (0, set_classes (<[(rt, cid) := def]> (classes w1)) w1)
  end.

(** Modelled from the spec: [JS_NewObjectClass(ctx, class_id)] (spec 4.5,
    step 2): a new object of the class, one reference, owned by the caller.
    A class the runtime does not have is a fault. *)
Definition JS_NewObjectClass (w : World) (ctx : Z) (cid : Z) : JSValue * World :=
  let w0 := match classes w !! (JS_GetRuntime w ctx, cid) with
            | Some _ => w
            | None => add_fault (UnregisteredClass cid) w
            end in
  let (p, w1) := alloc_cell {| ref_count := 1; payload := PObject (new_plain_object cid) |} w0 in
  (JS_OBJECT p, w1).

(** Modelled from the spec: [JS_NewObject(ctx)]: a new plain object, one
    reference, owned by the caller. *)
Definition JS_NewObject (w : World) (ctx : Z) : JSValue * World :=
  let (p, w1) := alloc_cell {| ref_count := 1;
                               payload := PObject (new_plain_object JS_CLASS_OBJECT) |} w in
  (JS_OBJECT p, w1).

(** Modelled from the spec: [JS_SetOpaque(obj, opaque)], the attachment of
    opaque data to a native instance (spec 6). *)
Definition JS_SetOpaque (w : World) (obj : JSValue) (ptr : Z) : World :=
  match obj with
  | JS_OBJECT p => update_object p (with_opaque ptr) w
  | _ => w
  end.

Fixpoint dup_values (w : World) (ctx : Z) (vs : list JSValue) : World :=
  match vs with
  | [] => w
  | v :: rest => dup_values (JS_DupValue w ctx v).2 ctx rest
  end.

(** Modelled from the spec: [JS_NewCFunctionData(ctx, func, length, magic,
    data_len, data)] (spec 4.5, step 3: registers a native function value
    with bound data): a new function object, one reference, owned by the
    caller.  quickjs.h declares [data] as a pointer to [JSValueConst]: the
    values are borrowed from the caller, and the function object keeps a
    reference of its own to each of the [data_len] values, which it releases
    when it is freed.  The [length] of a function is a property that cannot
    be written. *)
Definition JS_NewCFunctionData (w : World) (ctx : Z) (length magic : Z) (data_len : nat)
  (data : list JSValue) : JSValue * World :=
  let bound := take data_len data in
  let w1 := dup_values w ctx bound in
  let o := {| class_id := JS_CLASS_C_FUNCTION_DATA; extensible := true;
              props := {[ "length"%string := {| prop_value := JS_INT length;
                                                   prop_writable := false |} ]};
              opaque := 0;
              cfunc := Some {| cf_length := length; cf_magic := magic; cf_data := bound |};
              to_number := NumNaN |} in
  let (p, w2) := alloc_cell {| ref_count := 1; payload := PObject o |} w1 in
  (JS_OBJECT p, w2).

(** ** Collection pass *)

Definition count_refs_to (p : Z) (vs : list JSValue) : Z :=
  Z.of_nat (length (filter (λ v, ref_addr v = Some p) vs)).

Definition cell_children (c : Cell) : list JSValue :=
  match payload c with
  | PObject o => obj_children o
  | PString _ => []
  end.

(** Modelled from the spec: the references to [p] held by cells of the
    heap. *)
Definition incoming (h : gmap Z Cell) (p : Z) : Z :=
  map_fold (λ _ c n, n + count_refs_to p (cell_children c)) 0 h.

Definition is_object_cell (c : Cell) : bool :=
  match payload c with PObject _ => true | PString _ => false end.

(** Modelled from the spec: the roots of a collection pass: cells referenced
    from outside the heap, and strings, which the collector does not visit. *)
Definition gc_roots (h : gmap Z Cell) : list Z :=
  (map_to_list (filter (λ kc, negb (is_object_cell kc.2) ∨ incoming h kc.1 < ref_count kc.2) h)).*1.

Fixpoint gc_scan (fuel : nat) (h : gmap Z Cell) (frontier : list Z) (marked : gset Z) : gset Z :=
  match fuel with
  | O => marked
  | S fuel' =>
      match frontier with
      | [] => marked
      | p :: rest =>
          if decide (p ∈ marked) then gc_scan fuel' h rest marked
          else
            let kids := match h !! p with
                        | Some c => omap ref_addr (cell_children c)
                        | None => []
                        end in
            gc_scan fuel' h (kids ++ rest) ({[p]} ∪ marked)
      end
  end.

(** Modelled from the spec: [JS_RunGC] (spec 4.3: force an immediate
    collection pass): cells that no reference from outside the heap reaches
    are finalized and removed; the references they held to surviving cells
    are released. *)
Definition JS_RunGC (w : World) (rt : Z) : World :=
  let h := heap w in
  let live := gc_scan (S (heap_refs h + size h)) h (gc_roots h) ∅ in
  let garbage := filter (λ kc, kc.1 ∉ live) h in
  let w1 := map_fold (λ p c acc,
                        match payload c with
                        | PObject o => run_class_finalizer rt o (JS_OBJECT p) acc
                        | PString _ => acc
                        end) w garbage in
  let w2 := set_heap (filter (λ kc, kc.1 ∈ live) (heap w1)) w1 in
  let outgoing :=
    filter (λ v, from_option (λ q, bool_decide (q ∈ live)) false (ref_addr v) = true)
           (concat (cell_children <$> (map_to_list garbage).*2)) in
  free_values (S (heap_refs (heap w2) + length outgoing)) rt outgoing w2.

(** ** The scalar coercions of the engine *)

(** The coercions of the engine (spec 6: scalar coercion primitives) run the
    conversion protocol of the script language and may call into script
    code.  The binding is written against their C signature only, so they
    are parameters here: each returns the result code, the value it stored
    through its out-parameter, and the new world.  [float64] stands for the C
    type [double]. *)
Class EngineCoercions : Type := {
  float64 : Type;
  JS_ToBool : World → Z → JSValue → Z * World;
  JS_ToInt32 : World → Z → JSValue → Z * Z * World;
  JS_ToUint32 : World → Z → JSValue → Z * Z * World;
  JS_ToInt64 : World → Z → JSValue → Z * Z * World;
  JS_ToIndex : World → Z → JSValue → Z * Z * World;
  JS_ToFloat64 : World → Z → JSValue → Z * float64 * World;
  JS_ToBigInt64 : World → Z → JSValue → Z * Z * World;
  JS_ToInt64Ext : World → Z → JSValue → Z * Z * World;
  JS_ToString : World → Z → JSValue → JSValue * World
}.

(** * The binding *)

(** ** [qjs::Value] *)

Record Value : Type := {
  m_context : Z;
  m_value : JSValue
}.

(** quickjs.cpp, 5-8: the private constructor from a [JSValue] takes the
    reference it is given. *)
Definition Value_ctor (value : JSValue) (context : Z) : Value :=
  {| m_context := context; m_value := value |}.

(** quickjs.cpp, 10-13: the copy constructor. *)
Definition Value_copy (w : World) (val : Value) : Value * World :=
  let m_context := m_context val in
  let (v, w1) := JS_DupValue w m_context (m_value val) in
  ({| m_context := m_context; m_value := v |}, w1).

(** quickjs.cpp, 15-17: the destructor. *)
Definition Value_dtor (w : World) (this : Value) : World :=
  JS_FreeValue w (m_context this) (m_value this).

(** quickjs.cpp, 19-23: [operator=].  The result is the handle assigned to,
    after the assignment. *)
Definition Value_assign (w : World) (this : Value) (value : Value) : Value * World :=
  let m_context := m_context value in
  let (v, w1) := JS_DupValue w m_context (m_value value) in
  ({| m_context := m_context; m_value := v |}, w1).

(** [return Value(...)] from a function that returns [std::optional<Value>]:
    the optional copy-constructs its content from the temporary ([Value] has
    no move constructor), and the temporary is destroyed. *)
Definition optional_of_temporary (w : World) (tmp : Value) : option Value * World :=
  let (content, w1) := Value_copy w tmp in
  (Some content, Value_dtor w1 tmp).

(** quickjs.cpp, 65-70. *)
Definition Value_has_property (w : World) (this : Value) (prop : string) : bool :=
  let atom := JS_NewAtomLen (c_str prop) (String.length prop) in
  let result := JS_HasProperty w (m_context this) (m_value this) atom in
  negb (result =? 0).

(** quickjs.cpp, 25-31. *)
Definition Value_get_property (w : World) (this : Value) (prop : string)
  : option Value * World :=
  if negb (Value_has_property w this prop) then (None, w)
  else
    let (value, w1) := JS_GetPropertyStr w (m_context this) (m_value this) (c_str prop) in
    optional_of_temporary w1 (Value_ctor value (m_context this)).

(** quickjs.cpp, 72-74. *)
Definition Value_is_extensible (w : World) (this : Value) : bool :=
  negb (JS_IsExtensible w (m_context this) (m_value this) =? 0).

(** quickjs.cpp, 76-78. *)
Definition Value_prevent_extensions (w : World) (this : Value) : World :=
  JS_PreventExtensions w (m_context this) (m_value this).

(** quickjs.cpp, 49-55. *)
Definition Value_set_property (w : World) (this : Value) (prop : string) (val : Value)
  : bool * World :=
  if negb (Value_is_extensible w this) then (false, w)
  else
    let w1 := (JS_SetPropertyStr w (m_context this) (m_value this) (c_str prop) (m_value val)).2 in
    (true, w1).

(** quickjs.cpp, 57-63. *)
Definition Value_set_property_idx (w : World) (this : Value) (idx : Z) (val : Value)
  : bool * World :=
  if negb (Value_is_extensible w this) then (false, w)
  else
    let w1 := (JS_SetPropertyUint32 w (m_context this) (m_value this) idx (m_value val)).2 in
    (true, w1).

(** ** [qjs::Exception] and [qjs::Result] *)

Record Exception : Type := {
  e_m_value : Value
}.

(** quickjs.cpp, 117: [Exception(Value value) : m_value(value)].  The member
    is a copy of the parameter, and the parameter is destroyed when the
    constructor call is over. *)
Definition Exception_ctor (w : World) (value : Value) : Exception * World :=
  let (m, w1) := Value_copy w value in
  ({| e_m_value := m |}, Value_dtor w1 value).

(** quickjs.hpp, 54-55: the defaulted copy constructor and destructor. *)
Definition Exception_copy (w : World) (e : Exception) : Exception * World :=
  let (m, w1) := Value_copy w (e_m_value e) in
  ({| e_m_value := m |}, w1).

Definition Exception_dtor (w : World) (e : Exception) : World :=
  Value_dtor w (e_m_value e).

(** quickjs.hpp, 61-62: [Result<T>] is [std::variant<T, Exception>]. *)
Inductive Result (T : Type) : Type :=
  | Result_value (t : T)
  | Result_exception (e : Exception).

Arguments Result_value {T} t.
Arguments Result_exception {T} e.

(** [return get_exception()] from a function that returns [Result<T>]: the
    variant copy-constructs its [Exception] from the temporary, and the
    temporary is destroyed. *)
Definition Result_of_exception {T : Type} (w : World) (tmp : Exception) : Result T * World :=
  let (e, w1) := Exception_copy w tmp in
  (Result_exception e, Exception_dtor w1 tmp).

(** ** [qjs::Runtime_Ref] and [qjs::Runtime] *)

Record Runtime_Ref : Type := {
  m_runtime : Z
}.

Record Runtime : Type := {
  m_ref : Runtime_Ref
}.

(** quickjs.cpp, 159. *)
Definition Runtime_ctor (w : World) : Runtime * World :=
  let (rt, w1) := JS_NewRuntime w in
  ({| m_ref := {| m_runtime := rt |} |}, w1).

(** quickjs.hpp, 105: [Runtime(Runtime&&) = default] moves member by
    member; [Runtime_Ref] is a pointer with a defaulted copy constructor, so
    the new object gets the pointer and the source keeps it.  The result is
    the new object and the moved-from one. *)
Definition Runtime_move (src : Runtime) : Runtime * Runtime :=
  ({| m_ref := {| m_runtime := m_runtime (m_ref src) |} |}, src).

(** quickjs.cpp, 161-163. *)
Definition Runtime_dtor (w : World) (this : Runtime) : World :=
  JS_FreeRuntime w (m_runtime (m_ref this)).

(** quickjs.cpp, 151-153. *)
Definition Runtime_Ref_run_gc (w : World) (this : Runtime_Ref) : World :=
  JS_RunGC w (m_runtime this).

(** ** [qjs::Context] *)

Record Context : Type := {
  c_m_context : Z
}.

Definition set_closure_class (id : Z) (w : World) : World :=
  set_tls_closure_class (<[cur_thread w := id]> (tls_closure_class w)) w.

(** quickjs.cpp, 175-196: the private constructor from a [JSContext] pointer. *)
Definition Context_ctor (w : World) (ctx : Z) : Context * World :=
  let this := {| c_m_context := ctx |} in
  if closure_class w =? 0 then
    let (id, w1) := JS_NewClassID w (closure_class w) in
    let w2 := set_closure_class id w1 in
    let class_def := {| class_name := "Std_Closure_Class";
                        finalizer := Some closure_finalizer;
                        gc_mark_is_noop := true |} in
    let w3 := (JS_NewClass w2 (JS_GetRuntime w2 ctx) (closure_class w2) class_def).2 in
    (this, w3)
  else (this, w).

(** quickjs.cpp, 198: the constructor from a [Runtime_Ref]. *)
Definition Context_of_runtime (w : World) (runtime : Runtime_Ref) : Context * World :=
  let (ctx, w1) := JS_NewContext w (m_runtime runtime) in
  Context_ctor w1 ctx.

(** quickjs.cpp, 205: the copy constructor. *)
Definition Context_copy (w : World) (ctx : Context) : Context * World :=
  let (c, w1) := JS_DupContext w (c_m_context ctx) in
  Context_ctor w1 c.

(** quickjs.cpp, 207-211: the destructor. *)
Definition Context_dtor (w : World) (this : Context) : World :=
  if c_m_context this =? 0 then w else JS_FreeContext w (c_m_context this).

(** quickjs.cpp, 200-203. *)
Definition Context_get_exception (w : World) (this : Context) : Exception * World :=
  let (except, w1) := JS_GetException w (c_m_context this) in
  Exception_ctor w1 (Value_ctor except (c_m_context this)).

(** quickjs.cpp, 213-215. *)
Definition Context_get_runtime (w : World) (this : Context) : Runtime_Ref :=
  {| m_runtime := JS_GetRuntime w (c_m_context this) |}.

(** quickjs.cpp, 256-259. *)
Definition Context_new_int32 (w : World) (this : Context) (val : Z) : Value * World :=
  (Value_ctor (JS_INT val) (c_m_context this), w).

(** quickjs.cpp, 388-391. *)
Definition Context_new_object (w : World) (this : Context) : Value * World :=
  let (value, w1) := JS_NewObject w (c_m_context this) in
  (Value_ctor value (c_m_context this), w1).

(** quickjs.cpp, 355-358. *)
Definition Context_new_string (w : World) (this : Context) (str : string) : Value * World :=
  let (value, w1) := JS_NewStringLen w (c_m_context this) (c_str str) (String.length str) in
  (Value_ctor value (c_m_context this), w1).

(** quickjs.cpp, 360-363. *)
Definition Context_new_atom_string (w : World) (this : Context) (str : string)
  : Value * World :=
  let (value, w1) := JS_NewAtomString w (c_m_context this) (c_str str) in
  (Value_ctor value (c_m_context this), w1).

(** ** The closure bridge *)

(** [new Function(fn)]: a copy of the closure on the host heap. *)
Definition new_Function (w : World) (fn : Function) : Z * World :=
  let ptr := next_addr w in
  (ptr, set_next_addr (ptr + 1) (set_fn_heap (<[ptr := fn]> (fn_heap w)) w)).

(** The call of the closure behind [fn] with [(ctx_, this_val_, argv_, magic)]:
    the closure runs once and returns a handle of its own to the value it
    computes.  Calling through a pointer that holds no closure is a fault. *)
Definition call_Function (w : World) (fn : Z) (ctx_ : Context) (this_val : Value)
  (argv : list Value) (magic : Z) : Value * World :=
  match fn_heap w !! fn with
  | Some f =>
      let this := m_value this_val in
      let args := m_value <$> argv in
      let w1 := log_event (EvClosureCall (fn_tag f) this args magic) w in
      let (r, w2) := JS_DupValue w1 (c_m_context ctx_) (fn_body f this args magic) in
      (Value_ctor r (c_m_context ctx_), w2)
  | None => (Value_ctor JS_UNDEFINED (c_m_context ctx_), add_fault NullCall w)
  end.

(** [argv_.push_back(Value(JS_DupValue(ctx, argv[i]), ctx))] for each
    argument: the vector copy-constructs its element from the temporary, and
    the temporary is destroyed. *)
Fixpoint push_back_args (w : World) (ctx : Z) (argv : list JSValue) : list Value * World :=
  match argv with
  | [] => ([], w)
  | a :: rest =>
      let (d, w1) := JS_DupValue w ctx a in
      let tmp := Value_ctor d ctx in
      let (elem, w2) := Value_copy w1 tmp in
      let w3 := Value_dtor w2 tmp in
      let (elems, w4) := push_back_args w3 ctx rest in
      (elem :: elems, w4)
  end.

Fixpoint destroy_values (w : World) (vs : list Value) : World :=
  match vs with
  | [] => w
  | v :: rest => destroy_values (Value_dtor w v) rest
  end.

(** quickjs.cpp, 232-243: the trampoline, the one native callback registered
    for every closure. *)
Definition trampoline (w : World) (ctx : Z) (this_val : JSValue) (argc : nat)
  (argv : list JSValue) (magic : Z) (data : list JSValue) : JSValue * World :=
  let (c, w1) := JS_DupContext w ctx in
  let (ctx_, w2) := Context_ctor w1 c in
  let (t, w3) := JS_DupValue w2 (c_m_context ctx_) this_val in
  let this_val_ := Value_ctor t (c_m_context ctx_) in
  let (argv_, w4) := push_back_args w3 (c_m_context ctx_) (take argc argv) in
  let opaque := JS_GetOpaque w4 (nth 0 data JS_UNDEFINED) (closure_class w4) in
  let fn := opaque in
  let (value, w5) := call_Function w4 fn ctx_ this_val_ argv_ magic in
  let (ret, w6) := JS_DupValue w5 (c_m_context ctx_) (m_value value) in
  let w7 := Value_dtor w6 value in
  let w8 := destroy_values w7 argv_ in
  let w9 := Value_dtor w8 this_val_ in
  let w10 := Context_dtor w9 ctx_ in
  (ret, w10).

(** Modelled from the spec: [JS_Call(ctx, func_obj, this_obj, argc, argv)]
    (spec 4.1: the callee does not consume caller-owned references, the
    call hands back a fresh reference).  A native function object is called
    through its callback, which for every function object of this binding is
    the trampoline, with the magic and the bound data of the object; calling
    anything else throws. *)
Definition JS_Call (w : World) (ctx : Z) (func_obj this_obj : JSValue) (argc : nat)
  (argv : list JSValue) : JSValue * World :=
  match lookup_object w func_obj with
  | Some {| cfunc := Some r |} => trampoline w ctx this_obj argc argv (cf_magic r) (cf_data r)
  | _ => JS_ThrowTypeError w ctx
  end.

(** quickjs.cpp, 95-103. *)
Definition Value_call (w : World) (this : Value) (this_obj : Value) (args : list Value)
  : Value * World :=
  let c_args := m_value <$> args in
  let c_argc := length c_args in
  let (value, w1) := JS_Call w (m_context this) (m_value this) (m_value this_obj) c_argc c_args in
  (Value_ctor value (m_context this), w1).

(** quickjs.cpp, 225-249.  [datav] is the [malloc]ed copy of [data]: the
    same reference, not a new one. *)
Definition Context_new_c_function (w : World) (this : Context) (fn : Function)
  (name : string) (length magic : Z) : Value * World :=
  let m_context := c_m_context this in
  let (fn_, w1) := new_Function w fn in
  let (data, w2) := JS_NewObjectClass w1 m_context (closure_class w1) in
  let datav := [data] in
  let w3 := JS_SetOpaque w2 data fn_ in
  let (value, w4) := JS_NewCFunctionData w3 m_context length magic 1 datav in
  (Value_ctor value m_context, w4).

(** ** Conversions *)

Section Conversions.

Context `{EC : EngineCoercions}.

(** quickjs.cpp, 33-47. *)
Definition Value_get_property_idx (w : World) (this : Value) (idx : Z)
  : option Value * World :=
  if negb (Value_has_property w this "length") then (None, w)
  else
    let (length, w1) := Value_get_property w this "length" in
    let out_of_range :=
      match length with
      | Some _ =>
          let '(_, len, w2) := JS_ToUint32 w1 (m_context this) (m_value this) in
          (bool_decide (len ≤ idx), w2)
      | None => (false, w1)
      end in
    let w3 := out_of_range.2 in
    let destroy_length (w' : World) : World :=
      match length with Some l => Value_dtor w' l | None => w' end in
    if out_of_range.1 then (None, destroy_length w3)
    else
      let (value, w4) := JS_GetPropertyUint32 w3 (m_context this) (m_value this) idx in
      let (result, w5) := optional_of_temporary w4 (Value_ctor value (m_context this)) in
      (result, destroy_length w5).

(** quickjs.cpp, 276-283. *)
Definition Context_to_bool (w : World) (this : Context) (val : Value)
  : Result bool * World :=
  let (result, w1) := JS_ToBool w (c_m_context this) (m_value val) in
  if result =? -1 then
    let (e, w2) := Context_get_exception w1 this in
    Result_of_exception w2 e
  else (Result_value (negb (result =? 0)), w1).

(** quickjs.cpp, 285-293. *)
Definition Context_to_int32 (w : World) (this : Context) (val : Value)
  : Result Z * World :=
  let '(result, value, w1) := JS_ToInt32 w (c_m_context this) (m_value val) in
  if result =? -1 then
    let (e, w2) := Context_get_exception w1 this in
    Result_of_exception w2 e
  else (Result_value value, w1).

(** quickjs.cpp, 295-303. *)
Definition Context_to_uint32 (w : World) (this : Context) (val : Value)
  : Result Z * World :=
  let '(result, value, w1) := JS_ToUint32 w (c_m_context this) (m_value val) in
  if result =? -1 then
    let (e, w2) := Context_get_exception w1 this in
    Result_of_exception w2 e
  else (Result_value value, w1).

(** quickjs.cpp, 305-313. *)
Definition Context_to_int64 (w : World) (this : Context) (val : Value)
  : Result Z * World :=
  let '(result, value, w1) := JS_ToInt64 w (c_m_context this) (m_value val) in
  if result =? -1 then
    let (e, w2) := Context_get_exception w1 this in
    Result_of_exception w2 e
  else (Result_value value, w1).

(** quickjs.cpp, 315-323. *)
Definition Context_to_index (w : World) (this : Context) (val : Value)
  : Result Z * World :=
  let '(result, value, w1) := JS_ToIndex w (c_m_context this) (m_value val) in
  if result =? -1 then
    let (e, w2) := Context_get_exception w1 this in
    Result_of_exception w2 e
  else (Result_value value, w1).

(** quickjs.cpp, 325-333. *)
Definition Context_to_float64 (w : World) (this : Context) (val : Value)
  : Result float64 * World :=
  let '(result, value, w1) := JS_ToFloat64 w (c_m_context this) (m_value val) in
  if result =? -1 then
    let (e, w2) := Context_get_exception w1 this in
    Result_of_exception w2 e
  else (Result_value value, w1).

(** quickjs.cpp, 335-343. *)
Definition Context_to_bigint64 (w : World) (this : Context) (val : Value)
  : Result Z * World :=
  let '(result, value, w1) := JS_ToBigInt64 w (c_m_context this) (m_value val) in
  if result =? -1 then
    let (e, w2) := Context_get_exception w1 this in
    Result_of_exception w2 e
  else (Result_value value, w1).

(** quickjs.cpp, 345-353. *)
Definition Context_to_int64_ext (w : World) (this : Context) (val : Value)
  : Result Z * World :=
  let '(result, value, w1) := JS_ToInt64Ext w (c_m_context this) (m_value val) in
  if result =? -1 then
    let (e, w2) := Context_get_exception w1 this in
    Result_of_exception w2 e
  else (Result_value value, w1).

(** Modelled from the spec: [JS_ToCStringLen(ctx, plen, val)] (spec 4.4): a
    view of the UTF-8 bytes of the string [val], or of its conversion to a
    string, with their number stored in [*plen]; NULL, with 0 stored in
    [*plen], when the conversion fails. *)
Definition JS_ToCStringLen (w : World) (ctx : Z) (val : JSValue)
  : option CString * nat * World :=
  let (sv, w1) := match val with
                  | JS_STRING _ => JS_DupValue w ctx val
                  | _ => JS_ToString w ctx val
                  end in
  match sv with
  | JS_STRING p =>
      match heap w1 !! p with
      | Some {| payload := PString units |} =>
          let bytes := string_of_bytes (units_to_utf8 units) in
          (Some {| cs_owner := sv; cs_chars := c_str bytes |}, String.length bytes, w1)
      | _ => (None, 0%nat, w1)
      end
  | _ => (None, 0%nat, w1)
  end.

(** Modelled from the spec: [JS_FreeCString]: releases the view. *)
Definition JS_FreeCString (w : World) (ctx : Z) (ptr : option CString) : World :=
  match ptr with
  | Some cs => JS_FreeValue w ctx (cs_owner cs)
  | None => w
  end.

(** quickjs.cpp, 375-381.  [std::string str(chars, len)] copies the [len]
    bytes at [chars].  When the conversion fails, [chars] is NULL and the
    engine has stored 0 in [len]: the string built from no bytes is empty,
    and it is returned like any other. *)
Definition Context_to_std_string (w : World) (this : Context) (val : Value)
  : string * World :=
  let '(chars, len, w1) := JS_ToCStringLen w (c_m_context this) (m_value val) in
  let str := match chars with
             | Some cs => read_bytes (cs_chars cs) len
             | None => EmptyString
             end in
  let w2 := JS_FreeCString w1 (c_m_context this) chars in
  (str, w2).

End Conversions.

(** ** An engine to run the binding on

    The coercions on the values of the model.  Numbers, booleans, [null] and
    [undefined] convert by the rules of the script language; an object
    converts to what its [to_number] records; a string converts to what
    [string_to_number] makes of its code units.  A conversion that throws leaves a
    fresh error object as the pending exception, stores 0 and returns -1. *)

Definition wrap_int32 (n : Z) : Z := (n + 2 ^ 31) mod 2 ^ 32 - 2 ^ 31.
Definition wrap_uint32 (n : Z) : Z := n mod 2 ^ 32.
Definition wrap_int64 (n : Z) : Z := (n + 2 ^ 63) mod 2 ^ 64 - 2 ^ 63.
Definition MAX_SAFE_INTEGER : Z := 2 ^ 53 - 1.

Inductive fragment_double : Type :=
  | DNaN
  | DInt (n : Z).

Section FragmentEngine.

Variable string_to_number : list Z → ToNumberOutcome.

(** [None] for [JS_EXCEPTION], which every conversion passes on. *)
Definition fragment_ToNumber (w : World) (v : JSValue) : option ToNumberOutcome :=
  match v with
  | JS_INT n => Some (NumInt n)
  | JS_BOOL b => Some (NumInt (if b then 1 else 0))
  | JS_NULL => Some (NumInt 0)
  | JS_UNDEFINED => Some NumNaN
  | JS_EXCEPTION => None
  | JS_STRING p =>
      match heap w !! p with
      | Some {| payload := PString units |} => Some (string_to_number units)
      | _ => Some NumNaN
      end
  | JS_OBJECT _ =>
      match lookup_object w v with
      | Some o => Some (to_number o)
      | None => Some NumNaN
      end
  end.

Definition fragment_to_integer (wrap : Z → Z) (w : World) (ctx : Z) (v : JSValue)
  : Z * Z * World :=
  match fragment_ToNumber w v with
  | Some (NumInt n) => (0, wrap n, w)
  | Some NumNaN => (0, 0, w)
  | Some NumThrows => (-1, 0, (JS_ThrowTypeError w ctx).2)
  | None => (-1, 0, w)
  end.

Definition fragment_ToIndex (w : World) (ctx : Z) (v : JSValue) : Z * Z * World :=
  match fragment_ToNumber w v with
  | Some (NumInt n) =>
      if decide (0 ≤ n ≤ MAX_SAFE_INTEGER) then (0, n, w)
      else (-1, 0, (JS_ThrowTypeError w ctx).2)
  | Some NumNaN => (0, 0, w)
  | Some NumThrows => (-1, 0, (JS_ThrowTypeError w ctx).2)
  | None => (-1, 0, w)
  end.

Definition fragment_ToFloat64 (w : World) (ctx : Z) (v : JSValue)
  : Z * fragment_double * World :=
  match fragment_ToNumber w v with
  | Some (NumInt n) => (0, DInt n, w)
  | Some NumNaN => (0, DNaN, w)
  | Some NumThrows => (-1, DNaN, (JS_ThrowTypeError w ctx).2)
  | None => (-1, DNaN, w)
  end.

Definition fragment_ToBool (w : World) (ctx : Z) (v : JSValue) : Z * World :=
  match v with
  | JS_EXCEPTION => (-1, w)
  | JS_INT n => (if n =? 0 then 0 else 1, w)
  | JS_BOOL b => (if b then 1 else 0, w)
  | JS_NULL | JS_UNDEFINED => (0, w)
  | JS_STRING p =>
      match heap w !! p with
      | Some {| payload := PString [] |} => (0, w)
      | _ => (1, w)
      end
  | JS_OBJECT _ => (1, w)
  end.

(** No value of the model is a big integer: a boolean and a string that
    spells an integer convert, everything else throws. *)
Definition fragment_ToBigInt64 (w : World) (ctx : Z) (v : JSValue) : Z * Z * World :=
  match v with
  | JS_EXCEPTION => (-1, 0, w)
  | JS_BOOL b => (0, if b then 1 else 0, w)
  | JS_STRING p =>
      match heap w !! p with
      | Some {| payload := PString units |} =>
          match string_to_number units with
          | NumInt n => (0, wrap_int64 n, w)
          | _ => (-1, 0, (JS_ThrowTypeError w ctx).2)
          end
      | _ => (-1, 0, (JS_ThrowTypeError w ctx).2)
      end
  | _ => (-1, 0, (JS_ThrowTypeError w ctx).2)
  end.

Definition fragment_ToString (w : World) (ctx : Z) (v : JSValue) : JSValue * World :=
  let new_string (s : string) :=
    let (p, w1) := alloc_cell {| ref_count := 1; payload := PString (bytes_of_string s) |} w in
    (JS_STRING p, w1) in
  match v with
  | JS_EXCEPTION => (JS_EXCEPTION, w)
  | JS_STRING _ => JS_DupValue w ctx v
  | JS_INT n => new_string (pretty n)
  | JS_BOOL b => new_string (if b then "true" else "false")
  | JS_NULL => new_string "null"
  | JS_UNDEFINED => new_string "undefined"
  | JS_OBJECT _ =>
      match to_number <$> lookup_object w v with
      | Some NumThrows => JS_ThrowTypeError w ctx
      | _ => new_string "[object Object]"
      end
  end.

#[local] Instance fragment_engine : EngineCoercions := {|
  float64 := fragment_double;
  JS_ToBool := fragment_ToBool;
  JS_ToInt32 := fragment_to_integer wrap_int32;
  JS_ToUint32 := fragment_to_integer wrap_uint32;
  JS_ToInt64 := fragment_to_integer wrap_int64;
  JS_ToIndex := fragment_ToIndex;
  JS_ToFloat64 := fragment_ToFloat64;
  JS_ToBigInt64 := fragment_ToBigInt64;
  JS_ToInt64Ext := fragment_to_integer wrap_int64;
  JS_ToString := fragment_ToString
|}.

End FragmentEngine.

(** The engine of the examples: no string of theirs spells a number. *)
Definition example_engine : EngineCoercions := fragment_engine (λ _, NumNaN).

(** ** Calling methods, conversion to a string *)

(** Modelled from the spec: [JS_Invoke(ctx, this_val, atom, argc, argv)]
    (spec 4.1: invoke-method-by-name): the property is read, called with
    [this_val] as receiver, and released. *)
Definition JS_Invoke (w : World) (ctx : Z) (this_val : JSValue) (atom : string) (argc : nat)
  (argv : list JSValue) : JSValue * World :=
  let (func_obj, w1) := JS_GetPropertyKey w ctx this_val atom in
  match func_obj with
  | JS_EXCEPTION => (func_obj, w1)
  | _ =>
      let (ret, w2) := JS_Call w1 ctx func_obj this_val argc argv in
      (ret, JS_FreeValue w2 ctx func_obj)
  end.

(** quickjs.cpp, 105-115. *)
Definition Value_invoke (w : World) (this : Value) (prop : string) (args : list Value)
  : Value * World :=
  let c_args := m_value <$> args in
  let c_argc := length c_args in
  let atom := JS_NewAtomLen (c_str prop) (String.length prop) in
  let (value, w1) := JS_Invoke w (m_context this) (m_value this) atom c_argc c_args in
  (Value_ctor value (m_context this), w1).

Section StringConversion.

Context `{EC : EngineCoercions}.

(** quickjs.cpp, 365-368. *)
Definition Context_to_string (w : World) (this : Context) (val : Value) : Value * World :=
  let (value, w1) := JS_ToString w (c_m_context this) (m_value val) in
  (Value_ctor value (c_m_context this), w1).

End StringConversion.

(** * Statements

    The predicates, the schedules and the example worlds that the theorems
    below are stated with. *)

(** The parts of the world that reference counting never touches. *)
Definition same_tables (w w' : World) : Prop :=
  js_class_id_alloc w = js_class_id_alloc w' ∧
  runtimes w = runtimes w' ∧
  classes w = classes w' ∧
  exceptions w = exceptions w' ∧
  contexts w = contexts w' ∧
  next_addr w = next_addr w' ∧
  cur_thread w = cur_thread w' ∧
  tls_closure_class w = tls_closure_class w'.

Definition is_exception {T : Type} (r : Result T) : Prop :=
  match r with
  | Result_exception _ => True
  | Result_value _ => False
  end.

(** What a conversion of the binding owes to the coercion it wraps: [code],
    [out] and [w1] are the coercion's result code, stored value and world;
    [res] is what the conversion returns. *)
Definition follows_protocol {T : Type} (this : Context) (code : Z) (out : T) (w1 : World)
  (res : Result T * World) : Prop :=
  let rt := JS_GetRuntime w1 (c_m_context this) in
  (is_exception res.1 ↔ code = -1) ∧
  (code = -1 →
     ∃ e, res.1 = Result_exception e ∧
          m_value (e_m_value e) = current_exception w1 rt ∧
          current_exception res.2 rt = JS_NULL ∧
          JS_GetRuntime res.2 (c_m_context this) = rt) ∧
  (code ≠ -1 → res = (Result_value out, w1)).

(** No zero byte among the bytes of a host string. *)
Fixpoint zero_free (s : string) : Prop :=
  match s with
  | EmptyString => True
  | String c rest => c ≠ NUL ∧ zero_free rest
  end.

(** The two public ways to build a [Context]. *)
Inductive Construction : Type :=
  | FromRuntime (runtime : Runtime_Ref)
  | CopyOf (ctx : Context).

(** Thread [step.1] builds a [Context]. *)
Definition construct_on (w : World) (step : Z * Construction) : World :=
  let w0 := set_cur_thread step.1 w in
  match step.2 with
  | FromRuntime runtime => (Context_of_runtime w0 runtime).2
  | CopyOf ctx => (Context_copy w0 ctx).2
  end.

Definition run_constructions (w : World) (sched : list (Z * Construction)) : World :=
  foldl construct_on w sched.

(** The [closure_class] variable of thread [t]. *)
Definition thread_closure_class (w : World) (t : Z) : Z :=
  default 0 (tls_closure_class w !! t).

(** The engine runtime of the [Context] that a construction builds: the
    runtime given, or the runtime of the context copied. *)
Definition runtime_of_construction (w : World) (c : Construction) : Z :=
  match c with
  | FromRuntime runtime => m_runtime runtime
  | CopyOf ctx => JS_GetRuntime w (c_m_context ctx)
  end.

(** Every class that a runtime has was registered under an id that the
    allocator has handed out already. *)
Definition class_ids_allocated (w : World) : Prop :=
  ∀ rt id def, classes w !! (rt, id) = Some def → id < js_class_id_alloc w.

Definition is_allocation_by (t : Z) (e : Event) : bool :=
  match e with
  | EvNewClassID tid _ => bool_decide (tid = t)
  | _ => false
  end.

Definition is_registration_by (t : Z) (e : Event) : bool :=
  match e with
  | EvNewClass tid _ _ _ => bool_decide (tid = t)
  | _ => false
  end.

(** The calls of [JS_NewClassID] that allocated an id, and the calls of
    [JS_NewClass], made by thread [t]. *)
Definition allocations_by (t : Z) (tr : list Event) : nat :=
  length (List.filter (is_allocation_by t) tr).

Definition registrations_by (t : Z) (tr : list Event) : nat :=
  length (List.filter (is_registration_by t) tr).

(** A program that has built a [Runtime] and a [Context] on it. *)
Definition example_setup : Runtime * Context * World :=
  let (rt, w1) := Runtime_ctor (initial_world 60) in
  let (ctx, w2) := Context_of_runtime w1 (m_ref rt) in
  (rt, ctx, w2).

Definition example_context : Context := example_setup.1.2.
Definition example_world : World := example_setup.2.

(** The object that a script makes with [Object.create(null)]: it has no
    conversion to a number. *)
Definition bare_object : Cell :=
  {| ref_count := 1;
     payload := PObject {| class_id := JS_CLASS_OBJECT; extensible := true; props := ∅;
                           opaque := 0; cfunc := None; to_number := NumThrows |} |}.

Definition world_with_bare_object : Value * World :=
  let (p, w) := alloc_cell bare_object example_world in
  (Value_ctor (JS_OBJECT p) (c_m_context example_context), w).

(** The array-like object [{length: 3, 0: 10, 1: 20, 2: 30}], built through
    the binding. *)
Definition world_with_array_like : Value * World :=
  let ctx := example_context in
  let (o, w1) := Context_new_object example_world ctx in
  let w2 := (Value_set_property w1 o "length" (Context_new_int32 w1 ctx 3).1).2 in
  let w3 := (Value_set_property_idx w2 o 0 (Context_new_int32 w2 ctx 10).1).2 in
  let w4 := (Value_set_property_idx w3 o 1 (Context_new_int32 w3 ctx 20).1).2 in
  let w5 := (Value_set_property_idx w4 o 2 (Context_new_int32 w4 ctx 30).1).2 in
  (o, w5).

(** What the property [key] of the object behind [v] holds. *)
Definition property_of (w : World) (v : JSValue) (key : string) : option JSValue :=
  lookup_object w v ≫= λ o, prop_value <$> props o !! key.

Definition ref_count_of (w : World) (v : JSValue) : option Z :=
  ref_addr v ≫= λ p, ref_count <$> heap w !! p.

(** A closure that returns its first argument. *)
Definition first_argument : Function :=
  {| fn_tag := 7; fn_body := λ _ args _, nth 0 args JS_UNDEFINED |}.

(** The handles [h] and [val] own the references they hold: the object of
    [h] is referenced from outside the heap, once more when [val] is a handle
    of the same object. *)
Definition handles_own_references (w : World) (h val : Value) : Prop :=
  ∀ p c, m_value h = JS_OBJECT p → heap w !! p = Some c →
         incoming (heap w) p + count_refs_to p [m_value val] < ref_count c.

(** The object behind [v] has no property [key], or one that can be
    written. *)
Definition new_or_writable (w : World) (v : JSValue) (key : string) : Prop :=
  match lookup_object w v ≫= λ o, props o !! key with
  | Some pr => prop_writable pr = true
  | None => True
  end.

(** The object behind [h] is on the heap of [w]. *)
Definition object_remains (w : World) (h : Value) : Prop :=
  is_Some (lookup_object w (m_value h)).


(** A function value registered for the closure [first_argument], of
    declared length 1. *)
Definition function_value_world : Value * World :=
  Context_new_c_function example_world example_context first_argument "f" 1 0.

(** Two fresh objects [o] and [v], each with a handle. *)
Definition world_with_two_objects : Value * Value * World :=
  let ctx := example_context in
  let (o, w1) := Context_new_object example_world ctx in
  let (v, w2) := Context_new_object w1 ctx in
  (o, v, w2).

(** Two objects [a] and [b] that hold each other, [a.k = b] and [b.x = a],
    written by [set_property], each with its handle. *)
Definition world_with_cycle : Value * Value * World :=
  let ctx := example_context in
  let (a, w1) := Context_new_object example_world ctx in
  let (b, w2) := Context_new_object w1 ctx in
  let w3 := (Value_set_property w2 a "k" b).2 in
  let w4 := (Value_set_property w3 b "x" a).2 in
  (a, b, w4).

(** The code point that a well-formed sequence of two, three or four bytes
    spells. *)
Definition code_point_2 (b0 b1 : Z) : Z := (b0 - 0xc0) * 64 + (b1 - 0x80).
Definition code_point_3 (b0 b1 b2 : Z) : Z :=
  ((b0 - 0xe0) * 64 + (b1 - 0x80)) * 64 + (b2 - 0x80).
Definition code_point_4 (b0 b1 b2 b3 : Z) : Z :=
  (((b0 - 0xf0) * 64 + (b1 - 0x80)) * 64 + (b2 - 0x80)) * 64 + (b3 - 0x80).

(** A host string of well-formed UTF-8 with a zero byte inside: the letter a,
    a zero byte, and one character each of two, three and four bytes. *)
Definition sample_text : string :=
  string_of_bytes [0x61; 0x00; 0xc3; 0xa9; 0xe2; 0x82; 0xac; 0xf0; 0x9f; 0x98; 0x80].

(** The value [v] is an immediate, or it refers to a cell that is there and
    is referenced. *)
Definition live (w : World) (v : JSValue) : Prop :=
  ∀ p, ref_addr v = Some p → ∃ c, heap w !! p = Some c ∧ 0 < ref_count c.

(** [k] references more to the cell of [v], when there is one. *)
Definition add_refs (k : Z) (v : JSValue) (w : World) : World :=
  match ref_addr v with
  | Some p =>
      match heap w !! p with
      | Some c => set_heap (<[p := with_ref_count (ref_count c + k) c]> (heap w)) w
      | None => w
      end
  | None => w
  end.

(** The function object behind [f] was made by [new_c_function] for the
    closure [fn] and the discriminant [magic], by a [Context] of the running
    thread: its bound data is a carrier of the thread's [closure_class],
    whose opaque slot points to a copy of [fn]. *)
Definition registered_closure (w : World) (f : JSValue) (fn : Function) (magic : Z) : Prop :=
  ∃ o r carrier,
    lookup_object w f = Some o ∧ cfunc o = Some r ∧ cf_magic r = magic ∧
    lookup_object w (nth 0 (cf_data r) JS_UNDEFINED) = Some carrier ∧
    class_id carrier = closure_class w ∧
    fn_heap w !! opaque carrier = Some fn.


(** The context behind [ctx] is there and is referenced. *)
Definition live_context (w : World) (ctx : Z) : Prop :=
  ctx ≠ 0 ∧ ∃ c, contexts w !! ctx = Some c ∧ 0 < ctx_ref_count c.

(** The function value of [function_value_world] and a receiver object, with
    a handle each. *)
Definition world_with_function_and_receiver : Value * Value * World :=
  let (f, w1) := function_value_world in
  let (this, w2) := Context_new_object w1 example_context in
  (f, this, w2).


(** A second [Runtime], built on the thread of [example_world]. *)
Definition world_with_second_runtime : Runtime * World :=
  Runtime_ctor example_world.


(** A name with a zero byte in the middle. *)
Definition name_with_zero_byte : string := ("a" +:+ String NUL "b")%string.

(** The string value behind [v] is a string cell that is referenced. *)
Definition string_cell (w : World) (v : JSValue) (units : list Z) : Prop :=
  ∃ p n, v = JS_STRING p ∧ 0 < n ∧
         heap w !! p = Some {| ref_count := n; payload := PString units |}.

(** [n] copies of the handle [h], made one after the other by the copy
    constructor. *)
Fixpoint copy_times (n : nat) (w : World) (h : Value) : list Value * World :=
  match n with
  | O => ([], w)
  | S n' =>
      let (c, w1) := Value_copy w h in
      let (cs, w2) := copy_times n' w1 h in
      (c :: cs, w2)
  end.

(** The receiver of [world_with_function_and_receiver] with the function
    value as its method [m]. *)
Definition world_with_method : Value * World :=
  let '(f, this, w) := world_with_function_and_receiver in
  (this, (Value_set_property w this "m" f).2).


(** * Properties *)

(** ** What releasing and duplicating references leave alone *)

Lemma same_tables_refl w : same_tables w w.
Proof. by repeat split. Qed.

Lemma same_tables_trans w1 w2 w3 :
  same_tables w1 w2 → same_tables w2 w3 → same_tables w1 w3.
Proof.
  unfold same_tables. intros H12 H23. destruct_and!.
  repeat split; congruence.
Qed.

Lemma same_tables_set_heap h w : same_tables w (set_heap h w).
Proof. by repeat split. Qed.

Lemma same_tables_add_fault f w : same_tables w (add_fault f w).
Proof. by repeat split. Qed.

Lemma same_tables_delete_Function ptr w : same_tables w (delete_Function ptr w).
Proof.
  unfold delete_Function. destruct (ptr =? 0); [apply same_tables_refl|].
  destruct (fn_heap w !! ptr); by repeat split.
Qed.

Lemma same_tables_run_class_finalizer rt o v w :
  same_tables w (run_class_finalizer rt o v w).
Proof.
  unfold run_class_finalizer. destruct (classes w !! (rt, class_id o)) as [[n [[]|] g]|];
    try apply same_tables_refl.
  apply same_tables_delete_Function.
Qed.

Lemma same_tables_free_values fuel rt pending w :
  same_tables w (free_values fuel rt pending w).
Proof.
  revert pending w. induction fuel as [|fuel IH]; intros [|v rest] w; simpl;
    try apply same_tables_refl; try apply same_tables_add_fault.
  destruct (ref_addr v) as [p|]; [|apply IH].
  destruct (heap w !! p) as [c|].
  - destruct (decide (ref_count c - 1 ≤ 0)).
    + destruct (payload c) as [bytes|o].
      * eapply same_tables_trans; [|apply IH]. apply same_tables_set_heap.
      * eapply same_tables_trans; [|apply IH].
        eapply same_tables_trans; [apply (same_tables_run_class_finalizer rt o v)|].
        apply same_tables_set_heap.
    + eapply same_tables_trans; [|apply IH]. apply same_tables_set_heap.
  - eapply same_tables_trans; [|apply IH]. apply same_tables_add_fault.
Qed.

Lemma same_tables_JS_FreeValue w ctx v : same_tables w (JS_FreeValue w ctx v).
Proof. apply same_tables_free_values. Qed.

Lemma same_tables_JS_DupValue w ctx v : same_tables w (JS_DupValue w ctx v).2.
Proof.
  unfold JS_DupValue. destruct (ref_addr v) as [p|]; [|apply same_tables_refl].
  destruct (heap w !! p); simpl; by repeat split.
Qed.

Lemma JS_DupValue_value w ctx v : (JS_DupValue w ctx v).1 = v.
Proof.
  unfold JS_DupValue. destruct (ref_addr v) as [p|]; [|done].
  by destruct (heap w !! p).
Qed.

Lemma same_tables_current_exception w w' rt :
  same_tables w w' → current_exception w' rt = current_exception w rt.
Proof. unfold same_tables, current_exception. intros H. destruct_and!. congruence. Qed.

Lemma same_tables_JS_GetRuntime w w' ctx :
  same_tables w w' → JS_GetRuntime w' ctx = JS_GetRuntime w ctx.
Proof. unfold same_tables, JS_GetRuntime. intros H. destruct_and!. congruence. Qed.

Lemma same_tables_Value_copy w v : same_tables w (Value_copy w v).2.
Proof.
  unfold Value_copy. pose proof (same_tables_JS_DupValue w (m_context v) (m_value v)) as H.
  by destruct (JS_DupValue w (m_context v) (m_value v)).
Qed.

Lemma Value_copy_value w v : m_value (Value_copy w v).1 = m_value v.
Proof.
  unfold Value_copy. pose proof (JS_DupValue_value w (m_context v) (m_value v)) as H.
  by destruct (JS_DupValue w (m_context v) (m_value v)).
Qed.

Lemma same_tables_Value_dtor w v : same_tables w (Value_dtor w v).
Proof. apply same_tables_JS_FreeValue. Qed.

(** ** The result protocol of the conversions *)

Lemma JS_GetException_spec w ctx :
  let rt := JS_GetRuntime w ctx in
  (JS_GetException w ctx).1 = current_exception w rt ∧
  current_exception (JS_GetException w ctx).2 rt = JS_NULL ∧
  contexts (JS_GetException w ctx).2 = contexts w.
Proof.
  unfold JS_GetException, current_exception. simpl.
  by rewrite lookup_insert_eq.
Qed.

Lemma Exception_ctor_spec w value :
  m_value (e_m_value (Exception_ctor w value).1) = m_value value ∧
  same_tables w (Exception_ctor w value).2.
Proof.
  unfold Exception_ctor.
  pose proof (Value_copy_value w value) as Hv.
  pose proof (same_tables_Value_copy w value) as Hc.
  destruct (Value_copy w value) as [m w1]. simpl in *. split; [done|].
  eapply same_tables_trans; [exact Hc|apply same_tables_Value_dtor].
Qed.

Lemma Context_get_exception_spec w this :
  let rt := JS_GetRuntime w (c_m_context this) in
  m_value (e_m_value (Context_get_exception w this).1) = current_exception w rt ∧
  current_exception (Context_get_exception w this).2 rt = JS_NULL ∧
  JS_GetRuntime (Context_get_exception w this).2 (c_m_context this) = rt.
Proof.
  intros rt. unfold Context_get_exception.
  destruct (JS_GetException_spec w (c_m_context this)) as (Hval & Hnull & Hctx).
  destruct (JS_GetException w (c_m_context this)) as [except w1]. simpl in *.
  destruct (Exception_ctor_spec w1 (Value_ctor except (c_m_context this))) as [Hm Hs].
  split; [|split].
  - rewrite Hm. simpl. exact Hval.
  - rewrite (same_tables_current_exception _ _ _ Hs). exact Hnull.
  - rewrite (same_tables_JS_GetRuntime _ _ _ Hs). unfold JS_GetRuntime. by rewrite Hctx.
Qed.

Lemma Result_of_exception_spec {T : Type} w tmp :
  ∃ e, (Result_of_exception (T := T) w tmp).1 = Result_exception e ∧
       m_value (e_m_value e) = m_value (e_m_value tmp) ∧
       same_tables w (Result_of_exception (T := T) w tmp).2.
Proof.
  unfold Result_of_exception, Exception_copy, Exception_dtor.
  pose proof (Value_copy_value w (e_m_value tmp)) as Hv.
  pose proof (same_tables_Value_copy w (e_m_value tmp)) as Hc.
  destruct (Value_copy w (e_m_value tmp)) as [m w1]. simpl in *.
  eexists. split; [reflexivity|]. split; [exact Hv|].
  eapply same_tables_trans; [exact Hc|apply same_tables_Value_dtor].
Qed.

(** The body shared by the eight conversions, after the coercion. *)
Lemma protocol_after_coercion {T : Type} (this : Context) (code : Z) (out : T) (w1 : World) :
  follows_protocol this code out w1
    (if code =? -1 then
       let (e, w2) := Context_get_exception w1 this in Result_of_exception w2 e
     else (Result_value out, w1)).
Proof.
  unfold follows_protocol.
  destruct (Z.eqb_spec code (-1)) as [Heq|Hne].
  - destruct (Context_get_exception_spec w1 this) as (Hval & Hnull & Hrt).
    destruct (Context_get_exception w1 this) as [e0 w2]. simpl in *.
    destruct (Result_of_exception_spec (T := T) w2 e0) as (e & Hres & Hm & Hs).
    split; [|split].
    + rewrite Hres. simpl. tauto.
    + intros _. exists e. split; [exact Hres|]. split; [congruence|]. split.
      * by rewrite (same_tables_current_exception _ _ _ Hs).
      * by rewrite (same_tables_JS_GetRuntime _ _ _ Hs).
    + done.
  - simpl. split; [tauto|]. split; [done|]. done.
Qed.

(** C4.  Each scalar conversion of [Context] ([to_bool], [to_int32],
    [to_uint32], [to_int64], [to_index], [to_float64], [to_bigint64],
    [to_int64_ext]) returns the exception case exactly when the engine
    coercion returns -1; the exception it then returns is the pending
    exception of the context's runtime as the coercion left it, and the
    pending exception is [JS_NULL] afterwards; otherwise it returns the value
    the coercion stored (for [to_bool], whether the result code is not zero). *)
Theorem conversions_follow_result_protocol `{EC : EngineCoercions}
  (w : World) (this : Context) (val : Value) :
  let ctx := c_m_context this in
  let v := m_value val in
  follows_protocol this (JS_ToBool w ctx v).1 (negb ((JS_ToBool w ctx v).1 =? 0))
    (JS_ToBool w ctx v).2 (Context_to_bool w this val) ∧
  follows_protocol this (JS_ToInt32 w ctx v).1.1 (JS_ToInt32 w ctx v).1.2
    (JS_ToInt32 w ctx v).2 (Context_to_int32 w this val) ∧
  follows_protocol this (JS_ToUint32 w ctx v).1.1 (JS_ToUint32 w ctx v).1.2
    (JS_ToUint32 w ctx v).2 (Context_to_uint32 w this val) ∧
  follows_protocol this (JS_ToInt64 w ctx v).1.1 (JS_ToInt64 w ctx v).1.2
    (JS_ToInt64 w ctx v).2 (Context_to_int64 w this val) ∧
  follows_protocol this (JS_ToIndex w ctx v).1.1 (JS_ToIndex w ctx v).1.2
    (JS_ToIndex w ctx v).2 (Context_to_index w this val) ∧
  follows_protocol this (JS_ToFloat64 w ctx v).1.1 (JS_ToFloat64 w ctx v).1.2
    (JS_ToFloat64 w ctx v).2 (Context_to_float64 w this val) ∧
  follows_protocol this (JS_ToBigInt64 w ctx v).1.1 (JS_ToBigInt64 w ctx v).1.2
    (JS_ToBigInt64 w ctx v).2 (Context_to_bigint64 w this val) ∧
  follows_protocol this (JS_ToInt64Ext w ctx v).1.1 (JS_ToInt64Ext w ctx v).1.2
    (JS_ToInt64Ext w ctx v).2 (Context_to_int64_ext w this val).
Proof.
  intros ctx v.
  unfold Context_to_bool, Context_to_int32, Context_to_uint32, Context_to_int64,
    Context_to_index, Context_to_float64, Context_to_bigint64, Context_to_int64_ext.
  fold ctx v.
  destruct (JS_ToBool w ctx v) as [c0 w0].
  destruct (JS_ToInt32 w ctx v) as [[c1 o1] w1].
  destruct (JS_ToUint32 w ctx v) as [[c2 o2] w2].
  destruct (JS_ToInt64 w ctx v) as [[c3 o3] w3].
  destruct (JS_ToIndex w ctx v) as [[c4 o4] w4].
  destruct (JS_ToFloat64 w ctx v) as [[c5 o5] w5].
  destruct (JS_ToBigInt64 w ctx v) as [[c6 o6] w6].
  destruct (JS_ToInt64Ext w ctx v) as [[c7 o7] w7].
  simpl fst; simpl snd.
  repeat split; apply protocol_after_coercion.
Qed.

(** ** One duplication, one release *)

Lemma free_values_nil fuel rt w : free_values fuel rt [] w = w.
Proof. by destruct fuel. Qed.

Lemma set_heap_same w : set_heap (heap w) w = w.
Proof. by destruct w. Qed.

Lemma set_heap_set_heap h h' w : set_heap h (set_heap h' w) = set_heap h w.
Proof. done. Qed.

Lemma with_ref_count_restore c :
  with_ref_count (ref_count c + 1 - 1) (with_ref_count (ref_count c + 1) c) = c.
Proof.
  destruct c as [n pl]. unfold with_ref_count. simpl. f_equal. lia.
Qed.

(** Releasing a value that holds no reference does nothing. *)
Lemma JS_FreeValue_immediate w ctx v : ref_addr v = None → JS_FreeValue w ctx v = w.
Proof.
  intros H. unfold JS_FreeValue. simpl. rewrite H. apply free_values_nil.
Qed.

(** A duplication followed by a release leaves the world as it was, when the
    cell is there and is referenced. *)
Lemma JS_FreeValue_JS_DupValue w ctx v :
  (∀ p, ref_addr v = Some p → ∃ c, heap w !! p = Some c ∧ 0 < ref_count c) →
  JS_FreeValue (JS_DupValue w ctx v).2 ctx v = w.
Proof.
  intros Hlive. unfold JS_DupValue.
  destruct (ref_addr v) as [p|] eqn:Hp; [|by apply JS_FreeValue_immediate].
  destruct (Hlive p eq_refl) as (c & Hc & Hpos). rewrite Hc. simpl.
  unfold JS_FreeValue. cbn [free_values]. rewrite Hp.
  cbn [heap set_heap]. rewrite lookup_insert_eq.
  destruct (decide (ref_count (with_ref_count (ref_count c + 1) c) - 1 ≤ 0)) as [Hle|_].
  { simpl in Hle. lia. }
  rewrite free_values_nil, set_heap_set_heap, insert_insert_eq.
  cbn [ref_count with_ref_count]. rewrite with_ref_count_restore.
  rewrite insert_id by done. apply set_heap_same.
Qed.

(** A copy of a handle followed by its destruction leaves the world as it
    was. *)
Lemma Value_dtor_Value_copy w h :
  (∀ p, ref_addr (m_value h) = Some p → ∃ c, heap w !! p = Some c ∧ 0 < ref_count c) →
  Value_dtor (Value_copy w h).2 (Value_copy w h).1 = w.
Proof.
  intros Hlive. unfold Value_copy, Value_dtor.
  pose proof (JS_FreeValue_JS_DupValue w (m_context h) (m_value h) Hlive) as H.
  pose proof (JS_DupValue_value w (m_context h) (m_value h)) as Hv.
  destruct (JS_DupValue w (m_context h) (m_value h)) as [v w1]. simpl in *.
  by subst v.
Qed.

(** ** Strings *)

Lemma read_bytes_c_str s t : read_bytes (s +:+ t) (String.length s) = s.
Proof. induction s as [|c s IH]; simpl; [by destruct t|by rewrite IH]. Qed.

Lemma read_c_string_c_str s : zero_free s → read_c_string (c_str s) = s.
Proof.
  unfold c_str. induction s as [|c s IH]; simpl.
  - intros _. by destruct (decide (NUL = NUL)).
  - intros [Hc Hs]. destruct (decide (c = NUL)); [done|]. by rewrite IH.
Qed.

Lemma ascii_of_byte_of_ascii c : ascii_of_byte (byte_of_ascii c) = c.
Proof.
  unfold ascii_of_byte, byte_of_ascii. rewrite N2Z.id. apply Ascii.ascii_N_embedding.
Qed.

Lemma string_of_bytes_of_string s : string_of_bytes (bytes_of_string s) = s.
Proof.
  unfold string_of_bytes, bytes_of_string.
  rewrite <- list_fmap_compose.
  rewrite (list_fmap_ext _ id (String.list_ascii_of_string s))
    by (intros; apply ascii_of_byte_of_ascii).
  rewrite list_fmap_id. apply String.string_of_list_ascii_of_string.
Qed.

(** Bit operations as arithmetic. *)
Lemma lor_shift_add x y k : 0 ≤ k → 0 ≤ y < 2 ^ k → Z.lor (x * 2 ^ k) y = x * 2 ^ k + y.
Proof.
  intros Hk Hy. symmetry. apply Z.add_nocarry_lor. apply Z.bits_inj'. intros n Hn.
  rewrite Z.land_spec, Z.bits_0.
  destruct (Z.lt_ge_cases n k) as [Hlt|Hge].
  - by rewrite Z.mul_pow2_bits_low.
  - destruct (decide (y = 0)) as [->|Hy0].
    + rewrite Z.bits_0. apply andb_false_r.
    + rewrite (Z.bits_above_log2 y n); [apply andb_false_r|lia|].
      assert (Z.log2 y < k) by (apply Z.log2_lt_pow2; lia). lia.
Qed.

Lemma lor_shiftl x y k : 0 ≤ k → 0 ≤ y < 2 ^ k → Z.lor (Z.shiftl x k) y = x * 2 ^ k + y.
Proof. intros. rewrite Z.shiftl_mul_pow2 by done. by apply lor_shift_add. Qed.

Lemma lor_tag a m k : 0 ≤ k → 0 ≤ a < 2 ^ k → Z.lor a (m * 2 ^ k) = a + m * 2 ^ k.
Proof. intros. rewrite Z.lor_comm, lor_shift_add by done. lia. Qed.

Lemma lor_c0 a : 0 ≤ a < 64 → Z.lor a 0xc0 = a + 0xc0.
Proof. intros. by apply (lor_tag a 3 6). Qed.
Lemma lor_e0 a : 0 ≤ a < 32 → Z.lor a 0xe0 = a + 0xe0.
Proof. intros. by apply (lor_tag a 7 5). Qed.
Lemma lor_f0 a : 0 ≤ a < 16 → Z.lor a 0xf0 = a + 0xf0.
Proof. intros. by apply (lor_tag a 15 4). Qed.
Lemma lor_80 a : 0 ≤ a < 128 → Z.lor a 0x80 = a + 0x80.
Proof. intros. by apply (lor_tag a 1 7). Qed.

Lemma land_mask a k : 0 ≤ k → Z.land a (2 ^ k - 1) = a mod 2 ^ k.
Proof. intros. rewrite <- Z.land_ones by done. by rewrite Z.ones_equiv, <- Z.sub_1_r. Qed.

Lemma land_3f a : Z.land a 0x3f = a mod 64.
Proof. by apply (land_mask a 6). Qed.
Lemma land_1f a : Z.land a 0x1f = a mod 32.
Proof. by apply (land_mask a 5). Qed.
Lemma land_0f a : Z.land a 0xf = a mod 16.
Proof. by apply (land_mask a 4). Qed.
Lemma land_07 a : Z.land a 0x7 = a mod 8.
Proof. by apply (land_mask a 3). Qed.
Lemma land_3ff a : Z.land a 0x3ff = a mod 1024.
Proof. by apply (land_mask a 10). Qed.

Lemma shiftr_6 a : Z.shiftr a 6 = a / 64.
Proof. by rewrite Z.shiftr_div_pow2. Qed.
Lemma shiftr_10 a : Z.shiftr a 10 = a / 1024.
Proof. by rewrite Z.shiftr_div_pow2. Qed.
Lemma shiftr_12 a : Z.shiftr a 12 = a / 4096.
Proof. by rewrite Z.shiftr_div_pow2. Qed.
Lemma shiftr_18 a : Z.shiftr a 18 = a / 262144.
Proof. by rewrite Z.shiftr_div_pow2. Qed.

Lemma continuation_byte b c : 0x80 ≤ b ≤ 0xbf →
  (b <? 0x80) || (0xc0 <=? b) = false ∧
  Z.lor (Z.shiftl c 6) (Z.land b 0x3f) = c * 64 + (b - 0x80).
Proof.
  intros Hb. split.
  - apply orb_false_iff. split; [apply Z.ltb_ge|apply Z.leb_gt]; lia.
  - rewrite land_3f, (lor_shiftl c _ 6); [|done|apply Z.mod_pos_bound; lia].
    change (2 ^ 6) with 64. Z.div_mod_to_equations. lia.
Qed.

Ltac compare_bytes :=
  repeat match goal with
         | |- context [?a <? ?b] => destruct (Z.ltb_spec a b)
         | |- context [?a <=? ?b] => destruct (Z.leb_spec a b)
         end;
  cbn [andb orb negb]; first [done | exfalso; lia | idtac].

Lemma decode_2 b0 b1 p :
  0xc2 ≤ b0 ≤ 0xdf → 0x80 ≤ b1 ≤ 0xbf →
  unicode_from_utf8 (b0 :: b1 :: p) = Some (code_point_2 b0 b1, p).
Proof.
  intros H0 H1. unfold unicode_from_utf8.
  replace (b0 <? 0x80) with false by (symmetry; apply Z.ltb_ge; lia).
  replace (utf8_sequence_length b0) with (Some 1%nat)
    by (unfold utf8_sequence_length; compare_bytes).
  cbn [length Nat.ltb Nat.leb utf8_continuation utf8_first_code_mask utf8_min_code nth Nat.sub].
  destruct (continuation_byte b1 (Z.land b0 0x1f) H1) as [-> ->].
  rewrite land_1f. unfold code_point_2.
  replace (b0 mod 32 * 64 + (b1 - 0x80) <? 0x80) with false
    by (symmetry; apply Z.ltb_ge; Z.div_mod_to_equations; lia).
  do 2 f_equal. Z.div_mod_to_equations. lia.
Qed.

Lemma decode_3 b0 b1 b2 p :
  0xe0 ≤ b0 ≤ 0xef → 0x80 ≤ b1 ≤ 0xbf → 0x80 ≤ b2 ≤ 0xbf →
  0x800 ≤ code_point_3 b0 b1 b2 →
  unicode_from_utf8 (b0 :: b1 :: b2 :: p) = Some (code_point_3 b0 b1 b2, p).
Proof.
  intros H0 H1 H2 Hmin. unfold unicode_from_utf8.
  replace (b0 <? 0x80) with false by (symmetry; apply Z.ltb_ge; lia).
  replace (utf8_sequence_length b0) with (Some 2%nat)
    by (unfold utf8_sequence_length; compare_bytes).
  cbn [length Nat.ltb Nat.leb utf8_continuation utf8_first_code_mask utf8_min_code nth Nat.sub].
  destruct (continuation_byte b1 (Z.land b0 0xf) H1) as [-> ->].
  destruct (continuation_byte b2 (Z.land b0 0xf * 64 + (b1 - 0x80)) H2) as [-> ->].
  rewrite land_0f.
  assert (Hc : (b0 mod 16 * 64 + (b1 - 0x80)) * 64 + (b2 - 0x80) = code_point_3 b0 b1 b2).
  { unfold code_point_3. Z.div_mod_to_equations. lia. }
  rewrite Hc.
  replace (code_point_3 b0 b1 b2 <? 0x800) with false by (symmetry; apply Z.ltb_ge; lia).
  done.
Qed.

Lemma decode_4 b0 b1 b2 b3 p :
  0xf0 ≤ b0 ≤ 0xf7 → 0x80 ≤ b1 ≤ 0xbf → 0x80 ≤ b2 ≤ 0xbf → 0x80 ≤ b3 ≤ 0xbf →
  0x10000 ≤ code_point_4 b0 b1 b2 b3 →
  unicode_from_utf8 (b0 :: b1 :: b2 :: b3 :: p) = Some (code_point_4 b0 b1 b2 b3, p).
Proof.
  intros H0 H1 H2 H3 Hmin. unfold unicode_from_utf8.
  replace (b0 <? 0x80) with false by (symmetry; apply Z.ltb_ge; lia).
  replace (utf8_sequence_length b0) with (Some 3%nat)
    by (unfold utf8_sequence_length; compare_bytes).
  cbn [length Nat.ltb Nat.leb utf8_continuation utf8_first_code_mask utf8_min_code nth Nat.sub].
  destruct (continuation_byte b1 (Z.land b0 0x7) H1) as [-> ->].
  destruct (continuation_byte b2 (Z.land b0 0x7 * 64 + (b1 - 0x80)) H2) as [-> ->].
  destruct (continuation_byte b3 ((Z.land b0 0x7 * 64 + (b1 - 0x80)) * 64 + (b2 - 0x80)) H3)
    as [-> ->].
  rewrite land_07.
  assert (Hc : ((b0 mod 8 * 64 + (b1 - 0x80)) * 64 + (b2 - 0x80)) * 64 + (b3 - 0x80)
               = code_point_4 b0 b1 b2 b3).
  { unfold code_point_4. Z.div_mod_to_equations. lia. }
  rewrite Hc.
  replace (code_point_4 b0 b1 b2 b3 <? 0x10000) with false by (symmetry; apply Z.ltb_ge; lia).
  done.
Qed.

Lemma encode_2 b0 b1 :
  0xc2 ≤ b0 ≤ 0xdf → 0x80 ≤ b1 ≤ 0xbf →
  unicode_to_utf8 (code_point_2 b0 b1) = [b0; b1].
Proof.
  intros H0 H1. unfold unicode_to_utf8, code_point_2.
  set (c := (b0 - 0xc0) * 64 + (b1 - 0x80)).
  assert (Hc : 0x80 ≤ c < 0x800) by (subst c; lia).
  replace (c <? 0x80) with false by (symmetry; apply Z.ltb_ge; lia).
  replace (c <? 0x800) with true by (symmetry; apply Z.ltb_lt; lia).
  rewrite shiftr_6, land_3f.
  rewrite lor_c0 by (Z.div_mod_to_equations; lia).
  rewrite lor_80 by (Z.div_mod_to_equations; lia).
  subst c. f_equal; [|f_equal]; Z.div_mod_to_equations; lia.
Qed.

Lemma encode_3 b0 b1 b2 :
  0xe0 ≤ b0 ≤ 0xef → 0x80 ≤ b1 ≤ 0xbf → 0x80 ≤ b2 ≤ 0xbf →
  0x800 ≤ code_point_3 b0 b1 b2 →
  unicode_to_utf8 (code_point_3 b0 b1 b2) = [b0; b1; b2].
Proof.
  intros H0 H1 H2 Hmin. unfold unicode_to_utf8.
  set (c := code_point_3 b0 b1 b2) in *.
  assert (Hc : c = ((b0 - 0xe0) * 64 + (b1 - 0x80)) * 64 + (b2 - 0x80)) by done.
  assert (Hr : c < 0x10000) by lia.
  replace (c <? 0x80) with false by (symmetry; apply Z.ltb_ge; lia).
  replace (c <? 0x800) with false by (symmetry; apply Z.ltb_ge; lia).
  replace (c <? 0x10000) with true by (symmetry; apply Z.ltb_lt; lia).
  rewrite shiftr_12, shiftr_6, !land_3f.
  rewrite lor_e0 by (Z.div_mod_to_equations; lia).
  rewrite !lor_80 by (Z.div_mod_to_equations; lia).
  f_equal; [|f_equal; [|f_equal]]; Z.div_mod_to_equations; lia.
Qed.

Lemma encode_4 b0 b1 b2 b3 :
  0xf0 ≤ b0 ≤ 0xf7 → 0x80 ≤ b1 ≤ 0xbf → 0x80 ≤ b2 ≤ 0xbf → 0x80 ≤ b3 ≤ 0xbf →
  0x10000 ≤ code_point_4 b0 b1 b2 b3 →
  unicode_to_utf8 (code_point_4 b0 b1 b2 b3) = [b0; b1; b2; b3].
Proof.
  intros H0 H1 H2 H3 Hmin. unfold unicode_to_utf8.
  set (c := code_point_4 b0 b1 b2 b3) in *.
  assert (Hc : c = (((b0 - 0xf0) * 64 + (b1 - 0x80)) * 64 + (b2 - 0x80)) * 64 + (b3 - 0x80))
    by done.
  assert (Hr : c < 0x200000) by lia.
  replace (c <? 0x80) with false by (symmetry; apply Z.ltb_ge; lia).
  replace (c <? 0x800) with false by (symmetry; apply Z.ltb_ge; lia).
  replace (c <? 0x10000) with false by (symmetry; apply Z.ltb_ge; lia).
  replace (c <? 0x200000) with true by (symmetry; apply Z.ltb_lt; lia).
  rewrite shiftr_18, shiftr_12, shiftr_6, !land_3f.
  rewrite lor_f0 by (Z.div_mod_to_equations; lia).
  rewrite !lor_80 by (Z.div_mod_to_equations; lia).
  f_equal; [|f_equal; [|f_equal; [|f_equal]]]; Z.div_mod_to_equations; lia.
Qed.

Lemma surrogate_pair c :
  0x10000 ≤ c ≤ 0x10FFFF →
  let hi := Z.shiftr (c - 0x10000) 10 + 0xd800 in
  let lo := Z.land (c - 0x10000) 0x3ff + 0xdc00 in
  0xd800 ≤ hi < 0xdc00 ∧ 0xdc00 ≤ lo < 0xe000 ∧
  Z.lor (Z.shiftl (Z.land hi 0x3ff) 10) (Z.land lo 0x3ff) + 0x10000 = c.
Proof.
  intros Hc. cbn zeta. rewrite shiftr_10, !land_3ff.
  rewrite (lor_shiftl _ _ 10); [|done|apply Z.mod_pos_bound; lia].
  change (2 ^ 10) with 1024.
  repeat split; Z.div_mod_to_equations; lia.
Qed.

Lemma in_range_spec b lo hi : in_range b lo hi = true ↔ lo ≤ b ≤ hi.
Proof. unfold in_range. rewrite andb_true_iff, !Z.leb_le. done. Qed.

Lemma utf8_second_of_three_spec b0 b1 :
  utf8_second_of_three b0 b1 = true ↔
  (b0 = 0xe0 ∧ 0xa0 ≤ b1 ≤ 0xbf) ∨ (0xe1 ≤ b0 ≤ 0xec ∧ 0x80 ≤ b1 ≤ 0xbf) ∨
  (b0 = 0xed ∧ 0x80 ≤ b1 ≤ 0x9f) ∨ (0xee ≤ b0 ≤ 0xef ∧ 0x80 ≤ b1 ≤ 0xbf).
Proof.
  unfold utf8_second_of_three. rewrite !orb_true_iff, !andb_true_iff, !in_range_spec. lia.
Qed.

Lemma utf8_second_of_four_spec b0 b1 :
  utf8_second_of_four b0 b1 = true ↔
  (b0 = 0xf0 ∧ 0x90 ≤ b1 ≤ 0xbf) ∨ (0xf1 ≤ b0 ≤ 0xf3 ∧ 0x80 ≤ b1 ≤ 0xbf) ∨
  (b0 = 0xf4 ∧ 0x80 ≤ b1 ≤ 0x8f).
Proof.
  unfold utf8_second_of_four. rewrite !orb_true_iff, !andb_true_iff, !in_range_spec. lia.
Qed.

Lemma utf8_round_trip fuel : ∀ p,
  (length p ≤ fuel)%nat → utf8_well_formed p = true →
  units_to_utf8 (utf8_to_units fuel p) = p.
Proof.
  induction fuel as [|fuel IH]; intros [|b0 p1] Hlen Hwf; try done.
  { simpl in Hlen. lia. }
  cbn [length] in Hlen. cbn [utf8_well_formed] in Hwf. cbn [utf8_to_units].
  destruct (in_range b0 0 0x7f) eqn:H1.
  { apply in_range_spec in H1.
    replace (b0 <? 128) with true by (symmetry; apply Z.ltb_lt; lia).
    cbn [units_to_utf8].
    replace (b0 <? 0x80) with true by (symmetry; apply Z.ltb_lt; lia).
    f_equal. apply IH; [lia|done]. }
  assert (Hhigh : ¬ (0 ≤ b0 ≤ 0x7f)) by (rewrite <- in_range_spec; congruence).
  destruct p1 as [|b1 p2]; [done|]. cbn [length] in Hlen.
  destruct (in_range b0 0xc2 0xdf) eqn:H2.
  { apply in_range_spec in H2. apply andb_true_iff in Hwf as [Hb1 Hwf].
    apply in_range_spec in Hb1.
    replace (b0 <? 128) with false by (symmetry; apply Z.ltb_ge; lia).
    rewrite decode_2 by done.
    pose proof (encode_2 b0 b1 H2 Hb1) as Henc.
    set (c := code_point_2 b0 b1) in *.
    assert (Hc : 0x80 ≤ c < 0x800) by (subst c; unfold code_point_2; lia).
    replace (c <? 0x10000) with true by (symmetry; apply Z.ltb_lt; lia).
    cbn [units_to_utf8].
    replace (c <? 0x80) with false by (symmetry; apply Z.ltb_ge; lia).
    replace (0xd800 <=? c) with false by (symmetry; apply Z.leb_gt; lia).
    cbn [andb]. rewrite Henc. cbn [app]. do 2 f_equal. apply IH; [lia|done]. }
  destruct p2 as [|b2 p3]; [done|]. cbn [length] in Hlen.
  destruct (utf8_second_of_three b0 b1) eqn:H3.
  { apply utf8_second_of_three_spec in H3. apply andb_true_iff in Hwf as [Hb2 Hwf].
    apply in_range_spec in Hb2.
    assert (Hb0 : 0xe0 ≤ b0 ≤ 0xef) by lia.
    assert (Hb1 : 0x80 ≤ b1 ≤ 0xbf) by lia.
    assert (Hc : 0x800 ≤ code_point_3 b0 b1 b2 < 0x10000 ∧
                 ¬ (0xd800 ≤ code_point_3 b0 b1 b2 < 0xe000))
      by (unfold code_point_3; lia).
    replace (b0 <? 128) with false by (symmetry; apply Z.ltb_ge; lia).
    rewrite decode_3 by (done || lia).
    pose proof (encode_3 b0 b1 b2 Hb0 Hb1 Hb2 ltac:(lia)) as Henc.
    set (c := code_point_3 b0 b1 b2) in *.
    replace (c <? 0x10000) with true by (symmetry; apply Z.ltb_lt; lia).
    cbn [units_to_utf8].
    replace (c <? 0x80) with false by (symmetry; apply Z.ltb_ge; lia).
    replace ((0xd800 <=? c) && (c <? 0xdc00)) with false
      by (symmetry; apply andb_false_iff; rewrite Z.leb_gt, Z.ltb_ge; lia).
    rewrite Henc. cbn [app]. do 3 f_equal. apply IH; [lia|done]. }
  destruct p3 as [|b3 p4]; [done|]. cbn [length] in Hlen.
  apply andb_true_iff in Hwf as [Hwf Hwf4].
  apply andb_true_iff in Hwf as [Hwf Hb3]. apply andb_true_iff in Hwf as [H4 Hb2].
  apply utf8_second_of_four_spec in H4. apply in_range_spec in Hb2, Hb3.
  assert (Hb0 : 0xf0 ≤ b0 ≤ 0xf7) by lia.
  assert (Hb1 : 0x80 ≤ b1 ≤ 0xbf) by lia.
  assert (Hc : 0x10000 ≤ code_point_4 b0 b1 b2 b3 ≤ 0x10FFFF) by (unfold code_point_4; lia).
  replace (b0 <? 128) with false by (symmetry; apply Z.ltb_ge; lia).
  rewrite decode_4 by (done || lia).
  pose proof (encode_4 b0 b1 b2 b3 Hb0 Hb1 Hb2 Hb3 ltac:(lia)) as Henc.
  set (c := code_point_4 b0 b1 b2 b3) in *.
  destruct (surrogate_pair c Hc) as (Hhi & Hlo & Hpair).
  replace (c <? 0x10000) with false by (symmetry; apply Z.ltb_ge; lia).
  replace (c <=? 0x10FFFF) with true by (symmetry; apply Z.leb_le; lia).
  set (hi := Z.shiftr (c - 0x10000) 10 + 0xd800) in *.
  set (lo := Z.land (c - 0x10000) 0x3ff + 0xdc00) in *.
  cbn [units_to_utf8].
  replace (hi <? 0x80) with false by (symmetry; apply Z.ltb_ge; lia).
  replace ((0xd800 <=? hi) && (hi <? 0xdc00)) with true
    by (symmetry; apply andb_true_iff; rewrite Z.leb_le, Z.ltb_lt; lia).
  replace ((0xdc00 <=? lo) && (lo <? 0xe000)) with true
    by (symmetry; apply andb_true_iff; rewrite Z.leb_le, Z.ltb_lt; lia).
  rewrite Hpair, Henc. cbn [app]. do 4 f_equal. apply IH; [lia|done].
Qed.

(** The engine returns the bytes of well-formed UTF-8 as it was given
    them. *)
Lemma utf8_round_trip_string s :
  utf8_well_formed (bytes_of_string s) = true →
  string_of_bytes
    (units_to_utf8 (utf8_to_units (length (bytes_of_string s)) (bytes_of_string s))) = s.
Proof.
  intros Hwf. rewrite utf8_round_trip by (lia || done). apply string_of_bytes_of_string.
Qed.

(** C7, amended.  A string made by [new_string] from bytes [s] that are
    well-formed UTF-8, zero bytes included, is returned by [to_std_string]
    as [s], and the view taken in between is released: the world is as
    [new_string] left it. *)
Theorem well_formed_string_round_trip `{EC : EngineCoercions} (w : World) (this : Context)
  (s : string) :
  utf8_well_formed (bytes_of_string s) = true →
  Context_to_std_string (Context_new_string w this s).2 this (Context_new_string w this s).1
  = (s, (Context_new_string w this s).2).
Proof.
  intros Hwf.
  unfold Context_new_string, JS_NewStringLen, alloc_cell.
  unfold c_str. rewrite !read_bytes_c_str.
  set (units := utf8_to_units _ _).
  assert (Hunits : string_of_bytes (units_to_utf8 units) = s)
    by (by apply utf8_round_trip_string).
  clearbody units. cbn [fst snd].
  set (p := next_addr w).
  set (w1 := set_next_addr (p + 1) _).
  unfold Context_to_std_string, JS_ToCStringLen. cbn [m_value Value_ctor].
  assert (Hcell : heap w1 !! p = Some {| ref_count := 1; payload := PString units |}).
  { subst w1. simpl. apply lookup_insert_eq. }
  assert (Hfree : JS_FreeValue (JS_DupValue w1 (c_m_context this) (JS_STRING p)).2
                    (c_m_context this) (JS_STRING p) = w1).
  { apply JS_FreeValue_JS_DupValue. intros q [= <-]. eexists. split; [exact Hcell|]. simpl. lia. }
  revert Hfree. unfold JS_DupValue at 1 2. cbn [ref_addr]. rewrite Hcell.
  cbn [fst snd heap set_heap]. rewrite lookup_insert_eq. cbn [payload with_ref_count].
  intros Hfree. cbn [cs_chars JS_FreeCString cs_owner].
  rewrite Hunits. unfold c_str. rewrite read_bytes_c_str. by rewrite Hfree.
Qed.

Lemma well_formed_string_round_trip_witness :
  utf8_well_formed (bytes_of_string sample_text) = true ∧
  Context_to_std_string (EC := example_engine)
    (Context_new_string example_world example_context sample_text).2 example_context
    (Context_new_string example_world example_context sample_text).1
  = (sample_text, (Context_new_string example_world example_context sample_text).2).
Proof.
  split; [reflexivity|].
  apply (well_formed_string_round_trip (EC := example_engine)). reflexivity.
Defined.

(** C7, as the claim has it, on the one byte 0xFF, which is no UTF-8: the
    engine stores U+FFFD in its place, and [to_std_string] returns the three
    bytes EF BF BD. *)
Lemma stray_byte_does_not_round_trip :
  let this := example_context in
  let s := string_of_bytes [0xff] in
  let made := Context_new_string example_world this s in
  (Context_to_std_string (EC := example_engine) made.2 this made.1).1
  = string_of_bytes [0xef; 0xbf; 0xbd] ∧
  (Context_to_std_string (EC := example_engine) made.2 this made.1).1 ≠ s.
Proof.
  intros this s made. split; [vm_compute; reflexivity|].
  vm_compute. discriminate.
Qed.

(** For contrast: [new_atom_string] hands the engine a C string without a
    length, and the bytes after the first zero byte are lost. *)
Example new_atom_string_truncates :
  let w := initial_world 60 in
  let s := ("a" +:+ String NUL "b")%string in
  let (v, w1) := Context_new_atom_string w {| c_m_context := 0 |} s in
  Context_to_std_string (EC := example_engine) w1 {| c_m_context := 0 |} v
  = ("a"%string, w1).
Proof. vm_compute. reflexivity. Qed.

Example string_round_trip_embedded_zero :
  let w := initial_world 60 in
  let s := ("a" +:+ String NUL "b")%string in
  let (v, w1) := Context_new_string w {| c_m_context := 0 |} s in
  Context_to_std_string (EC := example_engine) w1 {| c_m_context := 0 |} v = (s, w1).
Proof. vm_compute. reflexivity. Qed.

(** ** Runtimes *)

(** C9.  A [Runtime] built, moved from, and destroyed together with the
    object it was moved into: the destructor of both calls [JS_FreeRuntime]
    on the one engine runtime, and the second call is a double free. *)
Theorem moved_runtime_is_freed_twice (w : World) :
  let a := (Runtime_ctor w).1 in
  let w1 := (Runtime_ctor w).2 in
  let b := (Runtime_move a).1 in
  let a' := (Runtime_move a).2 in
  let w2 := Runtime_dtor w1 b in
  let w3 := Runtime_dtor w2 a' in
  let rt := m_runtime (m_ref a) in
  m_runtime (m_ref b) = rt ∧
  m_runtime (m_ref a') = rt ∧
  trace w3 = trace w ++ [EvFreeRuntime rt; EvFreeRuntime rt] ∧
  faults w3 = faults w ++ [DoubleFreeRuntime rt].
Proof.
  unfold Runtime_ctor, Runtime_move, Runtime_dtor, JS_NewRuntime, JS_FreeRuntime. simpl.
  destruct (decide (next_addr w ∈ {[next_addr w]} ∪ runtimes w)) as [_|Hn];
    [|exfalso; apply Hn; set_solver].
  simpl.
  destruct (decide (next_addr w ∈ ({[next_addr w]} ∪ runtimes w) ∖ {[next_addr w]}))
    as [Hin|_].
  { apply elem_of_difference in Hin as [_ Hnot]. exfalso. apply Hnot.
    by apply elem_of_singleton. }
  simpl. by rewrite <- app_assoc.
Qed.

(** ** Registration of the carrier class *)

Lemma Context_ctor_registered w ctx :
  closure_class w ≠ 0 → (Context_ctor w ctx).2 = w.
Proof.
  intros H. unfold Context_ctor. by destruct (Z.eqb_spec (closure_class w) 0).
Qed.

Lemma Context_ctor_first w ctx :
  closure_class w = 0 →
  let w' := (Context_ctor w ctx).2 in
  let id := js_class_id_alloc w in
  trace w' = trace w ++ [EvNewClassID (cur_thread w) id;
                         EvNewClass (cur_thread w) (JS_GetRuntime w ctx) id "Std_Closure_Class"] ∧
  tls_closure_class w' = <[cur_thread w := id]> (tls_closure_class w) ∧
  js_class_id_alloc w' = (id + 1) mod 2 ^ 32 ∧
  cur_thread w' = cur_thread w.
Proof.
  intros H. unfold Context_ctor. rewrite H. cbn [Z.eqb].
  unfold JS_NewClassID. cbn [Z.eqb]. cbn [fst snd].
  unfold JS_NewClass, set_closure_class, closure_class. cbn.
  rewrite lookup_insert_eq. cbn.
  destruct (classes w !! _); cbn; by rewrite <- app_assoc.
Qed.

(** Building a [Context] on a thread whose [closure_class] is set calls
    neither [JS_NewClassID] nor [JS_NewClass]; on a thread whose
    [closure_class] is zero it calls each once. *)
Lemma construct_on_spec w tid c :
  let w' := construct_on w (tid, c) in
  let id := js_class_id_alloc w in
  (thread_closure_class w tid ≠ 0 →
     trace w' = trace w ∧ tls_closure_class w' = tls_closure_class w ∧
     js_class_id_alloc w' = id) ∧
  (thread_closure_class w tid = 0 →
     ∃ rt, trace w' = trace w ++ [EvNewClassID tid id;
                                  EvNewClass tid rt id "Std_Closure_Class"] ∧
           tls_closure_class w' = <[tid := id]> (tls_closure_class w) ∧
           js_class_id_alloc w' = (id + 1) mod 2 ^ 32).
Proof.
  unfold construct_on, thread_closure_class. cbn [fst snd].
  destruct c as [runtime|ctx].
  - unfold Context_of_runtime, JS_NewContext.
    set (w1 := set_next_addr _ _).
    assert (Hcc : closure_class w1 = default 0 (tls_closure_class w !! tid)) by done.
    split; intros H.
    + rewrite Context_ctor_registered by congruence. done.
    + destruct (Context_ctor_first w1 (next_addr (set_cur_thread tid w)))
        as (Ht & Htls & Hid & _); [congruence|].
      eexists. split; [exact Ht|]. by split.
  - unfold Context_copy, JS_DupContext.
    destruct (contexts (set_cur_thread tid w) !! c_m_context ctx) as [r|].
    + set (w1 := set_contexts _ _).
      assert (Hcc : closure_class w1 = default 0 (tls_closure_class w !! tid)) by done.
      split; intros H.
      * rewrite Context_ctor_registered by congruence. done.
      * destruct (Context_ctor_first w1 (c_m_context ctx)) as (Ht & Htls & Hid & _);
          [congruence|].
        eexists. split; [exact Ht|]. by split.
    + set (w1 := add_fault _ _).
      assert (Hcc : closure_class w1 = default 0 (tls_closure_class w !! tid)) by done.
      split; intros H.
      * rewrite Context_ctor_registered by congruence. done.
      * destruct (Context_ctor_first w1 (c_m_context ctx)) as (Ht & Htls & Hid & _);
          [congruence|].
        eexists. split; [exact Ht|]. by split.
Qed.

Lemma allocations_by_app t tr tr' :
  allocations_by t (tr ++ tr') = (allocations_by t tr + allocations_by t tr')%nat.
Proof. unfold allocations_by. by rewrite List.filter_app, length_app. Qed.

Lemma registrations_by_app t tr tr' :
  registrations_by t (tr ++ tr') = (registrations_by t tr + registrations_by t tr')%nat.
Proof. unfold registrations_by. by rewrite List.filter_app, length_app. Qed.

Lemma first_construction_events t tid rt id name :
  allocations_by t [EvNewClassID tid id; EvNewClass tid rt id name]
  = (if bool_decide (tid = t) then 1 else 0)%nat ∧
  registrations_by t [EvNewClassID tid id; EvNewClass tid rt id name]
  = (if bool_decide (tid = t) then 1 else 0)%nat.
Proof.
  unfold allocations_by, registrations_by. simpl. by destruct (bool_decide (tid = t)).
Qed.

(** A construction by another thread, or by a thread that has registered,
    changes nothing for thread [t]. *)
Lemma construct_on_unchanged w tid c t :
  tid ≠ t ∨ thread_closure_class w t ≠ 0 →
  let w' := construct_on w (tid, c) in
  thread_closure_class w' t = thread_closure_class w t ∧
  allocations_by t (trace w') = allocations_by t (trace w) ∧
  registrations_by t (trace w') = registrations_by t (trace w).
Proof.
  intros Hcase. destruct (construct_on_spec w tid c) as [Hset Hzero].
  destruct (decide (thread_closure_class w tid = 0)) as [H0|Hn0].
  - assert (Hne : tid ≠ t) by (destruct Hcase; congruence).
    destruct (Hzero H0) as (rt & Ht & Htls & _). cbn zeta.
    unfold thread_closure_class. rewrite Ht, Htls, lookup_insert_ne by done.
    rewrite allocations_by_app, registrations_by_app.
    destruct (first_construction_events t tid rt (js_class_id_alloc w) "Std_Closure_Class")
      as [-> ->].
    rewrite bool_decide_eq_false_2 by done. by rewrite !Nat.add_0_r.
  - destruct (Hset Hn0) as (Ht & Htls & _). cbn zeta.
    unfold thread_closure_class. by rewrite Ht, Htls.
Qed.

Lemma construct_on_alloc w tid c :
  0 < js_class_id_alloc w → js_class_id_alloc w + 1 < 2 ^ 32 →
  js_class_id_alloc w ≤ js_class_id_alloc (construct_on w (tid, c)) ≤ js_class_id_alloc w + 1.
Proof.
  intros Hpos Hlt. destruct (construct_on_spec w tid c) as [Hset Hzero].
  destruct (decide (thread_closure_class w tid = 0)) as [H0|Hn0].
  - destruct (Hzero H0) as (rt & _ & _ & ->). rewrite Z.mod_small; lia.
  - destruct (Hset Hn0) as (_ & _ & ->). lia.
Qed.

Lemma run_constructions_others t sched : ∀ w,
  t ∉ sched.*1 →
  0 < js_class_id_alloc w → js_class_id_alloc w + Z.of_nat (length sched) < 2 ^ 32 →
  let w' := run_constructions w sched in
  thread_closure_class w' t = thread_closure_class w t ∧
  allocations_by t (trace w') = allocations_by t (trace w) ∧
  registrations_by t (trace w') = registrations_by t (trace w) ∧
  0 < js_class_id_alloc w' < 2 ^ 32.
Proof.
  induction sched as [|[tid c] rest IH]; intros w Hnot Hpos Hlt; cbn zeta.
  - simpl in *. repeat split; try done; lia.
  - cbn [run_constructions foldl]. fold (run_constructions (construct_on w (tid, c)) rest).
    rewrite fmap_cons in Hnot. cbn [fst] in Hnot.
    apply not_elem_of_cons in Hnot as [Hne Hrest].
    rewrite length_cons in Hlt.
    pose proof (construct_on_alloc w tid c Hpos ltac:(lia)) as Halloc.
    destruct (construct_on_unchanged w tid c t (or_introl (not_eq_sym Hne))) as (H1 & H2 & H3).
    destruct (IH (construct_on w (tid, c)) Hrest ltac:(lia) ltac:(lia)) as (I1 & I2 & I3 & I4).
    repeat split; try congruence; lia.
Qed.

Lemma run_constructions_registered t sched : ∀ w,
  thread_closure_class w t ≠ 0 →
  let w' := run_constructions w sched in
  thread_closure_class w' t = thread_closure_class w t ∧
  allocations_by t (trace w') = allocations_by t (trace w) ∧
  registrations_by t (trace w') = registrations_by t (trace w).
Proof.
  induction sched as [|[tid c] rest IH]; intros w Hset; cbn zeta; [done|].
  cbn [run_constructions foldl]. fold (run_constructions (construct_on w (tid, c)) rest).
  destruct (construct_on_unchanged w tid c t (or_intror Hset)) as (H1 & H2 & H3).
  destruct (IH (construct_on w (tid, c)) ltac:(congruence)) as (I1 & I2 & I3).
  repeat split; congruence.
Qed.

(** The class table after the first construction of a thread: the carrier
    class is added for the runtime of the context under the id allocated,
    unless the runtime has a class of that id. *)
Lemma Context_ctor_first_classes w ctx :
  closure_class w = 0 →
  let key := (JS_GetRuntime w ctx, js_class_id_alloc w) in
  classes (Context_ctor w ctx).2
  = match classes w !! key with
    | Some _ => classes w
    | None => <[key := {| class_name := "Std_Closure_Class";
                          finalizer := Some closure_finalizer;
                          gc_mark_is_noop := true |}]> (classes w)
    end.
Proof.
  intros H. unfold Context_ctor. rewrite H. cbn [Z.eqb].
  unfold JS_NewClassID. cbn [Z.eqb]. cbn [fst snd].
  unfold JS_NewClass, set_closure_class, closure_class. cbn.
  rewrite lookup_insert_eq. cbn.
  change (JS_GetRuntime _ ctx) with (JS_GetRuntime w ctx).
  by destruct (classes w !! _).
Qed.

Lemma construct_on_first w tid c :
  thread_closure_class w tid = 0 →
  let w' := construct_on w (tid, c) in
  let id := js_class_id_alloc w in
  let rt := runtime_of_construction w c in
  trace w' = trace w ++ [EvNewClassID tid id; EvNewClass tid rt id "Std_Closure_Class"] ∧
  classes w' = match classes w !! (rt, id) with
               | Some _ => classes w
               | None => <[(rt, id) := {| class_name := "Std_Closure_Class";
                                          finalizer := Some closure_finalizer;
                                          gc_mark_is_noop := true |}]> (classes w)
               end.
Proof.
  intros Hzero. unfold construct_on, thread_closure_class in *. cbn [fst snd].
  destruct c as [runtime|ctx]; cbn [runtime_of_construction].
  - unfold Context_of_runtime, JS_NewContext.
    set (w1 := set_next_addr _ _).
    assert (Hcc : closure_class w1 = 0) by done.
    assert (Hrt : JS_GetRuntime w1 (next_addr (set_cur_thread tid w)) = m_runtime runtime).
    { unfold JS_GetRuntime, w1. cbn [contexts set_contexts set_next_addr].
      by rewrite lookup_insert_eq. }
    destruct (Context_ctor_first w1 (next_addr (set_cur_thread tid w)) Hcc) as (Ht & _).
    pose proof (Context_ctor_first_classes w1 (next_addr (set_cur_thread tid w)) Hcc) as Hcl.
    cbn zeta in Hcl. rewrite Hrt in *. split; [exact Ht|exact Hcl].
  - unfold Context_copy, JS_DupContext.
    change (contexts (set_cur_thread tid w)) with (contexts w).
    destruct (contexts w !! c_m_context ctx) as [r|] eqn:Hr.
    + set (w1 := set_contexts _ _).
      assert (Hcc : closure_class w1 = 0) by done.
      assert (Hrt : JS_GetRuntime w1 (c_m_context ctx) = JS_GetRuntime w (c_m_context ctx)).
      { unfold JS_GetRuntime, w1. cbn [contexts set_contexts set_cur_thread].
        by rewrite lookup_insert_eq, Hr. }
      destruct (Context_ctor_first w1 (c_m_context ctx) Hcc) as (Ht & _).
      pose proof (Context_ctor_first_classes w1 (c_m_context ctx) Hcc) as Hcl.
      cbn zeta in Hcl. rewrite Hrt in *. split; [exact Ht|exact Hcl].
    + set (w1 := add_fault _ _).
      assert (Hcc : closure_class w1 = 0) by done.
      destruct (Context_ctor_first w1 (c_m_context ctx) Hcc) as (Ht & _).
      pose proof (Context_ctor_first_classes w1 (c_m_context ctx) Hcc) as Hcl.
      split; [exact Ht|exact Hcl].
Qed.

(** A construction takes no class from a runtime and replaces none. *)
Lemma construct_on_keeps_class w step key def :
  classes w !! key = Some def → classes (construct_on w step) !! key = Some def.
Proof.
  intros Hkey. destruct step as [tid c].
  destruct (decide (thread_closure_class w tid = 0)) as [H0|Hn0].
  - destruct (construct_on_first w tid c H0) as [_ ->].
    destruct (classes w !! (_, js_class_id_alloc w)) eqn:Hat; [done|].
    rewrite lookup_insert_ne; [done|]. intros <-. congruence.
  - destruct (construct_on_spec w tid c) as [Hset _].
    destruct (Hset Hn0) as (_ & _ & _).
    assert (Hsame : classes (construct_on w (tid, c)) = classes w); [|by rewrite Hsame].
    unfold construct_on, thread_closure_class in *. cbn [fst snd].
    destruct c as [runtime|ctx].
    + unfold Context_of_runtime, JS_NewContext. by rewrite Context_ctor_registered.
    + unfold Context_copy, JS_DupContext.
      destruct (contexts (set_cur_thread tid w) !! c_m_context ctx);
        by rewrite Context_ctor_registered.
Qed.

Lemma run_constructions_keeps_class sched : ∀ w key def,
  classes w !! key = Some def → classes (run_constructions w sched) !! key = Some def.
Proof.
  induction sched as [|step rest IH]; intros w key def Hkey; [done|].
  cbn [run_constructions foldl]. fold (run_constructions (construct_on w step) rest).
  by apply IH, construct_on_keeps_class.
Qed.

(** The classes of the runtimes keep to the ids allocated, as long as the
    allocator does not wrap around. *)
Lemma construct_on_class_ids w tid c :
  0 < js_class_id_alloc w → js_class_id_alloc w + 1 < 2 ^ 32 →
  class_ids_allocated w → class_ids_allocated (construct_on w (tid, c)).
Proof.
  intros Hpos Hlt Hfresh rt id def.
  destruct (construct_on_spec w tid c) as [Hset Hzero].
  destruct (decide (thread_closure_class w tid = 0)) as [H0|Hn0].
  - destruct (Hzero H0) as (_ & _ & _ & ->).
    destruct (construct_on_first w tid c H0) as [_ ->].
    rewrite Z.mod_small by lia.
    destruct (classes w !! (_, js_class_id_alloc w)) eqn:Hat.
    + intros Hdef. specialize (Hfresh _ _ _ Hdef). lia.
    + intros Hdef. apply lookup_insert_Some in Hdef as [[[= _ <-] _]|[_ Hdef]]; [lia|].
      specialize (Hfresh _ _ _ Hdef). lia.
  - destruct (Hset Hn0) as (_ & _ & ->). intros Hdef.
    apply (Hfresh rt id def).
    destruct (classes w !! (rt, id)) as [d|] eqn:Hold.
    + by rewrite (construct_on_keeps_class w (tid, c) _ _ Hold) in Hdef.
    + exfalso. revert Hdef.
      unfold construct_on, thread_closure_class in *. cbn [fst snd].
      destruct c as [runtime|ctx].
      * unfold Context_of_runtime, JS_NewContext. rewrite Context_ctor_registered by done.
        cbn. congruence.
      * unfold Context_copy, JS_DupContext.
        destruct (contexts (set_cur_thread tid w) !! c_m_context ctx);
          rewrite Context_ctor_registered by done; cbn; congruence.
Qed.

Lemma run_constructions_class_ids sched : ∀ w,
  0 < js_class_id_alloc w → js_class_id_alloc w + Z.of_nat (length sched) < 2 ^ 32 →
  class_ids_allocated w → class_ids_allocated (run_constructions w sched).
Proof.
  induction sched as [|[tid c] rest IH]; intros w Hpos Hlt Hfresh; [done|].
  cbn [run_constructions foldl]. fold (run_constructions (construct_on w (tid, c)) rest).
  rewrite length_cons in Hlt.
  pose proof (construct_on_alloc w tid c Hpos ltac:(lia)) as Halloc.
  apply IH; [lia|lia|]. apply construct_on_class_ids; [done|lia|done].
Qed.

(** C8.  Take a thread [t] that has built no [Context] yet (its
    [closure_class] is zero), let other threads build contexts ([pre]), let
    [t] build its first one, and let any threads, [t] among them, build more
    ([post]).  Thread [t] allocates a class id and registers the carrier
    class exactly once, in its first construction, and never again: nothing
    before, one call of each after the first construction, still one after
    all the others.  What the first construction registers: the id is the
    next one of the allocator of the process and it becomes the
    [closure_class] of [t]; the class is registered under that id in the
    runtime of the context being built, with the name [Std_Closure_Class],
    the finalizer of closures and a GC-mark callback that does nothing; the
    later constructions leave the [closure_class] of [t] and that class of
    that runtime as they are.  The ids the allocator hands out are taken not
    to wrap around to zero, and the classes that the runtimes have are taken
    to have ids that the allocator has handed out. *)
Theorem closure_class_registered_once_per_thread
  (w : World) (t : Z) (first : Construction) (pre post : list (Z * Construction)) :
  thread_closure_class w t = 0 →
  t ∉ pre.*1 →
  0 < js_class_id_alloc w →
  js_class_id_alloc w + Z.of_nat (length pre) + 1 < 2 ^ 32 →
  class_ids_allocated w →
  let before := run_constructions w pre in
  let at_first := construct_on before (t, first) in
  let after := run_constructions at_first post in
  let allocated := allocations_by t (trace w) in
  let registered := registrations_by t (trace w) in
  let id := js_class_id_alloc before in
  let rt := runtime_of_construction before first in
  let carrier := {| class_name := "Std_Closure_Class";
                    finalizer := Some closure_finalizer;
                    gc_mark_is_noop := true |} in
  allocations_by t (trace before) = allocated ∧
  registrations_by t (trace before) = registered ∧
  allocations_by t (trace at_first) = S allocated ∧
  registrations_by t (trace at_first) = S registered ∧
  thread_closure_class at_first t ≠ 0 ∧
  allocations_by t (trace after) = S allocated ∧
  registrations_by t (trace after) = S registered ∧
  thread_closure_class after t = thread_closure_class at_first t ∧
  trace at_first = trace before ++ [EvNewClassID t id; EvNewClass t rt id "Std_Closure_Class"] ∧
  thread_closure_class at_first t = id ∧
  classes before !! (rt, id) = None ∧
  classes at_first = <[(rt, id) := carrier]> (classes before) ∧
  classes after !! (rt, id) = Some carrier.
Proof.
  intros Hzero Hnot Hpos Hlt Hids. cbn zeta.
  destruct (run_constructions_others t pre w Hnot Hpos ltac:(lia)) as (B1 & B2 & B3 & B4).
  pose proof (run_constructions_class_ids pre w Hpos ltac:(lia) Hids) as Hids'.
  set (before := run_constructions w pre) in *.
  destruct (construct_on_spec before t first) as [_ Hfirst].
  destruct (Hfirst ltac:(congruence)) as (rt' & _ & Htls & _).
  destruct (construct_on_first before t first ltac:(congruence)) as [Ht Hcl].
  set (rt := runtime_of_construction before first) in *.
  set (at_first := construct_on before (t, first)) in *.
  assert (Hid : thread_closure_class at_first t = js_class_id_alloc before).
  { unfold thread_closure_class. by rewrite Htls, lookup_insert_eq. }
  assert (Hset : thread_closure_class at_first t ≠ 0) by lia.
  assert (Ha : allocations_by t (trace at_first) = S (allocations_by t (trace w))).
  { rewrite Ht, allocations_by_app.
    destruct (first_construction_events t t rt (js_class_id_alloc before) "Std_Closure_Class")
      as [-> _].
    rewrite bool_decide_eq_true_2 by done. lia. }
  assert (Hr : registrations_by t (trace at_first) = S (registrations_by t (trace w))).
  { rewrite Ht, registrations_by_app.
    destruct (first_construction_events t t rt (js_class_id_alloc before) "Std_Closure_Class")
      as [_ ->].
    rewrite bool_decide_eq_true_2 by done. lia. }
  assert (Hnew : classes before !! (rt, js_class_id_alloc before) = None).
  { destruct (classes before !! (rt, js_class_id_alloc before)) as [def|] eqn:Hdef; [|done].
    specialize (Hids' _ _ _ Hdef). lia. }
  rewrite Hnew in Hcl.
  destruct (run_constructions_registered t post at_first Hset) as (A1 & A2 & A3).
  repeat split; try done; try congruence.
  apply run_constructions_keeps_class. rewrite Hcl. apply lookup_insert_eq.
Qed.

Lemma closure_class_registered_once_per_thread_witness :
  let w := example_world in
  let rt := m_ref example_setup.1.1 in
  let ctx := example_context in
  let pre := [(2, FromRuntime rt); (0, CopyOf ctx)] in
  let post := [(2, CopyOf ctx); (1, FromRuntime rt); (1, CopyOf ctx); (0, FromRuntime rt)] in
  let before := run_constructions w pre in
  let at_first := construct_on before (1, FromRuntime rt) in
  let after := run_constructions at_first post in
  allocations_by 1 (trace after) = 1%nat ∧ registrations_by 1 (trace after) = 1%nat ∧
  trace at_first = trace before ++ [EvNewClassID 1 62; EvNewClass 1 1 62 "Std_Closure_Class"] ∧
  thread_closure_class after 1 = 62 ∧
  classes after !! (1, 62) = Some {| class_name := "Std_Closure_Class";
                                     finalizer := Some closure_finalizer;
                                     gc_mark_is_noop := true |}.
Proof.
  intros w rt ctx pre post before at_first after.
  assert (H0 : thread_closure_class w 1 = 0) by reflexivity.
  assert (Hn : 1 ∉ pre.*1).
  { simpl. intros H. apply elem_of_cons in H as [H|H]; [discriminate H|].
    apply list_elem_of_singleton in H. discriminate H. }
  assert (Hp : 0 < js_class_id_alloc w) by (vm_compute; reflexivity).
  assert (Hb : js_class_id_alloc w + Z.of_nat (length pre) + 1 < 2 ^ 32)
    by (vm_compute; reflexivity).
  assert (Hc : class_ids_allocated w).
  { intros r id def Hdef.
    assert (Hcl : classes w = {[ (1, 60) := {| class_name := "Std_Closure_Class";
                                               finalizer := Some closure_finalizer;
                                               gc_mark_is_noop := true |} ]})
      by (vm_compute; reflexivity).
    rewrite Hcl in Hdef. apply lookup_singleton_Some in Hdef as [[= _ <-] _].
    vm_compute. reflexivity. }
  pose proof (closure_class_registered_once_per_thread w 1 (FromRuntime rt) pre post
                H0 Hn Hp Hb Hc) as H.
  cbn zeta in H.
  destruct H as (_ & _ & _ & _ & _ & Ha & Hr & Hafter & Htrace & Hid & _ & _ & Hclass).
  split; [exact Ha|]. split; [exact Hr|]. split; [exact Htrace|].
  split; [exact (eq_trans Hafter Hid)|exact Hclass].
Defined.

(** ** Pending exceptions *)

(** C6, as the code has it.  When [to_int32] returns the exception case for
    a coercion that failed with an error pending, the error is in the result:
    the exception returned is that pending error, not [JS_NULL].  The
    conversion has fetched it, so a fetch of the pending exception right
    after the conversion already finds none, and so does the next one. *)
Theorem failed_conversion_takes_the_pending_exception `{EC : EngineCoercions}
  (w : World) (this : Context) (val : Value) :
  let ctx := c_m_context this in
  let coerced := JS_ToInt32 w ctx (m_value val) in
  let res := Context_to_int32 w this val in
  coerced.1.1 = -1 →
  current_exception coerced.2 (JS_GetRuntime coerced.2 ctx) ≠ JS_NULL →
  ∃ e, res.1 = Result_exception e ∧
       m_value (e_m_value e) = current_exception coerced.2 (JS_GetRuntime coerced.2 ctx) ∧
       m_value (e_m_value e) ≠ JS_NULL ∧
       let fetch1 := Context_get_exception res.2 this in
       let fetch2 := Context_get_exception fetch1.2 this in
       m_value (e_m_value fetch1.1) = JS_NULL ∧
       m_value (e_m_value fetch2.1) = JS_NULL.
Proof.
  intros ctx coerced res. subst coerced res. unfold Context_to_int32. fold ctx.
  destruct (JS_ToInt32 w ctx (m_value val)) as [[code out] w1]. cbn [fst snd].
  intros Hcode Hpending.
  destruct (protocol_after_coercion this code out w1) as (_ & Hexc & _).
  fold ctx in Hexc.
  set (res := if code =? -1 then _ else _) in *.
  destruct (Hexc Hcode) as (e & Hres & Hval & Hnull & Hrt).
  exists e. split; [exact Hres|]. split; [exact Hval|]. split; [congruence|].
  cbn zeta.
  destruct (Context_get_exception_spec res.2 this) as (H1 & H1n & H1r).
  destruct (Context_get_exception_spec (Context_get_exception res.2 this).2 this)
    as (H2 & _ & _).
  fold ctx in Hrt, H1, H1n, H1r, H2.
  split.
  - rewrite H1, Hrt. exact Hnull.
  - rewrite H2, H1r, Hrt. rewrite Hrt in H1n. exact H1n.
Qed.

Lemma failed_conversion_takes_the_pending_exception_witness :
  let this := example_context in
  let val := world_with_bare_object.1 in
  let w := world_with_bare_object.2 in
  let res := Context_to_int32 (EC := example_engine) w this val in
  ∃ e, res.1 = Result_exception e ∧
       m_value (e_m_value e) = JS_OBJECT 4 ∧
       m_value (e_m_value (Context_get_exception res.2 this).1) = JS_NULL.
Proof.
  intros this val w res.
  assert (Hcode : (JS_ToInt32 (EngineCoercions := example_engine) w (c_m_context this)
                     (m_value val)).1.1 = -1) by (vm_compute; reflexivity).
  assert (Hpending :
    current_exception
      (JS_ToInt32 (EngineCoercions := example_engine) w (c_m_context this) (m_value val)).2
      (JS_GetRuntime
         (JS_ToInt32 (EngineCoercions := example_engine) w (c_m_context this) (m_value val)).2
         (c_m_context this)) ≠ JS_NULL) by (vm_compute; discriminate).
  destruct (failed_conversion_takes_the_pending_exception (EC := example_engine)
              w this val Hcode Hpending) as (e & Hres & Hval & _ & Hfetch & _).
  exists e. split; [exact Hres|]. split; [|exact Hfetch].
  rewrite Hval. vm_compute. reflexivity.
Defined.

(** C6, as the claim has it, on [to_int32] of an object without numeric
    conversion: the result is the exception case, and yet the fetch right
    after it returns no error. *)
Lemma fetch_after_failed_conversion_is_empty :
  let this := example_context in
  let val := world_with_bare_object.1 in
  let w := world_with_bare_object.2 in
  let res := Context_to_int32 (EC := example_engine) w this val in
  let fetch1 := Context_get_exception res.2 this in
  let fetch2 := Context_get_exception fetch1.2 this in
  ¬ (is_exception res.1 →
     m_value (e_m_value fetch1.1) ≠ JS_NULL ∧ m_value (e_m_value fetch2.1) = JS_NULL).
Proof.
  intros this val w res fetch1 fetch2 H.
  assert (Hexc : is_exception res.1) by (vm_compute; exact I).
  destruct (H Hexc) as [Hne _]. apply Hne. vm_compute. reflexivity.
Qed.

(** ** Lookup by index *)

(** C3, on the array-like object of length 3.  Its [length] is 3 and its
    element 0 is 10, and [get_property(0)] returns none: the bound the index
    is compared with is [JS_ToUint32] of the object itself, which is 0,
    instead of its [length]. *)
Theorem index_lookup_refused_below_length :
  let o := world_with_array_like.1 in
  let w := world_with_array_like.2 in
  m_value <$> (Value_get_property w o "length").1 = Some (JS_INT 3) ∧
  (JS_GetPropertyUint32 w (m_context o) (m_value o) 0).1 = JS_INT 10 ∧
  (JS_ToUint32 (EngineCoercions := example_engine) w (m_context o) (m_value o)).1 = (0, 0) ∧
  (Value_get_property_idx (EC := example_engine) w o 0).1 = None ∧
  (Value_get_property_idx (EC := example_engine) w o 1).1 = None ∧
  (Value_get_property_idx (EC := example_engine) w o 2).1 = None.
Proof. vm_compute. repeat split; reflexivity. Qed.

(** ** Handles *)

(** C2, on two handles [h] and [g] of two objects.  After [g = h] and the
    destruction of both handles, the object of [h] is gone, and the object
    [g] held before the assignment is still there with its reference count
    of 1: the assignment dropped that reference without releasing it. *)
Theorem assignment_leaks_the_overwritten_reference :
  let ctx := example_context in
  let (h, w1) := Context_new_object example_world ctx in
  let (g, w2) := Context_new_object w1 ctx in
  let (g', w3) := Value_assign w2 g h in
  let w4 := Value_dtor w3 g' in
  let w5 := Value_dtor w4 h in
  m_value g ≠ m_value h ∧
  m_value g' = m_value h ∧
  ref_count_of w2 (m_value h) = Some 1 ∧ ref_count_of w2 (m_value g) = Some 1 ∧
  ref_count_of w3 (m_value h) = Some 2 ∧ ref_count_of w3 (m_value g) = Some 1 ∧
  ref_count_of w5 (m_value h) = None ∧ ref_count_of w5 (m_value g) = Some 1 ∧
  faults w5 = [].
Proof. vm_compute. repeat split; try reflexivity. discriminate. Qed.

(** The same with one object: [g] is a copy of [h] and is assigned [h]
    again.  Two handles were made and two destroyed, and the object keeps a
    reference count of 1. *)
Example reassignment_leaks_the_referent :
  let ctx := example_context in
  let (h, w1) := Context_new_object example_world ctx in
  let (g, w2) := Value_copy w1 h in
  let (g', w3) := Value_assign w2 g h in
  let w4 := Value_dtor w3 g' in
  let w5 := Value_dtor w4 h in
  ref_count_of w1 (m_value h) = Some 1 ∧ ref_count_of w5 (m_value h) = Some 1.
Proof. vm_compute. split; reflexivity. Qed.

(** C10, on two objects [o] and [v].  [o.set_property("x", v)] leaves the
    reference count of [v]'s object at 1 although the handle [v] and the
    property both hold it now; the destructor of [v] then frees the object,
    the property of [o] keeps its address, and reading the property is a use
    after free. *)
Theorem set_property_takes_the_reference_of_its_argument :
  let ctx := example_context in
  let (o, w1) := Context_new_object example_world ctx in
  let (v, w2) := Context_new_object w1 ctx in
  let (ok, w3) := Value_set_property w2 o "x" v in
  let w4 := Value_dtor w3 v in
  let (_, w5) := Value_get_property w4 o "x" in
  ok = true ∧
  ref_count_of w2 (m_value v) = Some 1 ∧
  property_of w3 (m_value o) "x" = Some (m_value v) ∧
  ref_count_of w3 (m_value v) = Some 1 ∧
  ref_count_of w4 (m_value v) = None ∧
  property_of w4 (m_value o) "x" = Some (m_value v) ∧
  faults w4 = [] ∧
  faults w5 = [UseAfterFree 4; UseAfterFree 4; UseAfterFree 4].
Proof. vm_compute. repeat split; reflexivity. Qed.

(** ** Closures *)

(** The registered function value, with no other handle of the host left,
    runs the closure once, with the [this] and the arguments of the call. *)
Example registered_closure_is_called_once :
  let ctx := example_context in
  let (f, w1) := Context_new_c_function example_world ctx first_argument "f" 1 5 in
  let (this, w2) := Context_new_object w1 ctx in
  let (r, w3) := Value_call w2 f this [Value_ctor (JS_INT 41) (c_m_context ctx)] in
  m_value r = JS_INT 41 ∧
  trace w3 = trace w2 ++ [EvClosureCall 7 (m_value this) [JS_INT 41] 5] ∧
  heap w3 = heap w2 ∧ contexts w3 = contexts w2 ∧ faults w3 = [].
Proof. vm_compute. repeat split; reflexivity. Qed.

(** C1, for every closure [fn] registered in a fresh context.  After
    [new_c_function] the carrier object has two references, the one
    [JS_NewObjectClass] returned, which [new_c_function] never releases, and
    the one the function object took.  After the function value is released
    and a collection pass has run, the function object is gone, the carrier
    is still there with a reference count of 1, its finalizer has not run,
    and the closure is still on the host heap. *)
Theorem closure_is_never_finalized (fn : Function) (name : string) (length magic : Z) :
  let ctx := example_context in
  let rt := example_setup.1.1 in
  let (f, w1) := Context_new_c_function example_world ctx fn name length magic in
  let w2 := Value_dtor w1 f in
  let w3 := Runtime_Ref_run_gc w2 (m_ref rt) in
  let carrier := JS_OBJECT 4 in
  m_value f = JS_OBJECT 5 ∧
  (cf_data <$> (lookup_object w1 (m_value f) ≫= cfunc)) = Some [carrier] ∧
  JS_GetOpaque w1 carrier (closure_class w1) = 3 ∧
  fn_heap w1 !! 3 = Some fn ∧
  ref_count_of w1 carrier = Some 2 ∧
  ref_count_of w2 (m_value f) = None ∧
  ref_count_of w3 carrier = Some 1 ∧
  fn_heap w3 !! 3 = Some fn ∧
  trace w3 = trace example_world ∧
  faults w3 = [].
Proof. vm_compute. repeat split; reflexivity. Qed.

(** ** Accounting of references *)

Lemma count_refs_to_nonneg p vs : 0 ≤ count_refs_to p vs.
Proof. unfold count_refs_to. lia. Qed.

Lemma count_refs_to_app p vs ws :
  count_refs_to p (vs ++ ws) = count_refs_to p vs + count_refs_to p ws.
Proof. unfold count_refs_to. rewrite filter_app, length_app. lia. Qed.

Lemma count_refs_to_cons p v vs :
  count_refs_to p (v :: vs)
  = (if decide (ref_addr v = Some p) then 1 else 0) + count_refs_to p vs.
Proof.
  unfold count_refs_to. rewrite filter_cons.
  destruct (decide (ref_addr v = Some p)); simpl; lia.
Qed.

Lemma count_refs_to_perm p vs ws : vs ≡ₚ ws → count_refs_to p vs = count_refs_to p ws.
Proof. intros H. unfold count_refs_to. by rewrite H. Qed.

Lemma incoming_delete h q cq p :
  h !! q = Some cq →
  incoming h p = incoming (delete q h) p + count_refs_to p (cell_children cq).
Proof.
  intros Hq. unfold incoming.
  rewrite (map_fold_delete_L _ _ q cq h); [done| |done].
  intros. lia.
Qed.

Lemma incoming_insert_fresh h q c p :
  h !! q = None →
  incoming (<[q := c]> h) p = incoming h p + count_refs_to p (cell_children c).
Proof.
  intros Hq. unfold incoming.
  rewrite map_fold_insert_L; [done| |done].
  intros. lia.
Qed.

Lemma incoming_replace h q cq cq' p :
  h !! q = Some cq →
  incoming (<[q := cq']> h) p
  = incoming h p - count_refs_to p (cell_children cq) + count_refs_to p (cell_children cq').
Proof.
  intros Hq. rewrite <- insert_delete_eq.
  rewrite incoming_insert_fresh by apply lookup_delete_eq.
  rewrite (incoming_delete h q cq p Hq). lia.
Qed.

Lemma incoming_nonneg h p : 0 ≤ incoming h p.
Proof.
  induction h as [|q c h Hq _ IH] using map_first_key_ind.
  - unfold incoming. by rewrite map_fold_empty.
  - rewrite incoming_insert_fresh by done.
    pose proof (count_refs_to_nonneg p (cell_children c)). lia.
Qed.

Lemma heap_delete_Function ptr w : heap (delete_Function ptr w) = heap w.
Proof.
  unfold delete_Function. destruct (ptr =? 0); [done|].
  by destruct (fn_heap w !! ptr).
Qed.

Lemma heap_run_class_finalizer rt o v w : heap (run_class_finalizer rt o v w) = heap w.
Proof.
  unfold run_class_finalizer.
  destruct (classes w !! (rt, class_id o)) as [[n [[]|] g]|]; try done.
  apply heap_delete_Function.
Qed.

(** A cell whose reference count exceeds the references that the heap and
    the values being released hold to it outlives the release, with its
    content. *)
Lemma free_values_keeps_cell p rt fuel : ∀ pending w c,
  heap w !! p = Some c →
  incoming (heap w) p + count_refs_to p pending < ref_count c →
  ∃ c', heap (free_values fuel rt pending w) !! p = Some c' ∧ payload c' = payload c.
Proof.
  induction fuel as [|fuel IH]; intros [|v rest] w c Hc Hlt; simpl; eauto.
  rewrite count_refs_to_cons in Hlt.
  pose proof (incoming_nonneg (heap w) p) as Hin.
  pose proof (count_refs_to_nonneg p rest) as Hrest.
  destruct (ref_addr v) as [q|] eqn:Hv.
  2:{ apply IH; [done|]. destruct (decide (None = Some p)); [done|lia]. }
  destruct (heap w !! q) as [cq|] eqn:Hq.
  2:{ apply IH; [done|]. simpl. destruct (decide (Some q = Some p)); lia. }
  destruct (decide (ref_count cq - 1 ≤ 0)) as [Hfree|Hkeep].
  - destruct (decide (q = p)) as [->|Hne].
    { rewrite Hc in Hq. injection Hq as <-.
      rewrite decide_True in Hlt by done. lia. }
    rewrite decide_False in Hlt by congruence.
    pose proof (incoming_delete (heap w) q cq p Hq) as Hdel.
    destruct (payload cq) as [bytes|o] eqn:Hpl.
    + apply IH; simpl; [by rewrite lookup_delete_ne|].
      unfold cell_children in Hdel. rewrite Hpl in Hdel.
      change (count_refs_to p []) with 0 in Hdel. lia.
    + apply IH; simpl; rewrite heap_run_class_finalizer.
      * by rewrite lookup_delete_ne.
      * rewrite count_refs_to_app.
        unfold cell_children in Hdel. rewrite Hpl in Hdel. lia.
  - destruct (decide (q = p)) as [->|Hne].
    + rewrite Hc in Hq. injection Hq as <-.
      rewrite decide_True in Hlt by done.
      destruct (IH rest (set_heap (<[p := with_ref_count (ref_count c - 1) c]> (heap w)) w)
                  (with_ref_count (ref_count c - 1) c)) as (c' & Hc' & Hp').
      * simpl. apply lookup_insert_eq.
      * simpl. rewrite (incoming_replace _ _ c _ _ Hc).
        change (cell_children (with_ref_count (ref_count c - 1) c)) with (cell_children c).
        lia.
      * exists c'. split; [exact Hc'|]. by rewrite Hp'.
    + rewrite decide_False in Hlt by congruence.
      apply IH; simpl; [by rewrite lookup_insert_ne|].
      rewrite (incoming_replace _ _ cq _ _ Hq).
      change (cell_children (with_ref_count (ref_count cq - 1) cq)) with (cell_children cq).
      lia.
Qed.

Lemma count_refs_to_insert_prop p (m : gmap string JSProperty) key pr :
  count_refs_to p (prop_value <$> (map_to_list (<[key := pr]> m)).*2)
  = count_refs_to p (prop_value <$> (map_to_list m).*2)
    - count_refs_to p (prop_value <$> option_list (m !! key))
    + count_refs_to p [prop_value pr].
Proof.
  destruct (m !! key) as [old|] eqn:Hkey; simpl.
  - rewrite <- insert_delete_eq.
    rewrite (count_refs_to_perm p _
               (prop_value <$> ((key, pr) :: map_to_list (delete key m)).*2)).
    2:{ do 2 apply fmap_Permutation. apply map_to_list_insert, lookup_delete_eq. }
    rewrite (count_refs_to_perm p (prop_value <$> (map_to_list m).*2)
               (prop_value <$> ((key, old) :: map_to_list (delete key m)).*2)).
    2:{ do 2 apply fmap_Permutation. symmetry. by apply map_to_list_delete. }
    rewrite !fmap_cons. cbn [snd].
    rewrite !(count_refs_to_cons p _ (prop_value <$> (map_to_list (delete key m)).*2)).
    rewrite !(count_refs_to_cons p _ []). change (count_refs_to p []) with 0. lia.
  - rewrite (count_refs_to_perm p _ (prop_value <$> ((key, pr) :: map_to_list m).*2)).
    2:{ do 2 apply fmap_Permutation. by apply map_to_list_insert. }
    rewrite !fmap_cons. cbn [snd].
    rewrite (count_refs_to_cons p _ (prop_value <$> (map_to_list m).*2)).
    rewrite !(count_refs_to_cons p _ []). change (count_refs_to p []) with 0. lia.
Qed.

(** A release changes reference counts and removes cells; the cells it
    leaves have the content they had. *)
Lemma free_values_payload rt fuel : ∀ pending w p c',
  heap (free_values fuel rt pending w) !! p = Some c' →
  ∃ c, heap w !! p = Some c ∧ payload c' = payload c.
Proof.
  induction fuel as [|fuel IH]; intros [|v rest] w p c' Hc'; cbn in Hc'; eauto.
  destruct (ref_addr v) as [q|]; [|by apply IH in Hc'].
  destruct (heap w !! q) as [cq|] eqn:Hq; [|by apply IH in Hc'].
  destruct (decide (ref_count cq - 1 ≤ 0)).
  - destruct (payload cq) as [units|o].
    + apply IH in Hc' as (c & Hc & Hp). cbn in Hc.
      apply lookup_delete_Some in Hc as [_ Hc]. eauto.
    + apply IH in Hc' as (c & Hc & Hp). cbn in Hc. rewrite heap_run_class_finalizer in Hc.
      apply lookup_delete_Some in Hc as [_ Hc]. eauto.
  - apply IH in Hc' as (c & Hc & Hp). cbn in Hc.
    destruct (decide (q = p)) as [->|Hne].
    + rewrite lookup_insert_eq in Hc. injection Hc as <-. eauto.
    + rewrite lookup_insert_ne in Hc by done. eauto.
Qed.

Lemma JS_FreeValue_payload w ctx v p c' :
  heap (JS_FreeValue w ctx v) !! p = Some c' →
  ∃ c, heap w !! p = Some c ∧ payload c' = payload c.
Proof. apply free_values_payload. Qed.

(** The engine's write on an extensible object to which the caller holds a
    reference of its own, of a property that is new or writable: the result
    is TRUE and the property holds [val]. *)
Lemma JS_SetPropertyKey_stores w ctx p c o key val :
  heap w !! p = Some c →
  payload c = PObject o →
  extensible o = true →
  from_option prop_writable true (props o !! key) = true →
  incoming (heap w) p + count_refs_to p [val] < ref_count c →
  (JS_SetPropertyKey w ctx (JS_OBJECT p) key val).1 = 1 ∧
  property_of (JS_SetPropertyKey w ctx (JS_OBJECT p) key val).2 (JS_OBJECT p) key = Some val.
Proof.
  intros Hc Hpl Hext Hwr Hown. unfold JS_SetPropertyKey. cbn zeta. rewrite Hc, Hpl.
  set (written := {| prop_value := val; prop_writable := true |}).
  set (c1 := with_object (with_props (<[key := written]> (props o)) o) c).
  set (stored := set_heap (<[p := c1]> (heap w)) w).
  assert (Hstored : heap stored !! p = Some c1) by apply lookup_insert_eq.
  destruct (props o !! key) as [old|] eqn:Hold.
  - cbn [from_option] in Hwr. rewrite Hwr. split; [done|]. cbn [snd].
    destruct (free_values_keeps_cell p (JS_GetRuntime stored ctx)
                (S (heap_refs (heap stored))) [prop_value old] stored c1 Hstored)
      as (c' & Hc' & Hp').
    { cbn [heap stored set_heap]. rewrite (incoming_replace _ _ c _ _ Hc).
      unfold cell_children. rewrite Hpl. cbn [c1 payload with_object].
      unfold obj_children. cbn [props cfunc with_props]. rewrite !count_refs_to_app.
      rewrite count_refs_to_insert_prop, Hold.
      change (prop_value <$> option_list (Some old)) with [prop_value old].
      cbn [ref_count c1 with_object prop_value written]. lia. }
    unfold property_of, lookup_object, JS_FreeValue. rewrite Hc'.
    destruct c' as [n pl]. simpl in Hp'. subst pl. simpl.
    by rewrite lookup_insert_eq.
  - rewrite Hext. split; [done|]. cbn [snd].
    unfold property_of, lookup_object. rewrite Hstored. simpl.
    by rewrite lookup_insert_eq.
Qed.


(** ** Writing properties *)

Lemma Value_is_extensible_true w h :
  Value_is_extensible w h = true →
  ∃ p c o, m_value h = JS_OBJECT p ∧ heap w !! p = Some c ∧ payload c = PObject o ∧
           extensible o = true.
Proof.
  unfold Value_is_extensible, JS_IsExtensible, lookup_object.
  destruct (m_value h) as [| | | | | |p]; try discriminate.
  destruct (heap w !! p) as [[n [bytes|o]]|] eqn:Hc; try discriminate.
  destruct (extensible o) eqn:Hext; [|discriminate].
  intros _. by exists p, {| ref_count := n; payload := PObject o |}, o.
Qed.




Example set_property_on_read_only_property :
  let ctx := example_context in
  let f := function_value_world.1 in
  let w := function_value_world.2 in
  let res := Value_set_property w f "length" (Context_new_int32 w ctx 7).1 in
  res.1 = true ∧
  m_value <$> (Value_get_property res.2 f "length").1 = Some (JS_INT 1) ∧
  current_exception res.2 (JS_GetRuntime res.2 (c_m_context ctx)) ≠ JS_NULL.
Proof. vm_compute. repeat split; discriminate. Qed.

Example set_property_overwrite_frees_the_receiver :
  let ctx := example_context in
  let a := world_with_cycle.1.1 in
  let b := world_with_cycle.1.2 in
  let w := world_with_cycle.2 in
  let res := Value_set_property w b "x" (Context_new_int32 w ctx 7).1 in
  property_of w (m_value b) "x" = Some (m_value a) ∧
  new_or_writable w (m_value b) "x" ∧
  res.1 = true ∧
  ¬ object_remains res.2 b.
Proof. vm_compute. repeat split; try discriminate. intros [? ?]. discriminate. Qed.

(** ** Releasing terminates *)

Lemma heap_refs_delete h q cq :
  h !! q = Some cq → heap_refs h = (heap_refs (delete q h) + cell_refs cq)%nat.
Proof.
  intros Hq. unfold heap_refs.
  rewrite (map_fold_delete_L _ _ q cq h); [done| |done].
  intros. lia.
Qed.

Lemma heap_refs_replace h q cq cq' :
  h !! q = Some cq → cell_refs cq' = cell_refs cq →
  heap_refs (<[q := cq']> h) = heap_refs h.
Proof.
  intros Hq Hrefs. rewrite <- insert_delete_eq. unfold heap_refs at 1.
  rewrite map_fold_insert_L; [| |apply lookup_delete_eq].
  - fold (heap_refs (delete q h)). rewrite (heap_refs_delete h q cq Hq). lia.
  - intros. lia.
Qed.

Lemma fuelled_delete_Function ptr w :
  FuelExhausted ∉ faults w → FuelExhausted ∉ faults (delete_Function ptr w).
Proof.
  intros H. unfold delete_Function. destruct (ptr =? 0); [done|].
  destruct (fn_heap w !! ptr); simpl; [done|].
  rewrite elem_of_app, list_elem_of_singleton. intros [?|?]; [done|discriminate].
Qed.

Lemma fuelled_run_class_finalizer rt o v w :
  FuelExhausted ∉ faults w → FuelExhausted ∉ faults (run_class_finalizer rt o v w).
Proof.
  intros H. unfold run_class_finalizer.
  destruct (classes w !! (rt, class_id o)) as [[n [[]|] g]|]; try done.
  by apply fuelled_delete_Function.
Qed.

(** With fuel for every pending value and every reference of the heap, the
    release runs to its end. *)
Lemma free_values_has_fuel rt fuel : ∀ pending w,
  (length pending + heap_refs (heap w) ≤ fuel)%nat →
  FuelExhausted ∉ faults w →
  FuelExhausted ∉ faults (free_values fuel rt pending w).
Proof.
  induction fuel as [|fuel IH]; intros [|v rest] w Hfuel Hok; simpl in *; try done; [lia|].
  destruct (ref_addr v) as [q|]; [|apply IH; [lia|done]].
  destruct (heap w !! q) as [cq|] eqn:Hq.
  - destruct (decide (ref_count cq - 1 ≤ 0)).
    + pose proof (heap_refs_delete (heap w) q cq Hq) as Hdel. unfold cell_refs in Hdel.
      destruct (payload cq) as [bytes|o].
      * apply IH; simpl; [lia|done].
      * apply IH; simpl; rewrite ?heap_run_class_finalizer.
        -- rewrite length_app. lia.
        -- by apply fuelled_run_class_finalizer.
    + apply IH; simpl; [|done].
      rewrite (heap_refs_replace _ _ cq) by done. lia.
  - apply IH; simpl; [lia|].
    rewrite elem_of_app, list_elem_of_singleton. intros [?|?]; [done|discriminate].
Qed.

(** [JS_FreeValue] never runs out of fuel. *)
Lemma JS_FreeValue_has_fuel w ctx v :
  FuelExhausted ∉ faults w → FuelExhausted ∉ faults (JS_FreeValue w ctx v).
Proof.
  intros H. unfold JS_FreeValue. apply free_values_has_fuel; [simpl; lia|done].
Qed.

(** ** What the code does in general *)

Lemma optional_of_temporary_some w tmp : ∃ x, (optional_of_temporary w tmp).1 = Some x.
Proof.
  unfold optional_of_temporary. destruct (Value_copy w tmp) as [content w1]. by eexists.
Qed.

Lemma Value_get_property_some w this prop :
  Value_has_property w this prop = true → ∃ x, (Value_get_property w this prop).1 = Some x.
Proof.
  intros H. unfold Value_get_property. rewrite H. cbn [negb].
  destruct (JS_GetPropertyStr w (m_context this) (m_value this) (c_str prop)) as [value w1].
  apply optional_of_temporary_some.
Qed.

(** The bound of [get_property] by index: on an object that has a [length],
    the lookup is refused exactly when the index is not below what
    [JS_ToUint32] stores for the object itself. *)
Lemma get_property_idx_bound `{EC : EngineCoercions} (w : World) (this : Value) (idx : Z) :
  Value_has_property w this "length" = true →
  let w1 := (Value_get_property w this "length").2 in
  let len := (JS_ToUint32 w1 (m_context this) (m_value this)).1.2 in
  (Value_get_property_idx w this idx).1 = None ↔ len ≤ idx.
Proof.
  intros Hhas. cbn zeta. unfold Value_get_property_idx. rewrite Hhas. cbn [negb].
  destruct (Value_get_property_some w this "length" Hhas) as [l Hl].
  destruct (Value_get_property w this "length") as [length w1]. cbn [fst snd] in *. subst length.
  destruct (JS_ToUint32 w1 (m_context this) (m_value this)) as [[code len] w2]. cbn [fst snd].
  destruct (bool_decide_reflect (len ≤ idx)) as [Hle|Hgt]; cbn [fst snd].
  - tauto.
  - destruct (JS_GetPropertyUint32 w2 (m_context this) (m_value this) idx) as [value w4].
    destruct (optional_of_temporary_some w4 (Value_ctor value (m_context this))) as [x Hx].
    destruct (optional_of_temporary w4 (Value_ctor value (m_context this))) as [result w5].
    cbn [fst] in *. subst result. split; [discriminate|tauto].
Qed.

(** The assignment of handles leaves the cell that the handle assigned to
    referred to as it was: its reference is not released. *)
Lemma Value_assign_keeps_overwritten_count (w : World) (this value : Value) (p : Z) :
  ref_addr (m_value this) = Some p →
  ref_addr (m_value value) ≠ Some p →
  heap (Value_assign w this value).2 !! p = heap w !! p ∧
  m_value (Value_assign w this value).1 = m_value value.
Proof.
  intros Hold Hnew. unfold Value_assign, JS_DupValue.
  destruct (ref_addr (m_value value)) as [q|]; [|done].
  destruct (heap w !! q); simpl; [|done].
  split; [|done]. apply lookup_insert_ne. congruence.
Qed.

(** [set_property] of a new property: the property holds the value of the
    argument, and the cell of the argument has the reference count it had:
    the property and the handle share one counted reference. *)
Lemma set_property_shares_the_reference (w : World) (h val : Value) (prop : string)
  (p q : Z) (c : Cell) (o : JSObject) :
  m_value h = JS_OBJECT p →
  heap w !! p = Some c → payload c = PObject o → extensible o = true →
  props o !! read_c_string (c_str prop) = None →
  ref_addr (m_value val) = Some q → q ≠ p →
  let w' := (Value_set_property w h prop val).2 in
  property_of w' (m_value h) (read_c_string (c_str prop)) = Some (m_value val) ∧
  heap w' !! q = heap w !! q.
Proof.
  intros Hp Hc Hpl Hext Hnew Hq Hne. cbn zeta.
  destruct c as [n pl]. cbn [payload] in Hpl. subst pl.
  unfold Value_set_property, Value_is_extensible, JS_IsExtensible, lookup_object.
  rewrite Hp, Hc, Hext. cbn [negb Z.eqb fst snd].
  unfold JS_SetPropertyStr, JS_SetPropertyKey. rewrite Hc. cbn [payload].
  rewrite Hnew, Hext. cbn [snd].
  unfold property_of, lookup_object. cbn [heap set_heap].
  rewrite lookup_insert_eq. cbn. rewrite lookup_insert_eq.
  split; [done|]. by apply lookup_insert_ne.
Qed.

(** * Further properties of the binding *)

(** ** Reference counts as sums *)

Lemma set_contexts_same w : set_contexts (contexts w) w = w.
Proof. by destruct w. Qed.

Lemma heap_add_refs k v w q :
  heap (add_refs k v w) !! q
  = (λ c, if decide (ref_addr v = Some q) then with_ref_count (ref_count c + k) c else c)
      <$> heap w !! q.
Proof.
  unfold add_refs. destruct (ref_addr v) as [p|] eqn:Hv.
  - destruct (heap w !! p) as [c|] eqn:Hc.
    + cbn [heap set_heap]. destruct (decide (p = q)) as [->|Hne].
      * rewrite lookup_insert_eq, Hc. cbn. by rewrite decide_True.
      * rewrite lookup_insert_ne by done. destruct (heap w !! q); cbn; [|done].
        rewrite decide_False; [done|congruence].
    + destruct (decide (p = q)) as [->|Hne].
      * by rewrite Hc.
      * destruct (heap w !! q); cbn; [|done]. rewrite decide_False; [done|congruence].
  - destruct (heap w !! q); cbn; [|done]. by rewrite decide_False.
Qed.

Lemma add_refs_set_heap k v w : add_refs k v w = set_heap (heap (add_refs k v w)) w.
Proof.
  unfold add_refs. destruct (ref_addr v) as [p|]; [|by rewrite set_heap_same].
  destruct (heap w !! p); [done|by rewrite set_heap_same].
Qed.

Lemma with_ref_count_twice n m c :
  with_ref_count n (with_ref_count m c) = with_ref_count n c.
Proof. done. Qed.

Lemma add_refs_comm k v k' v' w :
  add_refs k v (add_refs k' v' w) = add_refs k' v' (add_refs k v w).
Proof.
  rewrite (add_refs_set_heap k v), (add_refs_set_heap k' v' (add_refs k v w)).
  rewrite (add_refs_set_heap k' v' w) at 2. rewrite (add_refs_set_heap k v w) at 2.
  rewrite !set_heap_set_heap. f_equal. apply map_eq. intros q.
  rewrite !heap_add_refs. destruct (heap w !! q) as [c|]; [|done]. cbn. f_equal.
  destruct (decide (ref_addr v = Some q)), (decide (ref_addr v' = Some q)); try done.
  unfold with_ref_count. cbn. f_equal. lia.
Qed.

Lemma add_refs_add_refs k k' v w : add_refs k v (add_refs k' v w) = add_refs (k' + k) v w.
Proof.
  rewrite (add_refs_set_heap k v), (add_refs_set_heap (k' + k) v w).
  rewrite (add_refs_set_heap k' v w) at 2.
  rewrite !set_heap_set_heap. f_equal. apply map_eq. intros q.
  rewrite !heap_add_refs. destruct (heap w !! q) as [c|]; [|done]. cbn. f_equal.
  destruct (decide (ref_addr v = Some q)); [|done].
  unfold with_ref_count. cbn. f_equal. lia.
Qed.

Lemma add_refs_zero v w : add_refs 0 v w = w.
Proof.
  rewrite add_refs_set_heap. rewrite <- (set_heap_same w) at 3. f_equal.
  apply map_eq. intros q. rewrite heap_add_refs.
  destruct (heap w !! q) as [[n pl]|]; [|done]. cbn. f_equal.
  destruct (decide (ref_addr v = Some q)); [|done].
  unfold with_ref_count. cbn. f_equal. lia.
Qed.

Lemma add_refs_log_event k v e w : add_refs k v (log_event e w) = log_event e (add_refs k v w).
Proof.
  unfold add_refs. destruct (ref_addr v) as [p|]; [|done]. cbn [heap log_event].
  by destruct (heap w !! p).
Qed.

Lemma add_refs_add_fault k v f w : add_refs k v (add_fault f w) = add_fault f (add_refs k v w).
Proof.
  unfold add_refs. destruct (ref_addr v) as [p|]; [|done]. cbn [heap add_fault].
  by destruct (heap w !! p).
Qed.

Lemma add_refs_set_contexts k v c w :
  add_refs k v (set_contexts c w) = set_contexts c (add_refs k v w).
Proof.
  unfold add_refs. destruct (ref_addr v) as [p|]; [|done]. cbn [heap set_contexts].
  by destruct (heap w !! p).
Qed.

Lemma same_tables_add_refs k v w : same_tables w (add_refs k v w).
Proof. rewrite add_refs_set_heap. apply same_tables_set_heap. Qed.

Lemma fn_heap_add_refs k v w : fn_heap (add_refs k v w) = fn_heap w.
Proof. by rewrite add_refs_set_heap. Qed.

Lemma contexts_add_refs k v w : contexts (add_refs k v w) = contexts w.
Proof. by rewrite add_refs_set_heap. Qed.

Lemma closure_class_add_refs k v w : closure_class (add_refs k v w) = closure_class w.
Proof. by rewrite add_refs_set_heap. Qed.

Lemma lookup_object_add_refs k v w x : lookup_object (add_refs k v w) x = lookup_object w x.
Proof.
  unfold lookup_object. destruct x; try done. rewrite heap_add_refs.
  destruct (heap w !! p) as [[n pl]|]; [|done]. cbn.
  by destruct (decide (ref_addr v = Some p)).
Qed.

Lemma live_add_refs k v w x : 0 ≤ k → live w x → live (add_refs k v w) x.
Proof.
  intros Hk Hx p Hp. destruct (Hx p Hp) as (c & Hc & Hpos).
  rewrite heap_add_refs, Hc. cbn. eexists. split; [done|].
  destruct (decide (ref_addr v = Some p)); cbn; lia.
Qed.

(** A duplication adds one reference. *)
Lemma JS_DupValue_add_refs w ctx v : live w v → JS_DupValue w ctx v = (v, add_refs 1 v w).
Proof.
  intros Hv. unfold JS_DupValue, add_refs. destruct (ref_addr v) as [p|] eqn:Hp; [|done].
  destruct (Hv p Hp) as (c & Hc & _). by rewrite Hc.
Qed.

(** A release of a reference that is not the last one takes one away. *)
Lemma JS_FreeValue_add_refs w ctx v : live w v → JS_FreeValue (add_refs 1 v w) ctx v = w.
Proof.
  intros Hv. rewrite <- (JS_FreeValue_JS_DupValue w ctx v Hv) at 2.
  by rewrite JS_DupValue_add_refs.
Qed.

(** ** The closure bridge in general *)

Lemma foldr_add_refs_comm k v vs w :
  foldr (add_refs 1) (add_refs k v w) vs = add_refs k v (foldr (add_refs 1) w vs).
Proof.
  induction vs as [|a vs IH]; cbn; [done|]. by rewrite IH, add_refs_comm.
Qed.

Lemma foldr_add_refs_log_event e vs w :
  foldr (add_refs 1) (log_event e w) vs = log_event e (foldr (add_refs 1) w vs).
Proof.
  induction vs as [|a vs IH]; cbn; [done|]. by rewrite IH, add_refs_log_event.
Qed.

Lemma foldr_add_refs_add_fault f vs w :
  foldr (add_refs 1) (add_fault f w) vs = add_fault f (foldr (add_refs 1) w vs).
Proof.
  induction vs as [|a vs IH]; cbn; [done|]. by rewrite IH, add_refs_add_fault.
Qed.

Lemma live_foldr_add_refs vs w x : live w x → live (foldr (add_refs 1) w vs) x.
Proof.
  intros Hx. induction vs as [|a vs IH]; cbn; [done|]. by apply live_add_refs.
Qed.

Lemma lookup_object_foldr_add_refs vs w x :
  lookup_object (foldr (add_refs 1) w vs) x = lookup_object w x.
Proof.
  induction vs as [|a vs IH]; cbn; [done|]. by rewrite lookup_object_add_refs.
Qed.

Lemma fn_heap_foldr_add_refs vs w : fn_heap (foldr (add_refs 1) w vs) = fn_heap w.
Proof.
  induction vs as [|a vs IH]; cbn; [done|]. by rewrite fn_heap_add_refs.
Qed.

Lemma closure_class_foldr_add_refs vs w :
  closure_class (foldr (add_refs 1) w vs) = closure_class w.
Proof.
  induction vs as [|a vs IH]; cbn; [done|]. by rewrite closure_class_add_refs.
Qed.

(** The vector of argument handles: one reference more to each argument. *)
Lemma push_back_args_live ctx argv : ∀ w,
  Forall (live w) argv →
  push_back_args w ctx argv
  = ((λ a, Value_ctor a ctx) <$> argv, foldr (add_refs 1) w argv).
Proof.
  induction argv as [|a argv IH]; intros w Hlive; cbn [push_back_args]; [done|].
  apply Forall_cons in Hlive as [Ha Hrest].
  rewrite (JS_DupValue_add_refs w ctx a Ha).
  set (w1 := add_refs 1 a w).
  assert (Ha1 : live w1 a) by (by apply live_add_refs).
  unfold Value_copy. cbn [m_context m_value Value_ctor].
  rewrite (JS_DupValue_add_refs w1 ctx a Ha1).
  unfold Value_dtor. cbn [m_context m_value Value_ctor].
  rewrite (JS_FreeValue_add_refs w1 ctx a Ha1).
  rewrite (IH w1).
  2:{ eapply Forall_impl; [exact Hrest|]. intros x Hx. by apply live_add_refs. }
  cbn [fmap list_fmap foldr]. f_equal. subst w1. apply foldr_add_refs_comm.
Qed.

(** The destruction of the vector gives the references back. *)
Lemma destroy_values_live ctx argv : ∀ w,
  Forall (live w) argv →
  destroy_values (foldr (add_refs 1) w argv) ((λ a, Value_ctor a ctx) <$> argv) = w.
Proof.
  induction argv as [|a argv IH]; intros w Hlive; cbn [destroy_values fmap list_fmap foldr];
    [done|].
  apply Forall_cons in Hlive as [Ha Hrest].
  unfold Value_dtor at 1. cbn [m_context m_value Value_ctor].
  rewrite JS_FreeValue_add_refs by (by apply live_foldr_add_refs).
  by apply IH.
Qed.

Lemma fmap_m_value_Value_ctor ctx (argv : list JSValue) :
  m_value <$> ((λ a, Value_ctor a ctx) <$> argv) = argv.
Proof.
  rewrite <- list_fmap_compose. rewrite (list_fmap_ext _ id argv); [apply list_fmap_id|done].
Qed.

Lemma JS_FreeContext_JS_DupContext w ctx :
  live_context w ctx →
  (JS_DupContext w ctx).1 = ctx ∧
  ∀ g, (∀ c x, g (set_contexts c x) = set_contexts c (g x)) →
       (∀ x, contexts (g x) = contexts x) →
       Context_dtor (g (JS_DupContext w ctx).2) {| c_m_context := ctx |} = g w.
Proof.
  intros (Hnz & c & Hc & Hpos). unfold JS_DupContext. rewrite Hc. split; [done|].
  intros g Hcomm Hsame. cbn [snd]. unfold Context_dtor. cbn [c_m_context].
  destruct (Z.eqb_spec ctx 0) as [|_]; [done|].
  unfold JS_FreeContext. rewrite Hsame. cbn [contexts set_contexts].
  rewrite lookup_insert_eq. cbn [ctx_ref_count ctx_rt].
  destruct (decide (ctx_ref_count c + 1 - 1 ≤ 0)) as [|_]; [lia|].
  rewrite Hcomm.
  match goal with
  | |- set_contexts ?a (set_contexts ?b ?x) = _ => change (set_contexts a x = g w)
  end.
  rewrite insert_insert_eq, insert_id.
  - rewrite <- (Hsame w). apply set_contexts_same.
  - rewrite Hc. f_equal. destruct c as [rt n]. cbn. f_equal. lia.
Qed.

Lemma live_log_event e w x : live w x → live (log_event e w) x.
Proof. done. Qed.

Lemma live_add_fault f w x : live w x → live (add_fault f w) x.
Proof. done. Qed.

(** The trampoline on a world whose context, receiver and arguments are
    live, on a thread that has its [closure_class]: the closure that the
    opaque slot of the carrier points to runs once, and the world changes by
    the event and by the one reference that the result carries; without a
    closure there, the call goes through a null pointer.  The references
    taken for the context, the receiver and the arguments are all given
    back. *)
Lemma trampoline_live w ctx this_val argv magic data :
  live_context w ctx →
  closure_class w ≠ 0 →
  live w this_val →
  Forall (live w) argv →
  let fn := JS_GetOpaque w (nth 0 data JS_UNDEFINED) (closure_class w) in
  (∀ f, fn_heap w !! fn = Some f → live w (fn_body f this_val argv magic)) →
  trampoline w ctx this_val (length argv) argv magic data
  = match fn_heap w !! fn with
    | Some f =>
        let ret := fn_body f this_val argv magic in
        (ret, add_refs 1 ret (log_event (EvClosureCall (fn_tag f) this_val argv magic) w))
    | None => (JS_UNDEFINED, add_fault NullCall w)
    end.
Proof.
  intros Hctx Hcc Hthis Hargs fn Hret.
  pose proof (JS_FreeContext_JS_DupContext w ctx Hctx) as [_ Hbal].
  destruct Hctx as (Hnz & cx & Hcx & Hpos).
  unfold trampoline. unfold JS_DupContext in *. rewrite Hcx in *. cbn [snd] in Hbal.
  set (w1 := set_contexts _ w) in *.
  unfold Context_ctor. change (closure_class w1) with (closure_class w).
  destruct (Z.eqb_spec (closure_class w) 0) as [|_]; [done|]. cbn [c_m_context].
  rewrite (JS_DupValue_add_refs w1 ctx this_val) by exact Hthis.
  rewrite firstn_all.
  set (w3 := add_refs 1 this_val w1).
  assert (Hargs3 : Forall (live w3) argv).
  { eapply Forall_impl; [exact Hargs|]. intros x Hx. by apply live_add_refs. }
  rewrite (push_back_args_live ctx argv w3 Hargs3).
  set (w4 := foldr (add_refs 1) w3 argv).
  assert (Hfn : JS_GetOpaque w4 (nth 0 data JS_UNDEFINED) (closure_class w4) = fn).
  { unfold fn, JS_GetOpaque, w4, w3.
    by rewrite lookup_object_foldr_add_refs, lookup_object_add_refs,
      closure_class_foldr_add_refs, closure_class_add_refs. }
  rewrite Hfn. unfold call_Function.
  assert (Hheap : fn_heap w4 = fn_heap w).
  { unfold w4, w3. by rewrite fn_heap_foldr_add_refs, fn_heap_add_refs. }
  rewrite Hheap. cbn [m_value Value_ctor c_m_context]. rewrite fmap_m_value_Value_ctor.
  destruct (fn_heap w !! fn) as [f|] eqn:Hf.
  - set (ret := fn_body f this_val argv magic).
    set (e := EvClosureCall (fn_tag f) this_val argv magic).
    assert (Hr : live w ret) by (by apply Hret).
    assert (Hr4 : live (log_event e w4) ret).
    { apply live_log_event, live_foldr_add_refs. by apply live_add_refs. }
    rewrite (JS_DupValue_add_refs _ ctx ret Hr4). cbn [m_value Value_ctor].
    set (w5 := add_refs 1 ret (log_event e w4)).
    assert (Hr5 : live w5 ret) by (by apply live_add_refs).
    rewrite (JS_DupValue_add_refs _ ctx ret Hr5).
    unfold Value_dtor at 2. cbn [m_value m_context Value_ctor].
    rewrite (JS_FreeValue_add_refs w5 ctx ret Hr5).
    assert (H5 : w5 = foldr (add_refs 1) (add_refs 1 ret (log_event e w3)) argv).
    { unfold w5, w4. by rewrite foldr_add_refs_comm, foldr_add_refs_log_event. }
    rewrite H5, destroy_values_live.
    2:{ eapply Forall_impl; [exact Hargs3|]. intros x Hx.
        by apply live_add_refs, live_log_event. }
    unfold Value_dtor. cbn [m_value m_context Value_ctor].
    unfold w3. rewrite <- add_refs_log_event, add_refs_comm.
    rewrite JS_FreeValue_add_refs.
    2:{ apply live_add_refs; [lia|]. by apply live_log_event. }
    f_equal. apply (Hbal (λ x, add_refs 1 ret (log_event e x))).
    + intros c x. by rewrite <- add_refs_set_contexts.
    + intros x. by rewrite contexts_add_refs.
  - cbn [JS_DupValue ref_addr m_value Value_ctor].
    unfold Value_dtor at 2. cbn [m_value m_context Value_ctor].
    rewrite JS_FreeValue_immediate by done.
    assert (H5 : add_fault NullCall w4 = foldr (add_refs 1) (add_fault NullCall w3) argv).
    { unfold w4. by rewrite foldr_add_refs_add_fault. }
    rewrite H5, destroy_values_live.
    2:{ eapply Forall_impl; [exact Hargs3|]. intros x Hx. by apply live_add_fault. }
    unfold Value_dtor. cbn [m_value m_context Value_ctor].
    unfold w3. rewrite <- add_refs_add_fault.
    rewrite JS_FreeValue_add_refs by (by apply live_add_fault).
    f_equal. apply (Hbal (add_fault NullCall)); done.
Qed.

(** X1.  A call of a function value that [new_c_function] registered on
    this thread, with a live context, receiver and arguments: the closure
    runs once, with the receiver and the arguments of the call, and the
    handle returned holds the value that the closure returned.  Apart from
    the event of the call, the world changes by the one reference that the
    returned handle owns: the references that the bridge takes for the
    context, the receiver and the arguments are all released again. *)
Theorem call_runs_the_closure_and_keeps_the_counts (w : World) (f this : Value)
  (args : list Value) (fn : Function) (magic : Z) :
  registered_closure w (m_value f) fn magic →
  closure_class w ≠ 0 →
  live_context w (m_context f) →
  let argv := m_value <$> args in
  let ret := fn_body fn (m_value this) argv magic in
  live w (m_value this) → Forall (live w) argv → live w ret →
  Value_call w f this args
  = (Value_ctor ret (m_context f),
     (JS_DupValue (log_event (EvClosureCall (fn_tag fn) (m_value this) argv magic) w)
        (m_context f) ret).2).
Proof.
  intros (o & r & carrier & Ho & Hr & Hmagic & Hcarrier & Hclass & Hfn) Hcc Hctx argv ret
    Hthis Hargs Hret.
  unfold Value_call, JS_Call. rewrite Ho.
  destruct o as [cid ext ps op cf tn]. cbn [cfunc] in Hr. subst cf.
  fold argv.
  assert (Hop : JS_GetOpaque w (nth 0 (cf_data r) JS_UNDEFINED) (closure_class w)
                = opaque carrier).
  { unfold JS_GetOpaque. rewrite Hcarrier, Hclass. by rewrite Z.eqb_refl. }
  rewrite (trampoline_live w (m_context f) (m_value this) argv (cf_magic r) (cf_data r));
    try done.
  - rewrite Hop, Hfn, Hmagic. cbn zeta. fold ret.
    by rewrite (JS_DupValue_add_refs _ (m_context f) ret) by (by apply live_log_event).
  - cbn zeta. rewrite Hop, Hfn, Hmagic. by intros ? [= <-].
Qed.

Lemma call_runs_the_closure_and_keeps_the_counts_witness :
  let f := world_with_function_and_receiver.1.1 in
  let this := world_with_function_and_receiver.1.2 in
  let w := world_with_function_and_receiver.2 in
  let args := [Value_ctor (JS_INT 41) (m_context f); this] in
  Value_call w f this args
  = (Value_ctor (JS_INT 41) (m_context f),
     log_event (EvClosureCall 7 (m_value this) [JS_INT 41; m_value this] 0) w).
Proof.
  intros f this w args.
  apply (call_runs_the_closure_and_keeps_the_counts w f this args first_argument 0).
  - eexists _, _, _. repeat split; try (vm_compute; reflexivity).
  - vm_compute. discriminate.
  - split; [vm_compute; discriminate|]. eexists. split; [vm_compute; reflexivity|]. vm_compute. reflexivity.
  - intros p Hp. vm_compute in Hp. injection Hp as <-. eexists. split; [vm_compute; reflexivity|].
    vm_compute. reflexivity.
  - repeat constructor.
    + intros p Hp. vm_compute in Hp. discriminate.
    + intros p Hp. vm_compute in Hp. injection Hp as <-. eexists. split; [vm_compute; reflexivity|].
      vm_compute. reflexivity.
  - intros p Hp. vm_compute in Hp. discriminate.
Defined.



Lemma JS_DupValue_found w ctx v p c :
  ref_addr v = Some p → heap w !! p = Some c →
  JS_DupValue w ctx v = (v, set_heap (<[p := with_ref_count (ref_count c + 1) c]> (heap w)) w).
Proof. intros Hp Hc. unfold JS_DupValue. by rewrite Hp, Hc. Qed.

(** X3.  What [new_c_function] builds, in every world: a function object
    with one reference, owned by the handle returned, whose bound data is a
    carrier of the thread's [closure_class] that points to a copy of the
    closure: the function value is registered for the closure, on this
    thread.  The carrier has two references, of which the function object
    holds one. *)
Theorem new_c_function_registers_the_closure (w : World) (this : Context) (fn : Function)
  (name : string) (length magic : Z) :
  let res := Context_new_c_function w this fn name length magic in
  let carrier := JS_OBJECT (next_addr w + 1) in
  m_context res.1 = c_m_context this ∧
  m_value res.1 = JS_OBJECT (next_addr w + 2) ∧
  registered_closure res.2 (m_value res.1) fn magic ∧
  cf_data <$> (lookup_object res.2 (m_value res.1) ≫= cfunc) = Some [carrier] ∧
  ref_count_of res.2 (m_value res.1) = Some 1 ∧
  ref_count_of res.2 carrier = Some 2 ∧
  trace res.2 = trace w.
Proof.
  cbn zeta. unfold Context_new_c_function, new_Function, JS_NewObjectClass.
  set (n := next_addr w).
  set (w1 := set_next_addr (n + 1) _).
  set (w0 := match classes _ !! _ with Some _ => _ | None => _ end).
  assert (H0 : next_addr w0 = n + 1 ∧ fn_heap w0 = <[n := fn]> (fn_heap w) ∧
               trace w0 = trace w ∧ closure_class w0 = closure_class w).
  { unfold w0. by destruct (classes _ !! _). }
  destruct H0 as (Hnext & Hfn0 & Htr0 & Hcc0).
  change (closure_class w1) with (closure_class w).
  clearbody w0. clear w1.
  unfold alloc_cell, JS_SetOpaque, update_object, JS_NewCFunctionData, alloc_cell.
  cbn [take dup_values]. rewrite Hnext.
  cbn [heap set_heap set_next_addr]. rewrite lookup_insert_eq.
  cbn [payload with_object with_opaque ref_count]. rewrite insert_insert_eq.
  erewrite JS_DupValue_found; [|reflexivity|apply lookup_insert_eq].
  cbn [fst snd heap set_heap set_next_addr next_addr with_ref_count ref_count payload
       m_context m_value Value_ctor].
  rewrite insert_insert_eq. replace (n + 1 + 1) with (n + 2) by lia.
  assert (Hne : n + 2 ≠ n + 1) by lia.
  split; [done|]. split; [done|].
  split; [|split; [|split; [|split]]].
  - eexists _, _, _. unfold lookup_object at 1. cbn [heap set_heap set_next_addr].
    rewrite lookup_insert_eq.
    split; [reflexivity|]. split; [reflexivity|]. split; [reflexivity|].
    cbn [cf_data nth]. unfold lookup_object. cbn [heap set_heap set_next_addr].
    rewrite lookup_insert_ne by done. rewrite lookup_insert_eq.
    cbn [with_ref_count with_object payload].
    split; [reflexivity|]. split; [by rewrite <- Hcc0|].
    cbn [opaque with_opaque fn_heap set_heap set_next_addr].
    rewrite Hfn0. apply lookup_insert_eq.
  - unfold lookup_object. cbn [heap set_heap set_next_addr]. by rewrite lookup_insert_eq.
  - unfold ref_count_of. cbn [ref_addr heap set_heap set_next_addr mbind option_bind].
    by rewrite lookup_insert_eq.
  - unfold ref_count_of. cbn [ref_addr heap set_heap set_next_addr mbind option_bind].
    rewrite lookup_insert_ne by done. by rewrite lookup_insert_eq.
  - done.
Qed.

(** X4.  The carrier class is registered with the runtime of the first
    [Context] that a thread builds.  A [Context] built afterwards on the same
    thread for another runtime registers nothing, so that runtime has no
    carrier class, and [new_c_function] asks it for an object of a class it
    does not have. *)
Theorem second_runtime_has_no_carrier_class (w : World) (runtime : Runtime_Ref)
  (fn : Function) (name : string) (length magic : Z) :
  closure_class w ≠ 0 →
  classes w !! (m_runtime runtime, closure_class w) = None →
  let built := Context_of_runtime w runtime in
  let res := Context_new_c_function built.2 built.1 fn name length magic in
  classes built.2 = classes w ∧ trace built.2 = trace w ∧
  classes res.2 !! (m_runtime runtime, closure_class w) = None ∧
  faults res.2 = faults w ++ [UnregisteredClass (closure_class w)].
Proof.
  intros Hcc Hnone. cbn zeta.
  unfold Context_of_runtime, JS_NewContext, Context_ctor.
  set (w1 := set_next_addr _ _).
  change (closure_class w1) with (closure_class w).
  destruct (Z.eqb_spec (closure_class w) 0) as [|_]; [done|]. cbn [fst snd].
  split; [done|]. split; [done|].
  unfold Context_new_c_function, new_Function, JS_NewObjectClass. cbn [c_m_context].
  set (w2 := set_next_addr _ (set_fn_heap _ w1)).
  assert (Hrt : JS_GetRuntime w2 (next_addr w) = m_runtime runtime).
  { unfold JS_GetRuntime, w2, w1. cbn [contexts set_next_addr set_fn_heap set_contexts].
    by rewrite lookup_insert_eq. }
  rewrite Hrt. change (closure_class w2) with (closure_class w).
  change (classes w2) with (classes w). rewrite Hnone.
  unfold alloc_cell. cbn [fst snd]. unfold JS_SetOpaque, update_object.
  cbn [heap set_heap set_next_addr add_fault]. rewrite lookup_insert_eq.
  cbn [payload with_object]. unfold JS_NewCFunctionData. cbn [take dup_values].
  erewrite JS_DupValue_found; [|reflexivity|apply lookup_insert_eq].
  unfold alloc_cell. cbn [fst snd].
  split; [exact Hnone|reflexivity].
Qed.

Lemma second_runtime_has_no_carrier_class_witness :
  let w := world_with_second_runtime.2 in
  let runtime := m_ref world_with_second_runtime.1 in
  let built := Context_of_runtime w runtime in
  let res := Context_new_c_function built.2 built.1 first_argument "f" 1 0 in
  classes built.2 = classes w ∧ trace built.2 = trace w ∧
  classes res.2 !! (m_runtime runtime, closure_class w) = None ∧
  faults res.2 = faults w ++ [UnregisteredClass (closure_class w)].
Proof.
  intros w runtime.
  apply (second_runtime_has_no_carrier_class w runtime first_argument "f" 1 0).
  - vm_compute. discriminate.
  - vm_compute. reflexivity.
Defined.

(** ** Reading properties *)

Lemma Value_has_property_spec w h prop :
  Value_has_property w h prop = true ↔
  ∃ o, lookup_object w (m_value h) = Some o ∧ is_Some (props o !! prop).
Proof.
  unfold Value_has_property, JS_NewAtomLen, JS_HasProperty, c_str.
  rewrite read_bytes_c_str.
  destruct (lookup_object w (m_value h)) as [o|]; cbn.
  - destruct (decide (is_Some (props o !! prop))) as [Hs|Hn]; cbn.
    + split; [by exists o|done].
    + split; [done|]. intros (o' & [= <-] & Hs). done.
  - split; [done|]. by intros (o' & ? & _).
Qed.



(** ** Names with a zero byte *)

Lemma zero_free_read_c_string s : zero_free (read_c_string s).
Proof.
  induction s as [|c s IH]; cbn; [done|].
  destruct (decide (c = NUL)); cbn; [done|]. by split.
Qed.

Lemma read_c_string_cuts s : ¬ zero_free s → read_c_string (c_str s) ≠ s.
Proof.
  intros Hz Heq. apply Hz. rewrite <- Heq. apply zero_free_read_c_string.
Qed.

(** The object behind [v], when there is one, has no property [key]. *)
Lemma lacks_property_spec w h prop :
  Value_has_property w h prop = false ↔
  ∀ o, lookup_object w (m_value h) = Some o → props o !! prop = None.
Proof.
  split.
  - intros Hno o Ho. destruct (props o !! prop) as [pr|] eqn:Hpr; [|done].
    assert (Value_has_property w h prop = true); [|congruence].
    apply Value_has_property_spec. exists o. by rewrite Hpr.
  - intros Hno. destruct (Value_has_property w h prop) eqn:Hhas; [|done].
    apply Value_has_property_spec in Hhas as (o & Ho & [pr Hpr]).
    rewrite (Hno o Ho) in Hpr. discriminate.
Qed.

(** What the engine's write leaves of the other properties: an object that
    had no property [other], or no object at all, behind [x] has none
    afterwards, when [other] is not the key written. *)
Lemma JS_SetPropertyKey_other w ctx this_obj key val x other :
  other ≠ key →
  (∀ o, lookup_object w x = Some o → props o !! other = None) →
  ∀ o, lookup_object (JS_SetPropertyKey w ctx this_obj key val).2 x = Some o →
       props o !! other = None.
Proof.
  intros Hne Hno.
  assert (Hfree : ∀ w', (∀ o, lookup_object w' x = Some o → props o !! other = None) →
            ∀ v o, lookup_object (JS_FreeValue w' ctx v) x = Some o → props o !! other = None).
  { intros w' Hw' v o. unfold lookup_object. destruct x as [| | | | | |q]; try done.
    destruct (heap (JS_FreeValue w' ctx v) !! q) as [[n pl]|] eqn:Hq; [|done].
    apply JS_FreeValue_payload in Hq as ([n0 pl0] & Hq0 & Hpl). cbn in Hpl. subst pl0.
    destruct pl as [units|o']; [done|]. intros [= <-].
    apply (Hw' o'). unfold lookup_object. by rewrite Hq0. }
  assert (Hthrow : ∀ w', (∀ o, lookup_object w' x = Some o → props o !! other = None) →
            ∀ o, lookup_object (JS_ThrowTypeError w' ctx).2 x = Some o → props o !! other = None).
  { intros w' Hw' o. unfold JS_ThrowTypeError, alloc_cell, JS_Throw. cbn [snd].
    set (w1 := set_next_addr _ _).
    change (lookup_object (set_exceptions ?e ?y) x) with (lookup_object y x).
    apply Hfree. intros o1. unfold lookup_object, w1. destruct x as [| | | | | |q]; try done.
    cbn [heap set_heap set_next_addr].
    destruct (decide (next_addr w' = q)) as [->|Hq].
    - rewrite lookup_insert_eq. by intros [= <-].
    - rewrite lookup_insert_ne by done. apply (Hw' o1). }
  assert (Hrefused : ∀ o, lookup_object (JS_ThrowTypeError (JS_FreeValue w ctx val) ctx).2 x
                          = Some o → props o !! other = None).
  { apply Hthrow. by apply Hfree. }
  unfold JS_SetPropertyKey. cbn zeta.
  destruct this_obj as [| | | | | |p]; try exact Hrefused.
  destruct (heap w !! p) as [c|] eqn:Hc; [|exact Hno].
  destruct (payload c) as [units|o0] eqn:Hpl; [exact Hrefused|].
  assert (Hstored : ∀ o, lookup_object
            (set_heap (<[p := with_object (with_props
               (<[key := {| prop_value := val; prop_writable := true |}]> (props o0)) o0) c]>
               (heap w)) w) x = Some o → props o !! other = None).
  { intros o. unfold lookup_object. destruct x as [| | | | | |q]; try done.
    cbn [heap set_heap]. destruct (decide (p = q)) as [->|Hq].
    - rewrite lookup_insert_eq. cbn. intros [= <-]. cbn.
      rewrite lookup_insert_ne by done. apply (Hno o0).
      unfold lookup_object. rewrite Hc. destruct c as [n pl]. cbn in Hpl. by subst pl.
    - rewrite lookup_insert_ne by done. apply (Hno o). }
  destruct (props o0 !! key) as [old|].
  - destruct (prop_writable old); [|exact Hrefused]. cbn [snd]. by apply Hfree.
  - destruct (extensible o0); [exact Hstored|exact Hrefused].
Qed.

(** X6.  [set_property] hands the name to the engine as a C string, and
    [has_property] and [get_property] look the name up with its length.  A
    property written under a name with a zero byte is therefore not found
    under that name: on a handle without such a property, [has_property] is
    still false after [set_property], and [get_property] returns none. *)
Theorem name_with_zero_byte_is_not_read_back (w : World) (h val : Value) (prop : string) :
  ¬ zero_free prop →
  Value_has_property w h prop = false →
  let w' := (Value_set_property w h prop val).2 in
  Value_has_property w' h prop = false ∧ Value_get_property w' h prop = (None, w').
Proof.
  intros Hz Hno. cbn zeta.
  assert (Hafter : Value_has_property (Value_set_property w h prop val).2 h prop = false).
  { unfold Value_set_property. destruct (Value_is_extensible w h); cbn [negb snd]; [|done].
    apply lacks_property_spec. unfold JS_SetPropertyStr.
    apply JS_SetPropertyKey_other.
    - intros Heq. by apply (read_c_string_cuts prop Hz).
    - by apply lacks_property_spec. }
  split; [done|]. unfold Value_get_property. by rewrite Hafter.
Qed.

Lemma name_with_zero_byte_is_not_read_back_witness :
  let o := world_with_two_objects.1.1 in
  let v := world_with_two_objects.1.2 in
  let w' := (Value_set_property world_with_two_objects.2 o name_with_zero_byte v).2 in
  Value_has_property w' o name_with_zero_byte = false ∧
  Value_get_property w' o name_with_zero_byte = (None, w').
Proof.
  intros o v.
  apply (name_with_zero_byte_is_not_read_back world_with_two_objects.2 o v name_with_zero_byte).
  - vm_compute. intros (_ & H & _). by apply H.
  - vm_compute. reflexivity.
Defined.

(** ** Extensibility *)

Lemma lookup_object_is_object w x o : lookup_object w x = Some o → ∃ p, x = JS_OBJECT p.
Proof. destruct x; try discriminate. eauto. Qed.

(** X7.  After [prevent_extensions], [set_property] by name and by index
    returns false and writes nothing, for every name, index and value, also
    where the object has the property already (which the script language
    would let one write); the properties that the handle has are what they
    were.  This holds for every handle: one that is no object is not
    extensible in the first place. *)
Theorem set_property_is_refused_after_prevent_extensions (w : World) (h val : Value)
  (prop : string) (idx : Z) :
  let w' := Value_prevent_extensions w h in
  Value_is_extensible w' h = false ∧
  Value_set_property w' h prop val = (false, w') ∧
  Value_set_property_idx w' h idx val = (false, w') ∧
  ∀ name, Value_has_property w' h name = Value_has_property w h name.
Proof.
  cbn zeta.
  assert (Hobj : ∀ x, lookup_object (Value_prevent_extensions w h) x
                      = (λ o, if decide (x = m_value h) then with_extensible false o else o)
                          <$> lookup_object w x).
  { intros x. unfold Value_prevent_extensions, JS_PreventExtensions, update_object.
    destruct (m_value h) as [| | |b|k|p|p] eqn:Hh.
    1-6: destruct (lookup_object w x) as [o|] eqn:Hx; cbn; [|done];
         apply lookup_object_is_object in Hx as [q ->]; by rewrite decide_False.
    unfold lookup_object. destruct x as [| | |b|k|q|q]; try done.
    destruct (heap w !! p) as [[n [units|o]]|] eqn:Hp; cbn [payload heap set_heap add_fault].
    - destruct (heap w !! q) as [[m [u|o]]|] eqn:Hq; cbn; try done.
      rewrite decide_False; [done|]. intros [= ->]. congruence.
    - destruct (decide (p = q)) as [->|Hne].
      + rewrite lookup_insert_eq, Hp. cbn. by rewrite decide_True.
      + rewrite lookup_insert_ne by done.
        destruct (heap w !! q) as [[m [u|o']]|]; cbn; try done.
        rewrite decide_False; [done|congruence].
    - destruct (heap w !! q) as [[m [u|o]]|] eqn:Hq; cbn; try done.
      rewrite decide_False; [done|]. intros [= ->]. congruence. }
  assert (Hext : Value_is_extensible (Value_prevent_extensions w h) h = false).
  { unfold Value_is_extensible, JS_IsExtensible. rewrite Hobj.
    destruct (lookup_object w (m_value h)); cbn; [|done]. by rewrite decide_True. }
  split; [done|].
  unfold Value_set_property, Value_set_property_idx. rewrite Hext. cbn [negb].
  split; [done|]. split; [done|].
  intros name. unfold Value_has_property, JS_HasProperty. rewrite Hobj.
  destruct (lookup_object w (m_value h)); cbn; [|done].
  by destruct (decide (m_value h = m_value h)).
Qed.

(** ** Contexts *)

(** X8.  On a thread that has its [closure_class], the copy of a [Context]
    refers to the same engine context and holds one more reference to it,
    and the destruction of the copy gives that reference back: the world is
    as it was before the copy. *)
Theorem context_copy_is_balanced (w : World) (ctx : Context) :
  closure_class w ≠ 0 →
  live_context w (c_m_context ctx) →
  (Context_copy w ctx).1 = ctx ∧
  (ctx_ref_count <$> contexts (Context_copy w ctx).2 !! c_m_context ctx)
  = ((λ c, ctx_ref_count c + 1) <$> contexts w !! c_m_context ctx) ∧
  Context_dtor (Context_copy w ctx).2 (Context_copy w ctx).1 = w.
Proof.
  intros Hcc Hlive.
  destruct (JS_FreeContext_JS_DupContext w (c_m_context ctx) Hlive) as [Hsame Hbal].
  specialize (Hbal id (λ _ _, eq_refl) (λ _, eq_refl)).
  unfold Context_copy.
  destruct (JS_DupContext w (c_m_context ctx)) as [c w1] eqn:Hdup. cbn [fst snd] in *.
  subst c. unfold Context_ctor.
  assert (Hcc1 : closure_class w1 = closure_class w).
  { unfold JS_DupContext in Hdup. destruct (contexts w !! c_m_context ctx); by injection Hdup as <-. }
  rewrite Hcc1. destruct (Z.eqb_spec (closure_class w) 0) as [|_]; [done|]. cbn [fst snd].
  split; [by destruct ctx|]. split; [|exact Hbal].
  destruct Hlive as (_ & c & Hc & _). unfold JS_DupContext in Hdup. rewrite Hc in Hdup.
  injection Hdup as <-. cbn [contexts set_contexts]. by rewrite lookup_insert_eq, Hc.
Qed.

Lemma context_copy_is_balanced_witness :
  (Context_copy example_world example_context).1 = example_context ∧
  (ctx_ref_count <$> contexts (Context_copy example_world example_context).2
                       !! c_m_context example_context)
  = ((λ c, ctx_ref_count c + 1) <$> contexts example_world !! c_m_context example_context) ∧
  Context_dtor (Context_copy example_world example_context).2
    (Context_copy example_world example_context).1 = example_world.
Proof.
  apply (context_copy_is_balanced example_world example_context).
  - vm_compute. discriminate.
  - split; [vm_compute; discriminate|]. eexists. split; vm_compute; reflexivity.
Defined.

(** ** Strings in general *)

(** [to_std_string] of a string value: the UTF-8 bytes of its code units;
    the view is released and the world is as it was. *)
Lemma to_std_string_of_string_cell `{EC : EngineCoercions} w this val units :
  string_cell w (m_value val) units →
  Context_to_std_string w this val = (string_of_bytes (units_to_utf8 units), w).
Proof.
  intros (p & n & Hv & Hn & Hcell).
  unfold Context_to_std_string, JS_ToCStringLen. rewrite Hv.
  assert (Hlive : live w (JS_STRING p)).
  { intros q [= <-]. eexists. split; [exact Hcell|done]. }
  pose proof (JS_FreeValue_JS_DupValue w (c_m_context this) (JS_STRING p) Hlive) as Hfree.
  rewrite (JS_DupValue_add_refs w _ _ Hlive) in *. cbn [snd] in Hfree.
  assert (Hcell1 : heap (add_refs 1 (JS_STRING p) w) !! p
                   = Some {| ref_count := n + 1; payload := PString units |}).
  { rewrite heap_add_refs, Hcell. cbn. by rewrite decide_True. }
  rewrite Hcell1. cbn [cs_chars cs_owner JS_FreeCString].
  unfold c_str. by rewrite read_bytes_c_str, Hfree.
Qed.

(** X9.  [new_atom_string] hands the engine a C string without a length:
    the string made holds the bytes before the first zero byte, and
    [to_std_string] returns those, when they are well-formed UTF-8.  A
    string without a zero byte comes back whole. *)
Theorem atom_string_ends_at_the_first_zero_byte `{EC : EngineCoercions} (w : World)
  (this : Context) (s : string) :
  let kept := read_c_string (c_str s) in
  let made := Context_new_atom_string w this s in
  utf8_well_formed (bytes_of_string kept) = true →
  Context_to_std_string made.2 this made.1 = (kept, made.2) ∧
  (zero_free s → kept = s).
Proof.
  intros kept made Hwf. split; [|apply read_c_string_c_str].
  unfold made, Context_new_atom_string, JS_NewAtomString, alloc_cell. cbn [fst snd].
  fold kept. set (units := utf8_to_units _ _).
  rewrite (to_std_string_of_string_cell _ this _ units).
  - unfold units. by rewrite utf8_round_trip_string.
  - exists (next_addr w), 1. split; [done|]. split; [done|].
    cbn [heap set_heap set_next_addr]. apply lookup_insert_eq.
Qed.

Lemma atom_string_ends_at_the_first_zero_byte_witness :
  let made := Context_new_atom_string example_world example_context sample_text in
  Context_to_std_string (EC := example_engine) made.2 example_context made.1
  = ("a"%string, made.2) ∧
  (zero_free sample_text → read_c_string (c_str sample_text) = sample_text).
Proof.
  intros made.
  apply (atom_string_ends_at_the_first_zero_byte (EC := example_engine)
           example_world example_context sample_text).
  vm_compute. reflexivity.
Defined.

(** X10.  [to_std_string] of a value that is no string is [to_string]
    followed by the copy of its bytes and the release of the string: when the
    engine's conversion gives a string, the result is that of
    [to_std_string] on it, and the string is released; when it gives
    anything else (the conversion failed), the result is the empty string,
    as for a value that converts to no bytes, and the world is as the
    conversion left it: the pending exception is not fetched. *)
Theorem to_std_string_converts_then_copies `{EC : EngineCoercions} (w : World)
  (this : Context) (val : Value) :
  (∀ p, m_value val ≠ JS_STRING p) →
  let converted := Context_to_string w this val in
  (∀ p, m_value converted.1 = JS_STRING p → ∃ units, string_cell converted.2 (JS_STRING p) units) →
  Context_to_std_string w this val
  = match m_value converted.1 with
    | JS_STRING _ =>
        ((Context_to_std_string converted.2 this converted.1).1,
         Value_dtor converted.2 converted.1)
    | _ => (EmptyString, converted.2)
    end.
Proof.
  intros Hval converted Hcell. unfold converted, Context_to_string in *.
  unfold Context_to_std_string at 1. unfold JS_ToCStringLen.
  set (ctx := c_m_context this) in *.
  assert (Hconv : match m_value val with
                  | JS_STRING _ => JS_DupValue w ctx (m_value val)
                  | _ => JS_ToString w ctx (m_value val)
                  end = JS_ToString w ctx (m_value val)).
  { destruct (m_value val) as [| | |b|k|q|q] eqn:Hv; try done. by destruct (Hval q). }
  rewrite Hconv. destruct (JS_ToString w ctx (m_value val)) as [sv w1].
  cbn [fst snd m_value Value_ctor] in *.
  destruct sv as [| | |b|k|p|p]; try done.
  destruct (Hcell p eq_refl) as (units & Hunits).
  rewrite (to_std_string_of_string_cell w1 this _ units) by done.
  destruct Hunits as (p' & m & [= <-] & Hm & Hp). rewrite Hp.
  cbn [cs_chars cs_owner JS_FreeCString fst].
  unfold c_str. by rewrite read_bytes_c_str.
Qed.

Lemma to_std_string_converts_then_copies_witness :
  let val := (Context_new_int32 example_world example_context 41).1 in
  Context_to_std_string (EC := example_engine) example_world example_context val
  = ("41"%string, set_next_addr (next_addr example_world + 1) example_world).
Proof.
  intros val.
  rewrite (to_std_string_converts_then_copies (EC := example_engine)
             example_world example_context val).
  - vm_compute. reflexivity.
  - intros p. vm_compute. discriminate.
  - intros p Hp. vm_compute in Hp. injection Hp as <-.
    eexists. eexists _, _. split; [reflexivity|]. split; [|vm_compute; reflexivity]. done.
Defined.

(** ** Lookup by index in general *)

(** X11.  [get_property] by index in general.  Without a property [length]
    the lookup is refused and nothing changes.  With one, the lookup is
    refused exactly when the index is not below the number that [JS_ToUint32]
    stores for the receiver itself: the [length] that was fetched is not
    what the index is compared with. *)
Theorem index_lookup_compares_with_the_receiver `{EC : EngineCoercions} (w : World)
  (this : Value) (idx : Z) :
  (Value_has_property w this "length" = false →
     Value_get_property_idx w this idx = (None, w)) ∧
  (Value_has_property w this "length" = true →
     let w1 := (Value_get_property w this "length").2 in
     let len := (JS_ToUint32 w1 (m_context this) (m_value this)).1.2 in
     (Value_get_property_idx w this idx).1 = None ↔ len ≤ idx).
Proof.
  split.
  - intros Hno. unfold Value_get_property_idx. by rewrite Hno.
  - apply get_property_idx_bound.
Qed.

Lemma index_lookup_compares_with_the_receiver_witness :
  let o := world_with_array_like.1 in
  let w := world_with_array_like.2 in
  let bare := world_with_two_objects.1.1 in
  Value_get_property_idx (EC := example_engine) world_with_two_objects.2 bare 0
  = (None, world_with_two_objects.2) ∧
  (Value_get_property_idx (EC := example_engine) w o 2).1 = None.
Proof.
  intros o w bare.
  destruct (index_lookup_compares_with_the_receiver (EC := example_engine)
              world_with_two_objects.2 bare 0) as [Hno _].
  destruct (index_lookup_compares_with_the_receiver (EC := example_engine) w o 2)
    as [_ Hyes].
  split.
  - apply Hno. vm_compute. reflexivity.
  - apply Hyes; [vm_compute; reflexivity|]. vm_compute. discriminate.
Defined.

(** ** Copies of a handle *)

Lemma copy_times_live n : ∀ w h,
  live w (m_value h) →
  copy_times n w h
  = (replicate n (Value_ctor (m_value h) (m_context h)),
     foldr (add_refs 1) w (replicate n (m_value h))).
Proof.
  induction n as [|n IH]; intros w h Hlive; cbn [copy_times replicate foldr]; [done|].
  unfold Value_copy. rewrite (JS_DupValue_add_refs w _ _ Hlive).
  rewrite IH by (by apply live_add_refs). by rewrite foldr_add_refs_comm.
Qed.

(** X12.  Handles made by the copy constructor are balanced by their
    destructors: [n] copies of a handle whose value is live, destroyed
    afterwards, leave the world exactly as it was.  Each copy holds the value
    of the original. *)
Theorem copies_are_balanced_by_their_destructors (n : nat) (w : World) (h : Value) :
  live w (m_value h) →
  let copies := copy_times n w h in
  length copies.1 = n ∧
  Forall (λ c, m_value c = m_value h ∧ m_context c = m_context h) copies.1 ∧
  destroy_values copies.2 copies.1 = w.
Proof.
  intros Hlive. cbn zeta. rewrite (copy_times_live n w h Hlive). cbn [fst snd].
  split; [apply length_replicate|]. split.
  - apply Forall_forall. intros c Hc. apply elem_of_replicate in Hc as [-> _]. done.
  - rewrite <- (fmap_replicate (λ a, Value_ctor a (m_context h))).
    apply destroy_values_live. apply Forall_forall.
    intros x Hx. apply elem_of_replicate in Hx as [-> _]. done.
Qed.

Lemma copies_are_balanced_by_their_destructors_witness :
  let v := world_with_two_objects.1.2 in
  let w := world_with_two_objects.2 in
  let copies := copy_times 3 w v in
  length copies.1 = 3%nat ∧
  Forall (λ c, m_value c = m_value v ∧ m_context c = m_context v) copies.1 ∧
  destroy_values copies.2 copies.1 = w.
Proof.
  intros v w.
  apply (copies_are_balanced_by_their_destructors 3 w v).
  intros p Hp. vm_compute in Hp. injection Hp as <-.
  eexists. split; vm_compute; reflexivity.
Defined.

(** ** Calling a method *)

(** X14.  [invoke] looks the method up under the name with its length, so
    also under a name with a zero byte, and calls it with the receiver as
    [this]: for a method that [new_c_function] registered on this thread the
    closure runs once, with the receiver and the arguments, and the outcome
    is that of [call] on the function value with the receiver as [this]: the
    handle returned owns one new reference to the result, and nothing else
    has changed; the reference taken for the method is released. *)
Theorem invoke_calls_the_method_on_the_receiver (w : World) (h : Value) (prop : string)
  (args : list Value) (f : JSValue) (fn : Function) (magic : Z) :
  property_of w (m_value h) prop = Some f →
  registered_closure w f fn magic →
  closure_class w ≠ 0 →
  live_context w (m_context h) →
  let argv := m_value <$> args in
  let ret := fn_body fn (m_value h) argv magic in
  live w f → live w (m_value h) → Forall (live w) argv → live w ret →
  Value_invoke w h prop args
  = (Value_ctor ret (m_context h),
     (JS_DupValue (log_event (EvClosureCall (fn_tag fn) (m_value h) argv magic) w)
        (m_context h) ret).2).
Proof.
  intros Hprop Hreg Hcc Hctx argv ret Hf Hthis Hargs Hret.
  rewrite (JS_DupValue_add_refs _ (m_context h) ret) by (by apply live_log_event).
  cbn [snd].
  unfold Value_invoke, JS_NewAtomLen, c_str. rewrite read_bytes_c_str. fold argv.
  unfold JS_Invoke, JS_GetPropertyKey.
  unfold property_of in Hprop.
  destruct (lookup_object w (m_value h)) as [o|] eqn:Ho; [|done]. cbn in Hprop.
  destruct (lookup_object_is_object w _ o Ho) as [p Hp]. subst ret. rewrite Hp in *.
  set (ret := fn_body fn (JS_OBJECT p) argv magic) in *.
  destruct (props o !! prop) as [pr|]; [|done]. injection Hprop as <-.
  rewrite (JS_DupValue_add_refs w _ _ Hf).
  set (w1 := add_refs 1 (prop_value pr) w).
  destruct Hreg as (o' & r & carrier & Ho' & Hr & Hmagic & Hcarrier & Hclass & Hfn).
  destruct (lookup_object_is_object w _ o' Ho') as [q Hq]. rewrite Hq in *.
  cbn iota. unfold JS_Call. unfold w1 at 1. rewrite lookup_object_add_refs, Ho'.
  destruct o' as [cid ext ps op cf tn]. cbn [cfunc] in Hr. subst cf.
  assert (Hop : JS_GetOpaque w1 (nth 0 (cf_data r) JS_UNDEFINED) (closure_class w1)
                = opaque carrier).
  { unfold JS_GetOpaque, w1. rewrite lookup_object_add_refs, closure_class_add_refs.
    rewrite Hcarrier, Hclass. by rewrite Z.eqb_refl. }
  rewrite (trampoline_live w1 (m_context h) (JS_OBJECT p) argv (cf_magic r) (cf_data r)).
  - rewrite Hop. unfold w1 at 1. rewrite fn_heap_add_refs, Hfn, Hmagic. cbn zeta.
    fold ret. unfold w1. rewrite <- add_refs_log_event, add_refs_comm, Hq.
    rewrite JS_FreeValue_add_refs; [done|].
    apply live_add_refs; [lia|]. by apply live_log_event.
  - destruct Hctx as (Hnz & c & Hc & Hpos). split; [done|]. exists c.
    unfold w1. by rewrite contexts_add_refs.
  - unfold w1. by rewrite closure_class_add_refs.
  - by apply live_add_refs.
  - eapply Forall_impl; [exact Hargs|]. intros x Hx. by apply live_add_refs.
  - cbn zeta. rewrite Hop. unfold w1 at 1. rewrite fn_heap_add_refs, Hfn, Hmagic.
    intros ? [= <-]. by apply live_add_refs.
Qed.

Lemma invoke_calls_the_method_on_the_receiver_witness :
  let this := world_with_method.1 in
  let w := world_with_method.2 in
  let args := [Value_ctor (JS_INT 41) (m_context this)] in
  Value_invoke w this "m" args
  = (Value_ctor (JS_INT 41) (m_context this),
     log_event (EvClosureCall 7 (m_value this) [JS_INT 41] 0) w).
Proof.
  intros this w args.
  apply (invoke_calls_the_method_on_the_receiver w this "m" args
           (JS_OBJECT 5) first_argument 0).
  - vm_compute. reflexivity.
  - eexists _, _, _. repeat split; try (vm_compute; reflexivity).
  - vm_compute. discriminate.
  - split; [vm_compute; discriminate|]. eexists. split; vm_compute; reflexivity.
  - intros p Hp. vm_compute in Hp. injection Hp as <-.
    eexists. split; vm_compute; reflexivity.
  - intros p Hp. vm_compute in Hp. injection Hp as <-.
    eexists. split; vm_compute; reflexivity.
  - repeat constructor. intros p Hp. vm_compute in Hp. discriminate.
  - intros p Hp. vm_compute in Hp. discriminate.
Defined.

(** ** Writing and reading back *)

(** A release adds no cell. *)
Lemma free_values_gone rt fuel pending w p :
  heap w !! p = None → heap (free_values fuel rt pending w) !! p = None.
Proof.
  intros Hp. destruct (heap (free_values fuel rt pending w) !! p) as [c'|] eqn:Hc'; [|done].
  apply free_values_payload in Hc' as (c & Hc & _). congruence.
Qed.

Lemma JS_DupValue_missing w ctx v q :
  ref_addr v = Some q → heap w !! q = None →
  JS_DupValue w ctx v = (v, add_fault (UseAfterFree q) w).
Proof. intros Hq Hnone. unfold JS_DupValue. by rewrite Hq, Hnone. Qed.

Lemma JS_FreeValue_missing w ctx v q :
  ref_addr v = Some q → heap w !! q = None →
  JS_FreeValue w ctx v = add_fault (UseAfterFree q) w.
Proof.
  intros Hq Hnone. unfold JS_FreeValue. cbn [free_values]. rewrite Hq, Hnone.
  apply free_values_nil.
Qed.

(** X15.  A property written by [set_property] under a name without a zero
    byte is read back by [get_property] under that name: on an extensible
    object whose handle owns its reference, and for a property that is new
    or writable, the handle that [get_property] returns holds the value
    written. *)
Theorem property_written_is_read_back (w : World) (h val : Value) (prop : string) :
  zero_free prop →
  Value_is_extensible w h = true →
  handles_own_references w h val →
  new_or_writable w (m_value h) prop →
  let w' := (Value_set_property w h prop val).2 in
  live w' (m_value val) →
  Value_has_property w' h prop = true ∧
  (Value_get_property w' h prop).1 = Some (Value_ctor (m_value val) (m_context h)).
Proof.
  intros Hz Hext Hown Hnew w' Hlive.
  assert (Hstored : property_of w' (m_value h) prop = Some (m_value val)).
  { unfold w', Value_set_property. rewrite Hext. cbn [negb snd].
    destruct (Value_is_extensible_true w h Hext) as (p & c & o & Hp & Hc & Hpl & He).
    unfold JS_SetPropertyStr. rewrite (read_c_string_c_str prop Hz), Hp.
    apply (JS_SetPropertyKey_stores w (m_context h) p c o prop (m_value val)); try done.
    - unfold new_or_writable, lookup_object in Hnew. rewrite Hp, Hc in Hnew.
      destruct c as [n pl]. cbn [payload] in Hpl. subst pl. cbn in Hnew.
      by destruct (props o !! prop).
    - by apply Hown. }
  assert (Hhas : Value_has_property w' h prop = true).
  { apply Value_has_property_spec. unfold property_of in Hstored.
    destruct (lookup_object w' (m_value h)) as [o|]; [|done]. exists o. split; [done|].
    cbn in Hstored. by destruct (props o !! prop). }
  split; [done|].
  unfold Value_get_property. rewrite Hhas. cbn [negb].
  unfold JS_GetPropertyStr, JS_GetPropertyKey. rewrite (read_c_string_c_str prop Hz).
  unfold property_of in Hstored.
  destruct (lookup_object w' (m_value h)) as [o|] eqn:Ho; [|done]. cbn in Hstored.
  destruct (lookup_object_is_object w' _ o Ho) as [p Hp]. rewrite Hp.
  destruct (props o !! prop) as [pr|]; [|done]. injection Hstored as ->.
  rewrite (JS_DupValue_add_refs w' _ _ Hlive).
  unfold optional_of_temporary, Value_copy. cbn [m_context m_value Value_ctor].
  by rewrite (JS_DupValue_add_refs _ _ _ (live_add_refs 1 _ w' _ ltac:(lia) Hlive)).
Qed.

Lemma property_written_is_read_back_witness :
  let o := world_with_two_objects.1.1 in
  let v := world_with_two_objects.1.2 in
  let w := world_with_two_objects.2 in
  let w' := (Value_set_property w o "x" v).2 in
  Value_has_property w' o "x" = true ∧
  (Value_get_property w' o "x").1 = Some (Value_ctor (m_value v) (m_context o)).
Proof.
  intros o v w.
  apply (property_written_is_read_back w o v "x").
  - vm_compute. repeat split; discriminate.
  - vm_compute. reflexivity.
  - intros p c Hp Hc. vm_compute in Hp. injection Hp as <-.
    vm_compute in Hc. injection Hc as <-. vm_compute. reflexivity.
  - vm_compute. exact I.
  - intros p Hp. vm_compute in Hp. injection Hp as <-.
    eexists. split; vm_compute; reflexivity.
Defined.

(** X16.  [set_property] in general: the property of a new name takes the
    reference of the argument, which the handle of the argument holds as
    well.  When that was the only reference, the destruction of the
    argument's handle frees the cell, the property keeps its address, and
    reading the property is a use after free. *)
Theorem set_property_leaves_a_dangling_property (w : World) (h val : Value)
  (prop : string) (p q : Z) (c cv : Cell) (o : JSObject) :
  zero_free prop →
  m_value h = JS_OBJECT p → heap w !! p = Some c → payload c = PObject o →
  extensible o = true → props o !! prop = None →
  incoming (heap w) p < ref_count c →
  ref_addr (m_value val) = Some q → q ≠ p →
  heap w !! q = Some cv → ref_count cv = 1 →
  let w1 := (Value_set_property w h prop val).2 in
  let w2 := Value_dtor w1 val in
  property_of w1 (m_value h) prop = Some (m_value val) ∧
  heap w1 !! q = Some cv ∧
  property_of w2 (m_value h) prop = Some (m_value val) ∧
  heap w2 !! q = None ∧
  faults (Value_get_property w2 h prop).2
  = faults w2 ++ [UseAfterFree q; UseAfterFree q; UseAfterFree q].
Proof.
  intros Hz Hp Hc Hpl Hext Hnew Hown Hq Hne Hcv Hone w1 w2.
  set (written := {| prop_value := m_value val; prop_writable := true |}).
  set (c1 := with_object (with_props (<[prop := written]> (props o)) o) c).
  assert (Hw1 : w1 = set_heap (<[p := c1]> (heap w)) w).
  { unfold w1, Value_set_property, Value_is_extensible, JS_IsExtensible, lookup_object.
    rewrite Hp, Hc. destruct c as [n pl]. cbn [payload] in Hpl. subst pl.
    rewrite Hext. cbn [negb Z.eqb snd].
    unfold JS_SetPropertyStr, JS_SetPropertyKey. rewrite (read_c_string_c_str prop Hz), Hc.
    cbn [payload]. by rewrite Hnew, Hext. }
  assert (Hp1 : heap w1 !! p = Some c1) by (rewrite Hw1; apply lookup_insert_eq).
  assert (Hq1 : heap w1 !! q = Some cv).
  { rewrite Hw1. cbn [heap set_heap]. by rewrite lookup_insert_ne. }
  assert (Hprop1 : property_of w1 (m_value h) prop = Some (m_value val)).
  { unfold property_of, lookup_object. rewrite Hp, Hp1. cbn. by rewrite lookup_insert_eq. }
  assert (Hin : incoming (heap w1) p = incoming (heap w) p).
  { rewrite Hw1. cbn [heap set_heap]. rewrite (incoming_replace _ _ c _ _ Hc).
    unfold cell_children. rewrite Hpl. cbn [c1 payload with_object].
    unfold obj_children. cbn [props cfunc with_props]. rewrite !count_refs_to_app.
    rewrite count_refs_to_insert_prop, Hnew. cbn [option_list fmap list_fmap].
    rewrite count_refs_to_cons. cbn [prop_value written].
    rewrite decide_False by congruence.
    change (count_refs_to p (prop_value <$> option_list None)) with 0.
    change (count_refs_to p []) with 0. lia. }
  assert (Hkeep : ∃ c', heap w2 !! p = Some c' ∧ payload c' = payload c1).
  { apply free_values_keeps_cell; [done|]. rewrite Hin, count_refs_to_cons.
    rewrite decide_False by congruence. change (count_refs_to p []) with 0.
    cbn [c1 ref_count with_object]. lia. }
  assert (Hgone : heap w2 !! q = None).
  { unfold w2, Value_dtor, JS_FreeValue. cbn [free_values]. rewrite Hq, Hq1, Hone.
    cbn [decide]. destruct (decide (1 - 1 ≤ 0)) as [_|]; [|lia].
    set (rt := JS_GetRuntime w1 (m_context val)).
    destruct (payload cv) as [units|ov]; apply free_values_gone; cbn [heap set_heap];
      rewrite ?heap_run_class_finalizer; apply lookup_delete_eq. }
  assert (Hprop2 : property_of w2 (m_value h) prop = Some (m_value val)).
  { destruct Hkeep as ([n pl] & Hc' & Hpl'). cbn in Hpl'. subst pl.
    unfold property_of, lookup_object. rewrite Hp, Hc'. cbn. by rewrite lookup_insert_eq. }
  split; [done|]. split; [done|]. split; [done|]. split; [done|].
  assert (Hhas : Value_has_property w2 h prop = true).
  { apply Value_has_property_spec. unfold property_of in Hprop2.
    destruct (lookup_object w2 (m_value h)) as [o2|]; [|done]. exists o2. split; [done|].
    cbn in Hprop2. by destruct (props o2 !! prop). }
  unfold Value_get_property. rewrite Hhas. cbn [negb].
  unfold JS_GetPropertyStr, JS_GetPropertyKey. rewrite (read_c_string_c_str prop Hz).
  unfold property_of in Hprop2. rewrite Hp in *.
  destruct (lookup_object w2 (JS_OBJECT p)) as [o2|]; [|done]. cbn in Hprop2.
  destruct (props o2 !! prop) as [pr|]; [|done]. injection Hprop2 as ->.
  rewrite (JS_DupValue_missing w2 _ _ q Hq Hgone).
  unfold optional_of_temporary, Value_copy, Value_dtor. cbn [m_context m_value Value_ctor].
  rewrite (JS_DupValue_missing _ _ _ q Hq) by exact Hgone.
  rewrite (JS_FreeValue_missing _ _ _ q Hq) by exact Hgone.
  cbn [snd faults add_fault]. by rewrite <- !app_assoc.
Qed.

Lemma set_property_leaves_a_dangling_property_witness :
  let o := world_with_two_objects.1.1 in
  let v := world_with_two_objects.1.2 in
  let w := world_with_two_objects.2 in
  let w1 := (Value_set_property w o "x" v).2 in
  let w2 := Value_dtor w1 v in
  property_of w2 (m_value o) "x" = Some (m_value v) ∧ heap w2 !! 4 = None.
Proof.
  intros o v w w1 w2.
  destruct (set_property_leaves_a_dangling_property w o v "x" 3 4
              {| ref_count := 1; payload := PObject (new_plain_object JS_CLASS_OBJECT) |}
              {| ref_count := 1; payload := PObject (new_plain_object JS_CLASS_OBJECT) |}
              (new_plain_object JS_CLASS_OBJECT)) as (_ & _ & Hprop & Hgone & _).
  all: try (vm_compute; reflexivity).
  - vm_compute. repeat split; discriminate.
  - done.
  - exact (conj Hprop Hgone).
Defined.

(** ** The carrier after the function value is released *)

(** The finalizer of the carrier class deletes nothing for an object whose
    opaque slot is empty. *)
Lemma run_class_finalizer_no_opaque rt o v w :
  lookup_object w v = Some o → opaque o = 0 → run_class_finalizer rt o v w = w.
Proof.
  intros Ho Hop. unfold run_class_finalizer.
  destruct (classes w !! (rt, class_id o)) as [[nm [[]|] gm]|]; try done.
  unfold Std_Closure_finalizer, JS_GetOpaque. rewrite Ho, Hop.
  by destruct (class_id o =? closure_class w).
Qed.

(** X17.  In every world, the release of the function value that
    [new_c_function] returned frees the function object and gives back the
    reference it held to the carrier, and no more: the carrier stays, with
    the reference that [new_c_function] kept in [data] and never released,
    its finalizer does not run, and the copy of the closure stays on the host
    heap. *)
Theorem released_function_value_leaves_the_closure (w : World) (this : Context)
  (fn : Function) (name : string) (length magic : Z) :
  let created := Context_new_c_function w this fn name length magic in
  let w2 := Value_dtor created.2 created.1 in
  let closure := next_addr w in
  let carrier := JS_OBJECT (next_addr w + 1) in
  ref_count_of created.2 carrier = Some 2 ∧
  ref_count_of w2 (m_value created.1) = None ∧
  ref_count_of w2 carrier = Some 1 ∧
  JS_GetOpaque w2 carrier (closure_class w2) = closure ∧
  fn_heap w2 !! closure = Some fn ∧
  trace w2 = trace w.
Proof.
  cbn zeta. unfold Context_new_c_function, new_Function, JS_NewObjectClass.
  set (n := next_addr w).
  set (w1 := set_next_addr (n + 1) _).
  set (w0 := match classes _ !! _ with Some _ => _ | None => _ end).
  assert (H0 : next_addr w0 = n + 1 ∧ fn_heap w0 = <[n := fn]> (fn_heap w) ∧
               trace w0 = trace w ∧ closure_class w0 = closure_class w).
  { unfold w0. by destruct (classes _ !! _). }
  destruct H0 as (Hnext & Hfn0 & Htr0 & Hcc0).
  change (closure_class w1) with (closure_class w).
  clearbody w0. clear w1.
  unfold alloc_cell, JS_SetOpaque, update_object, JS_NewCFunctionData, alloc_cell.
  cbn [take dup_values]. rewrite Hnext.
  cbn [heap set_heap set_next_addr]. rewrite lookup_insert_eq.
  cbn [payload with_object with_opaque ref_count]. rewrite insert_insert_eq.
  erewrite JS_DupValue_found; [|reflexivity|apply lookup_insert_eq].
  cbn [fst snd heap set_heap set_next_addr next_addr with_ref_count ref_count payload
       m_context m_value Value_ctor].
  rewrite insert_insert_eq. replace (n + 1 + 1) with (n + 2) by lia.
  set (ccell := with_ref_count _ _).
  assert (Hcount : ref_count ccell = 2) by done.
  assert (Hcarrier : payload ccell = PObject (with_opaque n (new_plain_object (closure_class w))))
    by done.
  set (fo := {| class_id := JS_CLASS_C_FUNCTION_DATA; extensible := true; props := _;
                opaque := 0; cfunc := _; to_number := NumNaN |}).
  set (H := <[n + 2 := {| ref_count := 1; payload := PObject fo |}]> _).
  set (W := set_next_addr _ _).
  assert (Hne : n + 2 ≠ n + 1) by lia.
  assert (HW : heap W = H) by done.
  assert (Hf : H !! (n + 2) = Some {| ref_count := 1; payload := PObject fo |})
    by apply lookup_insert_eq.
  assert (Hc : H !! (n + 1) = Some ccell).
  { unfold H. rewrite lookup_insert_ne by done. apply lookup_insert_eq. }
  assert (Hkids : obj_children fo = [JS_INT length; JS_OBJECT (n + 1)]).
  { unfold obj_children, fo. cbn [props cfunc cf_data]. by rewrite map_to_list_singleton. }
  split.
  { unfold ref_count_of. cbn [ref_addr mbind option_bind]. by rewrite HW, Hc. }
  unfold Value_dtor, JS_FreeValue. cbn [m_value m_context Value_ctor].
  pose proof (heap_refs_delete H (n + 2) _ Hf) as Hrefs.
  unfold cell_refs in Hrefs. cbn [payload] in Hrefs. rewrite Hkids in Hrefs.
  cbn [List.length] in Hrefs. rewrite HW.
  destruct (heap_refs H) as [|[|[|fuel]]]; try lia.
  cbn [free_values ref_addr]. rewrite HW, Hf. cbn [ref_count payload].
  destruct (decide (1 - 1 ≤ 0)) as [_|]; [|lia].
  rewrite run_class_finalizer_no_opaque; [|by unfold lookup_object; rewrite HW, Hf|done].
  rewrite Hkids. cbn [app free_values ref_addr heap set_heap].
  rewrite HW, lookup_delete_ne, Hc by done. rewrite Hcount.
  destruct (decide (2 - 1 ≤ 0)) as [|_]; [lia|].
  set (W2 := set_heap _ (set_heap _ W)).
  assert (HW2 : heap W2 = <[n + 1 := with_ref_count (2 - 1) ccell]> (delete (n + 2) H))
    by done.
  assert (Hc2 : heap W2 !! (n + 1) = Some (with_ref_count (2 - 1) ccell)).
  { rewrite HW2. apply lookup_insert_eq. }
  split; [|split; [|split; [|split]]].
  - unfold ref_count_of. cbn [ref_addr mbind option_bind]. rewrite HW2.
    rewrite lookup_insert_ne by done. by rewrite lookup_delete_eq.
  - unfold ref_count_of. cbn [ref_addr mbind option_bind]. by rewrite Hc2.
  - unfold JS_GetOpaque, lookup_object. rewrite Hc2.
    cbn [payload with_ref_count]. rewrite Hcarrier.
    cbn [class_id opaque with_opaque new_plain_object].
    change (closure_class W2) with (closure_class w0). rewrite Hcc0.
    by rewrite Z.eqb_refl.
  - change (fn_heap W2) with (fn_heap w0). rewrite Hfn0. apply lookup_insert_eq.
  - exact Htr0.
Qed.

(** ** Runtimes and contexts from construction to destruction *)

(** X18.  A [Runtime] that is built and destroyed without a move in between
    frees its engine runtime once: the set of runtimes is what it was, and
    the one call of [JS_FreeRuntime] is the only thing added to the trace. *)
Theorem runtime_without_move_is_freed_once (w : World) :
  next_addr w ∉ runtimes w →
  let built := Runtime_ctor w in
  let rt := m_runtime (m_ref built.1) in
  rt = next_addr w ∧
  rt ∈ runtimes built.2 ∧
  Runtime_dtor built.2 built.1
  = log_event (EvFreeRuntime rt) (set_next_addr (next_addr w + 1) w).
Proof.
  intros Hfresh. cbn zeta. unfold Runtime_ctor, JS_NewRuntime, Runtime_dtor, JS_FreeRuntime.
  cbn [fst snd m_ref m_runtime runtimes log_event set_next_addr set_runtimes].
  split; [done|]. split; [set_solver|].
  rewrite decide_True by set_solver.
  destruct w as [a rs cl ex cx hp na ct tls fh tr fl]. cbn in *.
  unfold log_event, set_runtimes, set_next_addr. cbn. f_equal.
  apply set_eq. intros x. rewrite elem_of_difference, elem_of_union, elem_of_singleton.
  split; [intros [[->|?] ?]; done|]. intros Hx. split; [by right|]. by intros ->.
Qed.

Lemma runtime_without_move_is_freed_once_witness :
  let built := Runtime_ctor example_world in
  Runtime_dtor built.2 built.1
  = log_event (EvFreeRuntime 3) (set_next_addr 4 example_world).
Proof.
  intros built.
  refine (proj2 (proj2 (runtime_without_move_is_freed_once example_world _))).
  vm_compute. discriminate.
Defined.

(** X19.  A [Context] built on a runtime, on a thread that has its
    [closure_class], and destroyed: the engine context is gone again, and
    nothing else has changed but the address counter. *)
Theorem context_is_freed_by_its_destructor (w : World) (runtime : Runtime_Ref) :
  closure_class w ≠ 0 →
  next_addr w ≠ 0 →
  contexts w !! next_addr w = None →
  let built := Context_of_runtime w runtime in
  c_m_context built.1 = next_addr w ∧
  contexts built.2 !! next_addr w = Some {| ctx_rt := m_runtime runtime; ctx_ref_count := 1 |} ∧
  Context_get_runtime built.2 built.1 = runtime ∧
  Context_dtor built.2 built.1 = set_next_addr (next_addr w + 1) w.
Proof.
  intros Hcc Hnz Hfresh. cbn zeta. unfold Context_of_runtime, JS_NewContext, Context_ctor.
  set (w1 := set_next_addr _ _). change (closure_class w1) with (closure_class w).
  destruct (Z.eqb_spec (closure_class w) 0) as [|_]; [done|]. cbn [fst snd c_m_context].
  assert (Hc : contexts w1 !! next_addr w
               = Some {| ctx_rt := m_runtime runtime; ctx_ref_count := 1 |})
    by apply lookup_insert_eq.
  split; [done|]. split; [done|]. split.
  - unfold Context_get_runtime, JS_GetRuntime. cbn [c_m_context]. rewrite Hc.
    by destruct runtime.
  - unfold Context_dtor, JS_FreeContext. cbn [c_m_context].
    destruct (Z.eqb_spec (next_addr w) 0) as [|_]; [done|]. rewrite Hc.
    cbn [ctx_ref_count]. destruct (decide (1 - 1 ≤ 0)) as [_|]; [|lia].
    unfold w1. cbn [contexts set_contexts set_next_addr].
    rewrite delete_insert_id by done.
    by destruct w.
Qed.

Lemma context_is_freed_by_its_destructor_witness :
  let built := Context_of_runtime example_world (m_ref example_setup.1.1) in
  Context_dtor built.2 built.1 = set_next_addr 4 example_world.
Proof.
  intros built.
  refine (proj2 (proj2 (proj2 (context_is_freed_by_its_destructor example_world
                                 (m_ref example_setup.1.1) _ _ _)))).
  - vm_compute. discriminate.
  - vm_compute. discriminate.
  - vm_compute. reflexivity.
Defined.

(** ** Calls that fail *)

Lemma JS_ThrowTypeError_pending w ctx :
  (JS_ThrowTypeError w ctx).1 = JS_EXCEPTION ∧
  current_exception (JS_ThrowTypeError w ctx).2 (JS_GetRuntime w ctx) = JS_OBJECT (next_addr w).
Proof.
  unfold JS_ThrowTypeError, alloc_cell, JS_Throw. cbn [fst snd]. split; [done|].
  set (w1 := set_next_addr _ _).
  change (JS_GetRuntime w1 ctx) with (JS_GetRuntime w ctx).
  unfold current_exception at 1. cbn [exceptions set_exceptions].
  by rewrite lookup_insert_eq.
Qed.

(** X20.  [call] and [invoke] have no error case of their own.  A call of a
    value that is no function object, and the invocation of a method that
    the receiver does not have, return a handle that holds the exception
    marker; the error that the engine threw is left pending in the runtime,
    and the arguments are not touched. *)
Theorem failed_call_returns_the_exception_marker (w : World) (f this : Value)
  (prop : string) (args : list Value) :
  let ctx := m_context f in
  let thrown := JS_ThrowTypeError w ctx in
  ((lookup_object w (m_value f) ≫= cfunc) = None →
     Value_call w f this args = (Value_ctor JS_EXCEPTION ctx, thrown.2)) ∧
  (is_Some (lookup_object w (m_value f)) → Value_has_property w f prop = false →
     Value_invoke w f prop args = (Value_ctor JS_EXCEPTION ctx, thrown.2)) ∧
  current_exception thrown.2 (JS_GetRuntime w ctx) = JS_OBJECT (next_addr w).
Proof.
  cbn zeta. destruct (JS_ThrowTypeError_pending w (m_context f)) as [Hexc Hpending].
  split; [|split; [|done]].
  - intros Hno. unfold Value_call, JS_Call.
    destruct (lookup_object w (m_value f)) as [[cid ext ps op [r|] tn]|]; try done;
      destruct (JS_ThrowTypeError w (m_context f)) as [v w1]; cbn in Hexc; by subst v.
  - intros [o Ho] Hhas.
    pose proof (proj1 (lacks_property_spec w f prop) Hhas o Ho) as Hnone.
    destruct (lookup_object_is_object w _ o Ho) as [p Hp].
    unfold Value_invoke, JS_NewAtomLen, c_str. rewrite read_bytes_c_str.
    unfold JS_Invoke, JS_GetPropertyKey. rewrite Hp in *. rewrite Ho, Hnone.
    unfold JS_Call. cbn [lookup_object].
    destruct (JS_ThrowTypeError w (m_context f)) as [v w1]. cbn in Hexc. subst v.
    cbn [snd]. by rewrite JS_FreeValue_immediate.
Qed.

Lemma failed_call_returns_the_exception_marker_witness :
  let o := world_with_two_objects.1.1 in
  let w := world_with_two_objects.2 in
  m_value (Value_call w o o []).1 = JS_EXCEPTION ∧
  m_value (Value_invoke w o "m" []).1 = JS_EXCEPTION.
Proof.
  intros o w.
  destruct (failed_call_returns_the_exception_marker w o o "m" []) as (Hcall & Hinvoke & _).
  rewrite Hcall by (vm_compute; reflexivity).
  rewrite Hinvoke; [done|vm_compute; eauto|vm_compute; reflexivity].
Defined.
